(** * Upload progress and upload orchestration of the admin dashboard

    A shallow embedding of the upload subsystem of [src/admin/admin.js]:
    [formatBytes], [shortFileName], the shared [uploadState] object with the
    handlers that write it ([uploadProductFile]'s reset, the [progress]
    listener, [xhr.onload], [xhr.onerror]), the display step
    [animateUploadProgress], and the upload chain of [saveProduct].

    Modelling conventions.
    - A JavaScript string is the list of its UTF-16 code units, so that
      [length], [slice] and [lastIndexOf] count what the source counts.
    - JavaScript numbers are IEEE doubles.  A finite double is a rational,
      and an arithmetic operation on doubles is the exact operation followed
      by rounding to the nearest double, ties to the even significand ([fl]).
      Byte counts, file sizes and timestamps are whole numbers that a double
      holds exactly and are modelled in [N] or [Z].  The arithmetic of the
      progress listener and of [parseInt] is modelled with its roundings.  The
      smoothing filter of the display step and the scaling in [formatBytes]
      are modelled on exact rationals, [Math.round] is [floor (x + 1/2)], and
      [Math.floor (Math.log b / Math.log 1024)] is the exact integer logarithm
      [log2 b / 10] (the same index as the source's below 1024^4, and like
      the source's at least 4 from there on).
    - The DOM is assumed present (the progress bar element exists), and DOM
      writes other than the ones named below are not modelled. *)

From Stdlib Require Import ZArith NArith QArith Qround Qminmax Qpower Qabs Lia Lqa List Bool.
From Stdlib Require Import Strings.String Strings.Ascii Numbers.DecimalString.
From Stdlib Require Import Numbers.DecimalPos Numbers.DecimalN.
Import ListNotations.

Local Open Scope Z_scope.

(** ** JavaScript strings *)

Module JsString.

(** One UTF-16 code unit. *)
Definition code_unit := N.

Definition t := list code_unit.

Definition of_ascii (c : ascii) : code_unit := N_of_ascii c.

(** An ASCII literal of the source, as code units. *)
Fixpoint lit (s : string) : t :=
  match s with
  | EmptyString => []
  | String c r => of_ascii c :: lit r
  end.

(** [String.prototype.lastIndexOf] for a one-unit needle; [-1] when the
    needle does not occur. *)
Fixpoint lastIndexOf (c : code_unit) (s : t) : Z :=
  match s with
  | [] => -1
  | x :: r =>
      let k := lastIndexOf c r in
      if 0 <=? k then k + 1
      else if N.eqb x c then 0 else -1
  end.

(** [s.slice(0, k)] and [s.slice(k)] for [0 <= k]. *)
Definition slice_to (k : Z) (s : t) : t := firstn (Z.to_nat k) s.
Definition slice_from (k : Z) (s : t) : t := skipn (Z.to_nat k) s.

Definition len (s : t) : Z := Z.of_nat (List.length s).

Fixpoint digits (u : Decimal.uint) : t :=
  match u with
  | Decimal.Nil => []
  | Decimal.D0 r => 48%N :: digits r
  | Decimal.D1 r => 49%N :: digits r
  | Decimal.D2 r => 50%N :: digits r
  | Decimal.D3 r => 51%N :: digits r
  | Decimal.D4 r => 52%N :: digits r
  | Decimal.D5 r => 53%N :: digits r
  | Decimal.D6 r => 54%N :: digits r
  | Decimal.D7 r => 55%N :: digits r
  | Decimal.D8 r => 56%N :: digits r
  | Decimal.D9 r => 57%N :: digits r
  end.

(** The decimal numeral of a natural number, as [Number.prototype.toString]
    and [toFixed] print an integer. *)
Definition decimal (n : N) : t := digits (N.to_uint n).

(** [s.replace(/\.0$/, '')]: a final [".0"] is removed. *)
Definition strip_dot_zero (s : t) : t :=
  match rev s with
  | 48%N :: 46%N :: r => rev r
  | _ => s
  end.

Definition count (c : code_unit) (s : t) : nat :=
  List.length (filter (N.eqb c) s).

End JsString.

Import JsString.

(** Code units of the non-ASCII characters the source uses. *)
Definition dot : code_unit := 46%N.            (* '.' *)
Definition space : code_unit := 32%N.          (* ' ' *)
Definition ellipsis : code_unit := 8230%N.     (* U+2026 *)
Definition em_dash : code_unit := 8212%N.      (* U+2014 *)
Definition cyr_B : code_unit := 1041%N.        (* U+0411 *)
Definition cyr_K : code_unit := 1050%N.        (* U+041A *)
Definition cyr_M : code_unit := 1052%N.        (* U+041C *)
Definition cyr_G : code_unit := 1043%N.        (* U+0413 *)
Definition cyr_s : code_unit := 1089%N.        (* U+0441 *)

(** ** Numbers *)

(** [Math.round]: nearest integer, ties towards plus infinity. *)
Definition Math_round (x : Q) : Z := Qfloor (x + (1 # 2)).

Definition QofN (n : N) : Q := inject_Z (Z.of_N n).

(** *** Rounding to a double

    The nearest integer, a tie going to the even one. *)
Definition round_half_even (x : Q) : Z :=
  let f := Qfloor x in
  match (x - inject_Z f ?= 1 # 2)%Q with
  | Lt => f
  | Gt => f + 1
  | Eq => if Z.even f then f else f + 1
  end.

(** The integer part of the binary logarithm of [x], for [0 < x]. *)
Definition binade (x : Q) : Z :=
  let k := Z.log2 (Qnum x) - Z.log2 (Z.pos (Qden x)) in
  if Qle_bool (2 ^ k) x then k else k - 1.

(** The double nearest to [x] (roundTiesToEven): a significand of 53 bits
    above 2^-1022, and a multiple of 2^-1074 below.  The result is finite for
    every [x]; a magnitude of 2^1024 or more stands for an infinity. *)
Definition fl (x : Q) : Q :=
  let a := Qabs x in
  let e := Z.max (binade a - 52) (-1074) in
  Qred (inject_Z (Z.sgn (Qnum x) * round_half_even (a / 2 ^ e)) * 2 ^ e).

(** Half the distance from 1 to the next double: 2^-53. *)
Definition unit_roundoff : Q := 1 # 9007199254740992.

(** [x.toFixed(0)] and [x.toFixed(1)] for [0 <= x]: the nearest numeral with
    that many decimals, the larger one on a tie. *)
Definition toFixed0 (x : Q) : JsString.t :=
  decimal (Z.to_N (Math_round x)).

Definition toFixed1 (x : Q) : JsString.t :=
  let t := Z.to_N (Math_round (x * 10)) in
  decimal (t / 10)%N ++ [dot] ++ decimal (t mod 10)%N.

(** ** formatBytes *)

Definition sizes : list JsString.t :=
  [ [cyr_B]; [cyr_K; cyr_B]; [cyr_M; cyr_B]; [cyr_G; cyr_B] ].

(** [sizes[i]] inside a string concatenation: a missing entry prints as
    ["undefined"]. *)
Definition sizes_at (i : N) : option JsString.t := nth_error sizes (N.to_nat i).

Definition concat_unit (o : option JsString.t) : JsString.t :=
  match o with
  | Some u => u
  | None => lit "undefined"
  end.

(** [Math.floor(Math.log(bytes) / Math.log(1024))] for [0 < bytes]. *)
Definition unit_index (bytes : N) : N := (N.log2 bytes / 10)%N.

Definition formatBytes (bytes : N) : JsString.t :=
  if (bytes =? 0)%N then lit "0 " ++ [cyr_B]
  else
    let k := 1024%N in
    let i := unit_index bytes in
    let v := (QofN bytes / QofN (k ^ i))%Q in
    (if (i =? 0)%N then toFixed0 v else strip_dot_zero (toFixed1 v))
      ++ [space] ++ concat_unit (sizes_at i).

(** ** shortFileName *)

(** [maxLen || 42]: an omitted or zero argument takes the default. *)
Definition maxLen_or_default (maxLen : option N) : Z :=
  match maxLen with
  | Some (Npos p) => Z.pos p
  | _ => 42
  end.

Definition shortFileName (name : JsString.t) (maxLen : option N) : JsString.t :=
  let maxLen := maxLen_or_default maxLen in
  if (len name =? 0) || (len name <=? maxLen) then name
  else
    let lastDot := lastIndexOf dot name in
    let '(ext, name) :=
      if (0 <? lastDot) && (len name - 6 <? lastDot)
      then (slice_from lastDot name, slice_to lastDot name)
      else ([], name) in
    let keep := maxLen - len ext - 1 in
    if keep <? 8 then slice_to (maxLen - 1) name ++ [ellipsis]
    else slice_to keep name ++ [ellipsis] ++ ext.

(** ** The shared upload state *)

Record UploadState := mkUploadState {
  active : bool;
  realLoaded : N;
  realTotal : N;
  realPercent : Q;
  realSpeedStr : JsString.t;
  displayedLoaded : Q;
  displayedPercent : Q;
  label : JsString.t;
  total : N;
  indeterminate : bool
}.

(** The [File] handed to [uploadProductFile]. *)
Record File := mkFile {
  name : JsString.t;
  size : N
}.

(** The variables one call of [uploadProductFile] closes over. *)
Record Closure := mkClosure {
  isVideo : bool;
  fileSize : N;
  lastLoaded : N;
  lastTime : Z
}.

(** A [progress] event of [xhr.upload], with the [Date.now()] read in its
    listener (milliseconds).  [loaded] and [ev_total] are the Numbers the
    listener reads from the event. *)
Record ProgressEvent := mkProgressEvent {
  loaded : N;
  ev_total : N;
  lengthComputable : bool;
  now : Z
}.

Definition Qgtb (x y : Q) : bool := negb (Qle_bool x y).
Definition Qgeb (x y : Q) : bool := Qle_bool y x.

Definition kind_name (isVideo : bool) : JsString.t :=
  if isVideo then [1042; 1080; 1076; 1077; 1086]%N   (* the word for video *)
  else [1060; 1086; 1090; 1086]%N.                  (* the word for photo *)

Definition default_file_name : JsString.t := [1092; 1072; 1081; 1083]%N.

Definition no_speed : JsString.t := [em_dash].

(** The reset at the head of [uploadProductFile] (source lines 554-571);
    every field of [uploadState] is overwritten. *)
Definition begin (file : File) (isVideo : bool) (now : Z)
  : UploadState * Closure :=
  let fileName := match name file with [] => default_file_name | n => n end in
  let fileSize := size file in
  ({| active := true;
      realLoaded := 0;
      realTotal := fileSize;
      realPercent := 0;
      realSpeedStr := no_speed;
      displayedLoaded := 0;
      displayedPercent := 0;
      label := kind_name isVideo ++ lit ": " ++ shortFileName fileName None;
      total := fileSize;
      indeterminate := (fileSize =? 0)%N |},
   {| isVideo := isVideo; fileSize := fileSize;
      lastLoaded := 0; lastTime := now |}).

(** [elapsed] of the progress listener, in seconds: [(now - lastTime) / 1000],
    a subtraction and a division of doubles. *)
Definition progress_elapsed (c : Closure) (e : ProgressEvent) : Q :=
  fl (fl (inject_Z (now e - lastTime c)) / 1000).

(** [speed] of the progress listener, in bytes per second:
    [elapsed > 0.05 ? (loaded - lastLoaded) / elapsed : 0], where [0.05] is
    the double nearest to 1/20. *)
Definition progress_speed (c : Closure) (e : ProgressEvent) : Q :=
  let elapsed := progress_elapsed c e in
  if Qgtb elapsed (fl (5 # 100))
  then fl (fl (QofN (loaded e) - QofN (lastLoaded c)) / elapsed)
  else 0%Q.

Definition speed_str (speed : Q) : JsString.t :=
  if Qgtb speed 0
  then formatBytes (Z.to_N (Math_round speed)) ++ lit "/" ++ [cyr_s]
  else no_speed.

(** [Math.round((loaded / total) * 1000)]: the division and the
    multiplication are operations on doubles, [Math.round] is exact. *)
Definition progress_tenths (loaded total : N) : Z :=
  Math_round (fl (fl (QofN loaded / QofN total) * 1000)).

(** [Math.min(99, Math.round((loaded / total) * 1000) / 10)]. *)
Definition progress_percent (loaded total : N) : Q :=
  Qmin 99 (fl (inject_Z (progress_tenths loaded total) / 10)).

(** The [progress] listener (source lines 580-599). *)
Definition on_progress (e : ProgressEvent) (sc : UploadState * Closure)
  : UploadState * Closure :=
  let '(s, c) := sc in
  let speed := progress_speed c e in
  let c' := {| isVideo := isVideo c; fileSize := fileSize c;
               lastLoaded := loaded e; lastTime := now e |} in
  if lengthComputable e && (0 <? ev_total e)%N then
    ({| active := active s;
        realLoaded := loaded e;
        realTotal := ev_total e;
        realPercent := progress_percent (loaded e) (ev_total e);
        realSpeedStr := speed_str speed;
        displayedLoaded := displayedLoaded s;
        displayedPercent := displayedPercent s;
        label := label s;
        total := total s;
        indeterminate := false |}, c')
  else
    ({| active := active s;
        realLoaded := loaded e;
        realTotal := realTotal s;
        realPercent := realPercent s;
        realSpeedStr := speed_str speed;
        displayedLoaded := displayedLoaded s;
        displayedPercent := displayedPercent s;
        label := label s;
        total := total s;
        indeterminate := indeterminate s |}, c').

(** The state writes at the head of [xhr.onload] (source lines 601-607);
    they precede the test of [xhr.status]. *)
Definition xhr_onload (c : Closure) (s : UploadState) : UploadState :=
  {| active := false;
     realLoaded := fileSize c;
     realTotal := realTotal s;
     realPercent := 100;
     realSpeedStr := realSpeedStr s;
     displayedLoaded := QofN (fileSize c);
     displayedPercent := 100;
     label := label s;
     total := total s;
     indeterminate := indeterminate s |}.

(** The state write of [xhr.onerror] (source line 637). *)
Definition xhr_onerror (s : UploadState) : UploadState :=
  {| active := false;
     realLoaded := realLoaded s;
     realTotal := realTotal s;
     realPercent := realPercent s;
     realSpeedStr := realSpeedStr s;
     displayedLoaded := displayedLoaded s;
     displayedPercent := displayedPercent s;
     label := label s;
     total := total s;
     indeterminate := indeterminate s |}.

(** ** The display step *)

Definition step : Q := 8 # 100.

(** The two filter lines of [animateUploadProgress] (source lines 530-531). *)
Definition filter_loaded (s : UploadState) : Q :=
  displayedLoaded s + (QofN (realLoaded s) - displayedLoaded s) * step.

Definition filter_percent (s : UploadState) : Q :=
  displayedPercent s + (realPercent s - displayedPercent s) * step.

(** What one call of [animateUploadProgress] does: the state it leaves, the
    percentage it writes to the bar ([pctShow], when it writes one), and
    whether it asks for another animation frame. *)
Record Frame := mkFrame {
  frame_state : UploadState;
  pctShow : option Q;
  rescheduled : bool
}.

Definition animateUploadProgress (s : UploadState) : Frame :=
  if negb (active s) then mkFrame s None false
  else if indeterminate s then mkFrame s None true
  else
    let dl := filter_loaded s in
    let dp := filter_percent s in
    let dp := if Qgtb dp (995 # 10) then realPercent s else dp in
    let dl := if Qgtb dl (QofN (realTotal s) - 100) then QofN (realLoaded s) else dl in
    let shown := Qmin (999 # 10) (inject_Z (Math_round (dp * 10)) / 10) in
    mkFrame
      {| active := active s;
         realLoaded := realLoaded s;
         realTotal := realTotal s;
         realPercent := realPercent s;
         realSpeedStr := realSpeedStr s;
         displayedLoaded := dl;
         displayedPercent := dp;
         label := label s;
         total := total s;
         indeterminate := indeterminate s |}
      (Some shown)
      (negb (Qgeb dp (995 # 10) && Qgeb (realPercent s) (995 # 10))).

(** ** One transfer *)

(** What happens between [xhr.send] and the end of the request: progress
    events and animation frames, in the order the browser runs them. *)
Inductive InFlight :=
| Progress (e : ProgressEvent)
| AnimationFrame.

Definition in_flight (sc : UploadState * Closure) (ev : InFlight)
  : UploadState * Closure :=
  match ev with
  | Progress e => on_progress e sc
  | AnimationFrame => (frame_state (animateUploadProgress (fst sc)), snd sc)
  end.

(** How a request ends: [load] with a status and a response text that
    [JSON.parse] accepts or rejects, or [error]. *)
Inductive Outcome :=
| Load (status : Z) (parses : bool)
| NetworkError.

Record Exchange := mkExchange {
  started : Z;
  inflight : list InFlight;
  outcome : Outcome
}.

(** The transport answers the image request ([false]) and the video request
    ([true]). *)
Definition Transport := bool -> Exchange.

(** The state writes with which a request ends. *)
Definition finish (o : Outcome) (sc : UploadState * Closure) : UploadState :=
  match o with
  | Load _ _ => xhr_onload (snd sc) (fst sc)
  | NetworkError => xhr_onerror (fst sc)
  end.

(** The states of one transfer: the state after the reset, then the state
    after each event in flight, then the state the end of the request
    leaves. *)
Fixpoint states_after (sc : UploadState * Closure) (evs : list InFlight)
  : list UploadState :=
  match evs with
  | [] => []
  | ev :: r => fst (in_flight sc ev) :: states_after (in_flight sc ev) r
  end.

Definition trajectory (sc : UploadState * Closure) (evs : list InFlight)
  : list UploadState :=
  fst sc :: states_after sc evs.

Definition transfer_states (sc : UploadState * Closure) (evs : list InFlight)
  (o : Outcome) : list UploadState :=
  trajectory sc evs ++ [finish o (fold_left in_flight evs sc)].

Fixpoint nondecreasing (l : list Q) : Prop :=
  match l with
  | a :: r =>
      match r with
      | b :: _ => (a <= b)%Q /\ nondecreasing r
      | [] => True
      end
  | [] => True
  end.

(** ** The upload chain of saveProduct *)

(** [uploadState] as the script initialises it (source lines 476-487). *)
Definition initial_uploadState : UploadState :=
  {| active := false;
     realLoaded := 0;
     realTotal := 0;
     realPercent := 0;
     realSpeedStr := no_speed;
     displayedLoaded := 0;
     displayedPercent := 0;
     label := [];
     total := 0;
     indeterminate := false |}.


Inductive Event :=
| Dispatch (isVideo : bool)   (* xhr.send *)
| OnSuccess                   (* done() *)
| OnError.                    (* the onError argument, setBusy(false) *)

Record World := mkWorld {
  uploadState : UploadState;
  log : list Event
}.

Definition Callback := World -> World.

Definition emit (e : Event) : Callback :=
  fun w => mkWorld (uploadState w) (log w ++ [e]).

Definition is_success (status : Z) : bool := (200 <=? status) && (status <? 300).

(** [uploadProductFile] (source lines 547-645).  The call resets the state
    and sends the request; the events in flight run; the request ends with
    [load] or [error] (it is never aborted and has no timeout).  On a success
    status the response text is parsed inside [try]: when it parses, [cb]
    runs; when [JSON.parse] throws, the [catch] branch runs [onError] and then
    [cb].  The callbacks themselves are taken not to throw, and the two
    [setTimeout] delays are not modelled. *)
Definition uploadProductFile (tr : Transport) (file : File) (isVideo : bool)
  (cb onError : Callback) : Callback :=
  fun w =>
    let ex := tr isVideo in
    let sc := fold_left in_flight (inflight ex) (begin file isVideo (started ex)) in
    let sent := log w ++ [Dispatch isVideo] in
    match outcome ex with
    | Load status parses =>
        let w' := mkWorld (xhr_onload (snd sc) (fst sc)) sent in
        if is_success status then
          if parses then cb w'
          else cb (onError w')
        else onError w'
    | NetworkError =>
        onError (mkWorld (xhr_onerror (fst sc)) sent)
    end.

(** The part of [saveProduct] that runs once the product has an id
    (source lines 686-706). *)
Definition saveProduct (tr : Transport) (image video : option File) : Callback :=
  let done := emit OnSuccess in
  let setBusyFalse := emit OnError in
  match image with
  | Some img =>
      uploadProductFile tr img false
        (fun w =>
           match video with
           | Some vid => uploadProductFile tr vid true done setBusyFalse w
           | None => done w
           end)
        setBusyFalse
  | None =>
      match video with
      | Some vid => uploadProductFile tr vid true done setBusyFalse
      | None => done
      end
  end.

Definition occurrences (e : Event) (l : list Event) : nat :=
  List.length (filter (fun x =>
    match e, x with
    | Dispatch a, Dispatch b => Bool.eqb a b
    | OnSuccess, OnSuccess => true
    | OnError, OnError => true
    | _, _ => false
    end) l).

(** ** formatBytes as the specification words it

    The unit is the largest of the four whose scaled value is at least one;
    the bytes tier prints the integer, the larger tiers print the value
    rounded to one decimal, and a zero decimal is dropped together with its
    point. *)

Definition tier (n : N) : N :=
  (if n <? 1024 then 0
   else if n <? 1024 ^ 2 then 1
   else if n <? 1024 ^ 3 then 2
   else 3)%N.

(** The scaled value in tenths, rounded to the nearest, ties upwards. *)
Definition scaled_tenths (n i : N) : N :=
  ((20 * n + 1024 ^ i) / (2 * 1024 ^ i))%N.

Definition scaled_numeral (n i : N) : JsString.t :=
  if (i =? 0)%N then decimal n
  else
    let t := scaled_tenths n i in
    if (t mod 10 =? 0)%N then decimal (t / 10)%N
    else decimal (t / 10)%N ++ [dot] ++ decimal (t mod 10)%N.

Definition formatBytes_spec (n : N) : JsString.t :=
  if (n =? 0)%N then lit "0 " ++ [cyr_B]
  else scaled_numeral n (tier n) ++ [space] ++ nth (N.to_nat (tier n)) sizes [].

(** ** The raw percentage as the specification words it

    [min(99, round(loaded / total * 1000) / 10)], counted in tenths of a
    percent: the nearest integer to [1000 * loaded / total], ties upwards,
    and at most 990. *)
Definition exact_tenths (loaded total : N) : Z :=
  (2000 * Z.of_N loaded + Z.of_N total) / (2 * Z.of_N total).

Definition rawPercent_tenths (loaded total : N) : Z :=
  Z.min 990 (exact_tenths loaded total).

(** [1000 * loaded / total] lies exactly half way between two integers. *)
Definition tie (loaded total : N) : Prop :=
  (2000 * Z.of_N loaded + Z.of_N total) mod (2 * Z.of_N total) = 0.

(** 2^-42: more than the two roundings of [(loaded / total) * 1000] can add
    up to. *)
Definition product_slack : Q := 1 # 4398046511104.

(** While a request is in flight both percentages stay between 0 and 99. *)
Definition in_flight_range (s : UploadState) : Prop :=
  (0 <= displayedPercent s <= 99)%Q /\ (0 <= realPercent s <= 99)%Q.

(** The displayed percentage lags the raw one. *)
Definition lags (s : UploadState) : Prop :=
  (0 <= displayedPercent s)%Q
  /\ (displayedPercent s <= realPercent s)%Q
  /\ (realPercent s <= 100)%Q.

(** ** The upload chain as the specification words it *)

(** The transfer is accepted: a status in 200..299 and a response text that
    parses. *)
Definition accepted (ex : Exchange) : bool :=
  match outcome ex with
  | Load status parses => is_success status && parses
  | NetworkError => false
  end.

(** No request is answered with a success status and a response text that
    [JSON.parse] rejects. *)
Definition parseable_on_success (tr : Transport) : Prop :=
  forall v status, outcome (tr v) = Load status false -> is_success status = false.

(** The events of a job as the specification words them: the present files
    in the order image, video; the first one not accepted ends the job with
    [onError]; after the last accepted one the job ends with [onSuccess]. *)
Definition job_events (tr : Transport) (image video : option File) : list Event :=
  let second :=
    match video with
    | Some _ =>
        Dispatch true :: (if accepted (tr true) then [OnSuccess] else [OnError])
    | None => [OnSuccess]
    end in
  match image with
  | Some _ => Dispatch false :: (if accepted (tr false) then second else [OnError])
  | None => second
  end.

(** ** Sample inputs *)

Definition sample_image : File := mkFile (lit "a.png") 1000.
Definition sample_video : File := mkFile (lit "b.mp4") 5000.
Definition idle : World := mkWorld initial_uploadState [].

(** Every request sees one progress event and one animation frame and is
    then answered with the given status. *)
Definition failing_transport (status : Z) : Transport :=
  fun _ =>
    mkExchange 0
      [Progress (mkProgressEvent 500 1000 true 100); AnimationFrame]
      (Load status false).

(** The image request is answered with status 200 and a response text that
    does not parse; the video request with status 200 and one that does. *)
Definition garbled_image_transport : Transport :=
  fun isVideo =>
    mkExchange 0 [] (Load 200 (if isVideo then true else false)).


(** Progress to 50 and then 80 percent, with animation frames between. *)
Definition sample_events : list InFlight :=
  [ Progress (mkProgressEvent 500 1000 true 100); AnimationFrame;
    Progress (mkProgressEvent 800 1000 true 200); AnimationFrame;
    AnimationFrame ].

(** ** Repeated animation frames *)

(** [n] calls of [animateUploadProgress] with no progress event between
    them. *)
Definition frames (n : nat) (s : UploadState) : UploadState :=
  Nat.iter n (fun st => frame_state (animateUploadProgress st)) s.

(** The [isVideo] flags of the requests sent, in order. *)
Fixpoint sent_flags (l : list Event) : list bool :=
  match l with
  | [] => []
  | Dispatch v :: r => v :: sent_flags r
  | _ :: r => sent_flags r
  end.

(** The displayed byte count lags the raw one. *)
Definition lags_bytes (s : UploadState) : Prop :=
  (0 <= displayedLoaded s)%Q /\ (displayedLoaded s <= QofN (realLoaded s))%Q.

Definition rawBytes (s : UploadState) : Q := QofN (realLoaded s).

(** The state after the reset and one progress event at half of the total. *)
Definition half_way_state : UploadState :=
  fst (on_progress (mkProgressEvent 500 1000 true 100) (begin sample_image false 0)).

(** ** The events of a job, for every way the requests can end *)

(** What one request adds after it is sent, [next] being what its [cb]
    adds. *)
Definition exchange_trace (ex : Exchange) (next : list Event) : list Event :=
  match outcome ex with
  | Load status parses =>
      if is_success status then
        if parses then next else OnError :: next
      else [OnError]
  | NetworkError => [OnError]
  end.

Definition job_trace (tr : Transport) (image video : option File) : list Event :=
  let second :=
    match video with
    | Some _ => Dispatch true :: exchange_trace (tr true) [OnSuccess]
    | None => [OnSuccess]
    end in
  match image with
  | Some _ => Dispatch false :: exchange_trace (tr false) second
  | None => second
  end.

(** The file whose request is the last one of a job that sends both. *)
Definition last_file (image video : option File) : option File :=
  match video with
  | Some vid => Some vid
  | None => image
  end.

(** ** The session kept in localStorage (source lines 3-34) *)

Fixpoint jsstring_eqb (a b : JsString.t) : bool :=
  match a, b with
  | [], [] => true
  | x :: a', y :: b' => N.eqb x y && jsstring_eqb a' b'
  | _, _ => false
  end.

(** [localStorage], as [getItem] sees it. *)
Definition Storage := JsString.t -> option JsString.t.

Definition getItem (st : Storage) (key : JsString.t) : option JsString.t := st key.

Definition setItem (key value : JsString.t) (st : Storage) : Storage :=
  fun k => if jsstring_eqb key k then Some value else st k.

Definition TOKEN_KEY : JsString.t := lit "admin_token".
Definition USERNAME_KEY : JsString.t := lit "admin_username".

(** [x || ''] for a string or [null]. *)
Definition or_empty (o : option JsString.t) : JsString.t :=
  match o with
  | Some v => v
  | None => []
  end.

Definition getToken (st : Storage) : JsString.t := or_empty (getItem st TOKEN_KEY).
Definition setToken (t : JsString.t) (st : Storage) : Storage := setItem TOKEN_KEY t st.
Definition getUsername (st : Storage) : JsString.t := or_empty (getItem st USERNAME_KEY).
Definition setUsername (u : JsString.t) (st : Storage) : Storage :=
  setItem USERNAME_KEY u st.

(** [logout]: the two storage writes; the two DOM writes are not modelled. *)
Definition logout (st : Storage) : Storage := setUsername [] (setToken [] st).

Definition is_empty (s : JsString.t) : bool :=
  match s with
  | [] => true
  | _ => false
  end.

(** [headers(omitContentType)]: the header object, as its entries in
    insertion order. *)
Definition headers (omitContentType : bool) (st : Storage)
  : list (JsString.t * JsString.t) :=
  let h := if omitContentType then []
           else [(lit "Content-Type", lit "application/json")] in
  let t := getToken st in
  if is_empty t then h else h ++ [(lit "X-Admin-Token", t)].

(** ** api (source lines 41-67) *)

(** What [api] reads of the [Response] that [fetch] resolved with;
    [res.ok] is [is_success (res_status res)]. *)
Record Response := mkResponse {
  res_status : Z;
  res_redirected : bool;
  res_url : JsString.t;
  res_text : JsString.t
}.

Section Api.

(** JSON values, [JSON.parse] ([None] when it throws) and the reading of a
    truthy [error] member as a message ([None] when the member is missing or
    falsy, or the value has no members). *)
Variable Json : Type.
Variable JSON_parse : JsString.t -> option Json.
Variable JSON_error : Json -> option JsString.t.

Inductive ApiResult :=
| Redirected (url : JsString.t)
| Parsed (j : Json)
| Raw (text : JsString.t)
| Thrown (message : JsString.t).

(** The message of the [Error] thrown for a response that is not ok. *)
Definition error_message (text : JsString.t) : JsString.t :=
  match JSON_parse text with
  | Some j =>
      match JSON_error j with
      | Some m => m
      | None => text
      end
  | None => text
  end.

(** [api], from the resolved response on: the storage it leaves and what it
    returns or throws. *)
Definition api (st : Storage) (res : Response) : Storage * ApiResult :=
  if res_status res =? 403 then (logout st, Thrown (lit "Forbidden"))
  else if res_redirected res && negb (is_empty (res_url res))
  then (st, Redirected (res_url res))
  else if negb (is_success (res_status res))
  then (st, Thrown (error_message (res_text res)))
  else
    match JSON_parse (res_text res) with
    | Some j => (st, Parsed j)
    | None => (st, Raw (res_text res))
    end.

End Api.

Arguments Redirected {Json}.
Arguments Parsed {Json}.
Arguments Raw {Json}.
Arguments Thrown {Json}.

(** ** Escaping for markup *)

(** [s.replace(/c/g, by)] for a one-character pattern. *)
Fixpoint replace_all (c : code_unit) (by_ : JsString.t) (s : JsString.t)
  : JsString.t :=
  match s with
  | [] => []
  | x :: r => (if N.eqb x c then by_ else [x]) ++ replace_all c by_ r
  end.

Definition lt_sign : code_unit := 60%N.
Definition gt_sign : code_unit := 62%N.
Definition dquote : code_unit := 34%N.
Definition ampersand : code_unit := 38%N.

(** The order address in [loadOrders] and [loadCompletedOrders]
    (source lines 148 and 183). *)
Definition escape_address (address : JsString.t) : JsString.t :=
  replace_all gt_sign (lit "&gt;") (replace_all lt_sign (lit "&lt;") address).

(** The field value in [renderEnvField] (source line 795) and the two texts
    in [loadBotTexts] (source lines 836-837, the replacements in the other
    order). *)
Definition escape_env_value (value : JsString.t) : JsString.t :=
  replace_all lt_sign (lit "&lt;") (replace_all dquote (lit "&quot;") value).

Definition escape_bot_text (text : JsString.t) : JsString.t :=
  replace_all dquote (lit "&quot;") (replace_all lt_sign (lit "&lt;") text).

(** ** trim *)

(** WhiteSpace and LineTerminator of ECMAScript, all in the basic plane. *)
Definition is_whitespace (c : code_unit) : bool :=
  existsb (N.eqb c)
    [9; 10; 11; 12; 13; 32; 160; 5760; 8192; 8193; 8194; 8195; 8196; 8197;
     8198; 8199; 8200; 8201; 8202; 8232; 8233; 8239; 8287; 12288; 65279]%N.

Fixpoint trim_start (s : JsString.t) : JsString.t :=
  match s with
  | [] => []
  | x :: r => if is_whitespace x then trim_start r else s
  end.

Definition trim (s : JsString.t) : JsString.t :=
  rev (trim_start (rev (trim_start s))).

(** ** The environment settings form (source lines 791-954) *)

Definition bullet : code_unit := 8226%N.

(** [/^....../.test(val)] with four bullets. *)
Definition is_masked (val : JsString.t) : bool :=
  match val with
  | a :: b :: c :: d :: _ =>
      N.eqb a bullet && N.eqb b bullet && N.eqb c bullet && N.eqb d bullet
  | _ => false
  end.

(** [id.replace(/^env_/, '')]. *)
Definition strip_env_prefix (id : JsString.t) : JsString.t :=
  match id with
  | 101%N :: 110%N :: 118%N :: 95%N :: r => r
  | _ => id
  end.

(** The [id] that [renderEnvField] gives the input of a key. *)
Definition env_field_id (key : JsString.t) : JsString.t := lit "env_" ++ key.

Record Input := mkInput {
  input_id : JsString.t;
  input_value : JsString.t;
  input_is_password : bool
}.

(** A plain object with string values, as its own enumerable entries.  The
    order of the entries is the order of first assignment; the reordering of
    integer-like keys is not modelled. *)
Definition JsObject := list (JsString.t * JsString.t).

Fixpoint object_get (o : JsObject) (key : JsString.t) : option JsString.t :=
  match o with
  | [] => None
  | (k, v) :: r => if jsstring_eqb k key then Some v else object_get r key
  end.

Fixpoint object_put (key value : JsString.t) (o : JsObject) : JsObject :=
  match o with
  | [] => [(key, value)]
  | (k, v) :: r =>
      if jsstring_eqb k key then (k, value) :: r
      else (k, v) :: object_put key value r
  end.

(** [body[key] = val] for a string [val]: assigning a string to [__proto__]
    creates no entry. *)
Definition object_set (key value : JsString.t) (o : JsObject) : JsObject :=
  if jsstring_eqb key (lit "__proto__") then o else object_put key value o.

(** The loop of [saveEnvSettings] over the inputs of the form. *)
Definition env_body (inputs : list Input) : JsObject :=
  fold_left
    (fun body input =>
       let key := strip_env_prefix (input_id input) in
       let val := trim (input_value input) in
       if is_empty val then body
       else if is_masked val then body
       else object_set key val body)
    inputs [].

(** [saveEnvSettings]: the body of the PUT request, or [None] when the
    function gives the error notice and sends nothing. *)
Definition saveEnvSettings (inputs : list Input) : option JsObject :=
  match env_body inputs with
  | [] => None
  | body => Some body
  end.

(** [v.slice(-4)]. *)
Definition slice_last4 (v : JsString.t) : JsString.t :=
  skipn (List.length v - 4) v.

Definition mask_prefix : JsString.t := repeat bullet 8.

(** What a click on the visibility button of a field does (source lines
    876-912): the input it leaves, and the key whose raw value it asks the
    server for, if it does. *)
Definition toggle_visibility (input : Input) : Input * option JsString.t :=
  if input_is_password input then
    let key := strip_env_prefix (input_id input) in
    let curVal := trim (input_value input) in
    if is_masked curVal && negb (is_empty key) then (input, Some key)
    else (mkInput (input_id input) (input_value input) false, None)
  else
    let v := trim (input_value input) in
    let value' := if 4 <? len v then mask_prefix ++ slice_last4 v
                  else input_value input in
    (mkInput (input_id input) value' true, None).

(** ** The products view mode (source lines 324 and 402-404) *)

Definition VIEW_KEY : JsString.t := lit "productsViewMode".

(** [localStorage.getItem('productsViewMode') || 'table']. *)
Definition initial_view_mode (st : Storage) : JsString.t :=
  match getItem st VIEW_KEY with
  | Some (x :: r) => x :: r
  | _ => lit "table"
  end.

(** The first two statements of [toggleProductsView]. *)
Definition toggleProductsView (mode : JsString.t) (st : Storage)
  : JsString.t * Storage :=
  let mode' := if jsstring_eqb mode (lit "table") then lit "grid" else lit "table" in
  (mode', setItem VIEW_KEY mode' st).

(** Which view [loadProducts] renders: the grid for ['grid'], the table for
    anything else. *)
Definition renders_grid (mode : JsString.t) : bool := jsstring_eqb mode (lit "grid").

(** One turn of the loop of [saveEnvSettings]. *)
Definition env_step (body : JsObject) (input : Input) : JsObject :=
  let key := strip_env_prefix (input_id input) in
  let val := trim (input_value input) in
  if is_empty val then body
  else if is_masked val then body
  else object_set key val body.

(** What makes [saveEnvSettings] skip a field: nothing but white space, a
    masked value, or the one key that a plain object does not store. *)
Definition env_skipped (input : Input) : Prop :=
  trim (input_value input) = []
  \/ is_masked (trim (input_value input)) = true
  \/ strip_env_prefix (input_id input) = lit "__proto__".

(** A body entry comes from a field of the form. *)
Definition env_entry_of (inputs : list Input) (key val : JsString.t) : Prop :=
  val <> [] /\ is_masked val = false /\ trim val = val
  /\ exists input,
       In input inputs
       /\ strip_env_prefix (input_id input) = key
       /\ trim (input_value input) = val.

(** ** parseInt(s, 10) *)

Definition is_decimal_digit (c : code_unit) : bool := ((48 <=? c) && (c <=? 57))%N.

(** The longest prefix of decimal digits, read as a number; [None] (NaN)
    when there is no digit. *)
Fixpoint parse_digits (s : JsString.t) (acc : Z) (seen : bool) : option Z :=
  match s with
  | x :: r =>
      if is_decimal_digit x
      then parse_digits r (10 * acc + (Z.of_N x - 48)) true
      else if seen then Some acc else None
  | [] => if seen then Some acc else None
  end.

(** The integer [parseInt(s, 10)] reads: leading white space is skipped, one
    sign is read, and the digits that follow are the value; whatever comes
    after them is ignored.  [None] when no digit follows. *)
Definition parseInt_integer (s : JsString.t) : option Z :=
  match trim_start s with
  | 45%N :: r => option_map Z.opp (parse_digits r 0 false)
  | 43%N :: r => parse_digits r 0 false
  | r => parse_digits r 0 false
  end.

(** A Number where the code can meet one that is not finite. *)
Inductive Number :=
| Finite (x : Q)
| PosInfinity
| NegInfinity
| NaN.

(** The Number for the real [x]: the nearest double, or an infinity when
    that is 2^1024 or more in magnitude. *)
Definition to_Number (x : Q) : Number :=
  let y := fl x in
  if Qle_bool (2 ^ 1024) y then PosInfinity
  else if Qle_bool y (- 2 ^ 1024) then NegInfinity
  else Finite y.

(** [parseInt(s, 10)]: the integer read, as a Number, and [NaN] when there
    is none.  Every digit counts here; the language lets an engine read the
    digits after the twentieth significant one as zeros. *)
Definition parseInt (s : JsString.t) : Number :=
  match parseInt_integer s with
  | Some z => to_Number (inject_Z z)
  | None => NaN
  end.

(** [isNaN(v)] and [v < 0]. *)
Definition Number_isNaN (v : Number) : bool :=
  match v with
  | NaN => true
  | _ => false
  end.

Definition Number_negative (v : Number) : bool :=
  match v with
  | Finite x => negb (Qle_bool 0 x)
  | NegInfinity => true
  | _ => false
  end.

(** What [JSON.stringify] writes for a Number: the number, or [null]
    ([None]) for one that is not finite. *)
Definition JSON_number (v : Number) : option Q :=
  match v with
  | Finite x => Some x
  | _ => None
  end.

(** A Number that is neither [NaN] nor below zero. *)
Definition not_negative (v : Number) : Prop :=
  v = PosInfinity \/ exists x, v = Finite x /\ (0 <= x)%Q.

(** ** The form of saveProduct (source lines 647-673) *)

Record ProductForm := mkProductForm {
  form_id : JsString.t;
  form_title : JsString.t;
  form_description : JsString.t;
  form_price : JsString.t;
  form_category : JsString.t;
  form_stock : option JsString.t       (* [None]: no stock input in the page *)
}.

(** The object handed to [JSON.stringify]. *)
Record ProductBody := mkProductBody {
  body_title : JsString.t;
  body_description : JsString.t;
  body_price : Number;
  body_category : JsString.t;
  body_stock : Number
}.

Record ProductRequest := mkProductRequest {
  req_method : JsString.t;
  req_path : JsString.t;
  req_body : ProductBody
}.

(** The request [saveProduct] makes for a form, or [None] when it gives the
    notice to fill in title and price and returns. *)
Definition saveProduct_request (f : ProductForm) : option ProductRequest :=
  let title := trim (form_title f) in
  let description := trim (form_description f) in
  let price := parseInt (form_price f) in
  let stock := match form_stock f with
               | Some v => parseInt v
               | None => Finite 0
               end in
  let stock := if Number_isNaN stock || Number_negative stock then Finite 0
               else stock in
  if is_empty title || Number_isNaN price || Number_negative price then None
  else
    Some {| req_method := if is_empty (form_id f) then lit "POST" else lit "PUT";
            req_path := if is_empty (form_id f) then lit "/api/products"
                        else lit "/api/products/" ++ form_id f;
            req_body := {| body_title := title;
                           body_description := description;
                           body_price := price;
                           body_category := form_category f;
                           body_stock := stock |} |}.

(** A price field of 309 digits. *)
Definition huge_price_form : ProductForm :=
  mkProductForm [] (lit "Laptop") [] (repeat 57%N 309) (lit "work") None.

(** ** Number to string *)

(** The least [n] from [n] on with [x < 10^n]. *)
Fixpoint decimal_exponent_from (x : Q) (n : Z) (fuel : nat) : Z :=
  match fuel with
  | O => n
  | S fuel' =>
      if Qle_bool (10 ^ n) x then decimal_exponent_from x (n + 1) fuel' else n
  end.

(** The decimal exponent of [x], for [0 < x]: the [n] with
    [10^(n-1) <= x < 10^n]. *)
Definition decimal_exponent (x : Q) : Z :=
  let low := - (Z.log2 (Z.pos (Qden x)) + 1) in
  let high := Z.log2 (Qnum x) + 1 in
  decimal_exponent_from x low (Z.to_nat (high - low)).

(** The shortest decimal that reads back as the double [x], for [0 < x];
    [(s, p)] stands for [s * 10^p].  With [k] digits the candidates are the
    two multiples of [10^(n-k)] around [x]; the nearer one is taken when both
    read back as [x].  Seventeen digits always suffice. *)
Fixpoint shortest_from (x : Q) (n k : Z) (fuel : nat) : Z * Z :=
  let p := n - k in
  let lo := Qfloor (x / 10 ^ p) in
  let reads_back s := Qeq_bool (fl (inject_Z s * 10 ^ p)) x in
  match fuel with
  | O => (lo, p)
  | S fuel' =>
      match reads_back lo, reads_back (lo + 1) with
      | true, true => (round_half_even (x / 10 ^ p), p)
      | true, false => (lo, p)
      | false, true => (lo + 1, p)
      | false, false => shortest_from x n (k + 1) fuel'
      end
  end.

(** Final zeros of [s] move to the exponent. *)
Fixpoint strip_final_zeros (s p : Z) (fuel : nat) : Z * Z :=
  match fuel with
  | O => (s, p)
  | S fuel' =>
      if (s mod 10 =? 0) && negb (s =? 0)
      then strip_final_zeros (s / 10) (p + 1) fuel'
      else (s, p)
  end.

Definition shortest_digits (x : Q) : Z * Z :=
  let '(s, p) := shortest_from x (decimal_exponent x) 1 17 in
  strip_final_zeros s p 17.

(** [Number::toString(x)] in radix 10 for [0 < x], from the digits [s] and
    the exponent [p]; [n] is the decimal exponent of the number written.  A
    whole number below 10^21 is written as its numeral (the digits of [s]
    followed by [p] zeros); a number with a fraction as digits around a
    point; anything from 10^21 on or below 10^-6 with an exponent. *)
Definition positive_toString (x : Q) : JsString.t :=
  let '(s, p) := shortest_digits x in
  let n := decimal_exponent (inject_Z s * 10 ^ p) in
  let ds := decimal (Z.to_N s) in
  if (0 <=? p) && (n <=? 21) then decimal (Z.to_N (s * 10 ^ p))
  else if (0 <? n) && (n <=? 21)
  then firstn (Z.to_nat n) ds ++ lit "." ++ skipn (Z.to_nat n) ds
  else if (-6 <? n) && (n <=? 0)
  then lit "0." ++ repeat 48%N (Z.to_nat (- n)) ++ ds
  else
    firstn 1 ds ++ (match skipn 1 ds with [] => [] | r => lit "." ++ r end)
    ++ lit "e" ++ (if 0 <=? n - 1 then lit "+" else lit "-")
    ++ decimal (Z.to_N (Z.abs (n - 1))).

(** [String(v)] for a Number. *)
Definition Number_toString (v : Number) : JsString.t :=
  match v with
  | NaN => lit "NaN"
  | PosInfinity => lit "Infinity"
  | NegInfinity => lit "-Infinity"
  | Finite x =>
      if Qeq_bool x 0 then lit "0"
      else (if Qle_bool 0 x then [] else lit "-") ++ positive_toString (Qabs x)
  end.

(** ** The form as openProductModal fills it (source lines 424-446) *)

(** A product as the API returns it: the texts (a missing one as the empty
    string) and, for the price and the stock, a Number, or [None] for
    [null] or a missing member. *)
Record Product := mkProduct {
  product_title : JsString.t;
  product_description : JsString.t;
  product_price : option Number;
  product_category : JsString.t;
  product_stock : option Number
}.

(** [v || '']: a Number that is 0 or [NaN] is falsy. *)
Definition Number_falsy (v : Number) : bool :=
  match v with
  | Finite x => Qeq_bool x 0
  | NaN => true
  | _ => false
  end.

(** The elements of the product form. *)
Inductive Field :=
| IdField
| TitleField
| DescriptionField
| PriceField
| CategoryField
| StockField.

Section ProductModal.

(** What an element holds after [el.value = v].  The markup is not part of
    the script, and an element may rewrite what it is assigned: a select
    without an option of that value holds the empty string, a single-line
    input drops line breaks, a number input holds the empty string for
    anything that is not a number. *)
Variable assigned : Field -> JsString.t -> JsString.t.

(** The page has an element for the stock. *)
Variable stock_present : bool.

(** The form after [openProductModal(id)]: blank for a new product, and for
    an existing one the fields of the product the API answered with. *)
Definition openProductModal (id : JsString.t) (p : Product) : ProductForm :=
  if is_empty id then
    {| form_id := assigned IdField [];
       form_title := assigned TitleField [];
       form_description := assigned DescriptionField [];
       form_price := assigned PriceField [];
       form_category := assigned CategoryField (lit "work");
       form_stock := if stock_present then Some (assigned StockField (lit "0"))
                     else None |}
  else
    {| form_id := assigned IdField id;
       form_title := assigned TitleField (product_title p);
       form_description := assigned DescriptionField (product_description p);
       form_price :=
         assigned PriceField
           match product_price p with
           | Some v => if Number_falsy v then [] else Number_toString v
           | None => []
           end;
       form_category :=
         assigned CategoryField
           match product_category p with
           | [] => lit "work"
           | c => c
           end;
       form_stock :=
         if stock_present
         then Some (assigned StockField
                      match product_stock p with
                      | Some v => Number_toString v
                      | None => lit "0"
                      end)
         else None |}.

End ProductModal.

(** Elements that hold what they are assigned. *)
Definition plain_fields : Field -> JsString.t -> JsString.t := fun _ v => v.

(** A product with the given price and no stock. *)
Definition sample_product (price : Q) : Product :=
  mkProduct (lit "Laptop") [] (Some (Finite price)) (lit "work") None.

(** ** The status select of an order row (source lines 140 and 156,
    266-283) *)

(** The values of the four options [loadOrders] renders. *)
Definition status_options : list JsString.t :=
  [lit "new"; lit "awaiting_payment"; lit "receipt_received"; lit "paid"].

Definition is_option (v : JsString.t) : bool :=
  existsb (jsstring_eqb v) status_options.

(** The select of one row: the value it shows, which is the value of the
    selected option and [''] when no option is selected, and its [data-prev]
    attribute. *)
Record StatusSelect := mkStatusSelect {
  sel_value : JsString.t;
  sel_prev : JsString.t
}.

(** The select as [loadOrders] renders it for an order status: the option
    with that value carries [selected]; when there is none, the browser
    shows the first option.  [data-prev] is the status itself. *)
Definition render_select (status : JsString.t) : StatusSelect :=
  mkStatusSelect (if is_option status then status else lit "new") status.

(** [sel.value = v]: the option with that value is selected; when there is
    none, no option is selected. *)
Definition set_value (v : JsString.t) (sel : StatusSelect) : StatusSelect :=
  mkStatusSelect (if is_option v then v else []) (sel_prev sel).

Definition needConfirm (status : JsString.t) : bool :=
  jsstring_eqb status (lit "paid") || jsstring_eqb status (lit "shipped").

(** The user picks an option: the browser sets the value and fires
    [change]. *)
Definition pick (status : JsString.t) (sel : StatusSelect) : StatusSelect :=
  mkStatusSelect status (sel_prev sel).

(** The [change] listener: the select it leaves and the status it sends in a
    PATCH, if it sends one.  [confirmed] is the answer to [confirm], which is
    asked only when [needConfirm] holds. *)
Definition on_status_change (confirmed : bool) (sel : StatusSelect)
  : StatusSelect * option JsString.t :=
  let status := sel_value sel in
  if needConfirm status && negb confirmed then
    (set_value (match sel_prev sel with [] => sel_value sel | prev => prev end) sel,
     None)
  else (mkStatusSelect status status, Some status).

(** A run of picks, each with the answer the user would give, and the
    statuses sent, in order. *)
Fixpoint status_changes (picks : list (JsString.t * bool)) (sel : StatusSelect)
  : StatusSelect * list JsString.t :=
  match picks with
  | [] => (sel, [])
  | (status, confirmed) :: r =>
      let '(sel', sent) := on_status_change confirmed (pick status sel) in
      let '(sel'', more) := status_changes r sel' in
      (sel'', match sent with Some s => s :: more | None => more end)
  end.

(** What the select shows after a change, given the [data-prev] it then
    has. *)
Definition shown_after_change (prev : JsString.t) : JsString.t :=
  if is_option prev then prev
  else if is_empty prev then lit "paid"
  else [].

(** * Properties *)

Example formatBytes_0 : formatBytes 0 = [48; 32; 1041]%N.
Proof. reflexivity. Qed.

Example formatBytes_1536 : formatBytes 1536 = lit "1.5 " ++ [cyr_K; cyr_B].
Proof. vm_compute. reflexivity. Qed.

Example formatBytes_MB : formatBytes (1024 * 1024) = lit "1 " ++ [cyr_M; cyr_B].
Proof. vm_compute. reflexivity. Qed.

Example formatBytes_1023 : formatBytes 1023 = lit "1023 " ++ [cyr_B].
Proof. vm_compute. reflexivity. Qed.

Example formatBytes_big : formatBytes (1024 ^ 4) = lit "1 undefined".
Proof. vm_compute. reflexivity. Qed.

Example shortFileName_png :
  shortFileName (repeat 97%N 60 ++ lit ".png") (Some 42%N)
  = repeat 97%N 37 ++ [ellipsis] ++ lit ".png".
Proof. vm_compute. reflexivity. Qed.

Example shortFileName_small :
  shortFileName (lit "abcdefg.png") (Some 10%N) = lit "abcdefg" ++ [ellipsis].
Proof. vm_compute. reflexivity. Qed.

(** ** Rounding to a double *)

Lemma Qfloor_bounds (x : Q) :
  (inject_Z (Qfloor x) <= x)%Q /\ (x < inject_Z (Qfloor x) + 1)%Q.
Proof.
  split; [ apply Qfloor_le | ].
  pose proof (Qlt_floor x) as H. rewrite inject_Z_plus in H.
  change (inject_Z 1) with 1%Q in H. exact H.
Qed.

Lemma round_half_even_cases (x : Q) :
  round_half_even x = Qfloor x \/ round_half_even x = Qfloor x + 1.
Proof.
  unfold round_half_even.
  destruct (x - inject_Z (Qfloor x) ?= 1 # 2)%Q; auto.
  destruct (Z.even (Qfloor x)); auto.
Qed.

Lemma round_half_even_error (x : Q) :
  (x - (1 # 2) <= inject_Z (round_half_even x) <= x + (1 # 2))%Q.
Proof.
  destruct (Qfloor_bounds x) as [Hlo Hhi].
  unfold round_half_even.
  destruct (x - inject_Z (Qfloor x) ?= 1 # 2)%Q eqn:E.
  - apply Qeq_alt in E.
    destruct (Z.even (Qfloor x)); [ | rewrite inject_Z_plus; change (inject_Z 1) with 1%Q ];
      split; lra.
  - apply Qlt_alt in E. split; lra.
  - apply Qgt_alt in E. rewrite inject_Z_plus. change (inject_Z 1) with 1%Q. split; lra.
Qed.

Lemma round_half_even_ge (x : Q) (z : Z) :
  (inject_Z z <= x)%Q -> z <= round_half_even x.
Proof.
  intros H. assert (Hf : z <= Qfloor x).
  { rewrite <- (Qfloor_Z z). apply Qfloor_resp_le. exact H. }
  destruct (round_half_even_cases x) as [ -> | -> ]; lia.
Qed.

Lemma round_half_even_integer (x : Q) (z : Z) :
  (x == inject_Z z)%Q -> round_half_even x = z.
Proof.
  intros H. unfold round_half_even.
  assert (Hf : Qfloor x = z) by (rewrite H; apply Qfloor_Z).
  rewrite Hf.
  assert (E : (x - inject_Z z ?= 1 # 2)%Q = Lt).
  { rewrite <- Qlt_alt. lra. }
  rewrite E. reflexivity.
Qed.

Lemma round_half_even_comp (x y : Q) :
  (x == y)%Q -> round_half_even x = round_half_even y.
Proof.
  intros H. unfold round_half_even.
  assert (Hf : Qfloor x = Qfloor y) by (rewrite H; reflexivity).
  rewrite Hf.
  assert (Hc : (x - inject_Z (Qfloor y) ?= 1 # 2)%Q
               = (y - inject_Z (Qfloor y) ?= 1 # 2)%Q) by (rewrite H; reflexivity).
  rewrite Hc. reflexivity.
Qed.

Lemma pow2_pos (e : Z) : (0 < 2 ^ e)%Q.
Proof. apply Qpower_0_lt. reflexivity. Qed.

Lemma pow2_succ (e : Z) : (2 ^ (e + 1) == 2 * 2 ^ e)%Q.
Proof.
  rewrite Qpower_plus by (intro H; discriminate H).
  rewrite Qpower_1_r. ring.
Qed.

Lemma pow2_pred (e : Z) : (2 ^ (e - 1) == 2 ^ e / 2)%Q.
Proof.
  rewrite Qpower_minus by (intro H; discriminate H).
  rewrite Qpower_1_r. reflexivity.
Qed.

Lemma pow2_of_Z (n : Z) : 0 <= n -> (inject_Z (2 ^ n) == 2 ^ n)%Q.
Proof. intros H. rewrite (Zpower_Qpower 2 n H). reflexivity. Qed.

(** [binade x] is the integer part of the binary logarithm of [x]. *)
Lemma binade_spec (x : Q) :
  (0 < x)%Q -> (2 ^ binade x <= x)%Q /\ (x < 2 ^ (binade x + 1))%Q.
Proof.
  intros Hx. destruct x as [n d]. 
  assert (Hn : 0 < n) by (unfold Qlt in Hx; simpl in Hx; lia).
  unfold binade. cbn [Qnum Qden].
  set (ln := Z.log2 n). set (ld := Z.log2 (Z.pos d)).
  assert (Hln : 2 ^ ln <= n < 2 ^ (ln + 1)).
  { pose proof (Z.log2_spec n Hn) as H. unfold ln. 
    replace (ln + 1) with (Z.succ (Z.log2 n)) by (unfold ln; lia). exact H. }
  assert (Hld : 2 ^ ld <= Z.pos d < 2 ^ (ld + 1)).
  { pose proof (Z.log2_spec (Z.pos d) (Pos2Z.is_pos d)) as H. unfold ld.
    replace (Z.log2 (Z.pos d) + 1) with (Z.succ (Z.log2 (Z.pos d))) by lia. exact H. }
  assert (Hln0 : 0 <= ln) by apply Z.log2_nonneg.
  assert (Hld0 : 0 <= ld) by apply Z.log2_nonneg.
  assert (Hq : (n # d == inject_Z n / inject_Z (Z.pos d))%Q) by apply Qmake_Qdiv.
  assert (Hdpos : (0 < inject_Z (Z.pos d))%Q).
  { change 0%Q with (inject_Z 0). rewrite <- Zlt_Qlt. lia. }
  assert (Hnlo : (2 ^ ln <= inject_Z n)%Q).
  { rewrite <- pow2_of_Z by exact Hln0. rewrite <- Zle_Qle. lia. }
  assert (Hnhi : (inject_Z n < 2 * 2 ^ ln)%Q).
  { rewrite <- pow2_succ. rewrite <- pow2_of_Z by lia. rewrite <- Zlt_Qlt. lia. }
  assert (Hdlo : (2 ^ ld <= inject_Z (Z.pos d))%Q).
  { rewrite <- pow2_of_Z by exact Hld0. rewrite <- Zle_Qle. lia. }
  assert (Hdhi : (inject_Z (Z.pos d) < 2 * 2 ^ ld)%Q).
  { rewrite <- pow2_succ. rewrite <- pow2_of_Z by lia. rewrite <- Zlt_Qlt. lia. }
  assert (Hk : (2 ^ (ln - ld) == 2 ^ ln / 2 ^ ld)%Q).
  { apply Qpower_minus. intro H; discriminate H. }
  pose proof (pow2_pos ln) as Pn. pose proof (pow2_pos ld) as Pd.
  (* x < 2^(k+1) and 2^(k-1) < x *)
  assert (Hup : (n # d < 2 * 2 ^ (ln - ld))%Q).
  { rewrite Hq, Hk. apply Qlt_shift_div_r; [ exact Hdpos | ].
    setoid_replace (2 * (2 ^ ln / 2 ^ ld) * inject_Z (Z.pos d))%Q
      with (2 * 2 ^ ln * (inject_Z (Z.pos d) / 2 ^ ld))%Q by (field; lra).
    assert (H1 : (1 <= inject_Z (Z.pos d) / 2 ^ ld)%Q).
    { apply Qle_shift_div_l; [ exact Pd | lra ]. }
    nra. }
  assert (Hdown : (2 ^ (ln - ld) / 2 < n # d)%Q).
  { rewrite Hq, Hk. apply Qlt_shift_div_l; [ exact Hdpos | ].
    setoid_replace (2 ^ ln / 2 ^ ld / 2 * inject_Z (Z.pos d))%Q
      with (2 ^ ln * (inject_Z (Z.pos d) / (2 * 2 ^ ld)))%Q by (field; lra).
    assert (H1 : (inject_Z (Z.pos d) / (2 * 2 ^ ld) < 1)%Q).
    { apply Qlt_shift_div_r; lra. }
    assert (H2 : (0 < inject_Z (Z.pos d) / (2 * 2 ^ ld))%Q).
    { apply Qlt_shift_div_l; lra. }
    nra. }
  destruct (Qle_bool (2 ^ (ln - ld)) (n # d)) eqn:E.
  - apply Qle_bool_iff in E. split; [ exact E | ]. rewrite pow2_succ. exact Hup.
  - assert (E' : (n # d < 2 ^ (ln - ld))%Q).
    { apply Qnot_le_lt. intro H. apply Qle_bool_iff in H. congruence. }
    split.
    + rewrite pow2_pred. lra.
    + replace (ln - ld - 1 + 1) with (ln - ld) by lia. exact E'.
Qed.

Lemma binade_unique (x : Q) (b : Z) :
  (2 ^ b <= x)%Q -> (x < 2 ^ (b + 1))%Q -> binade x = b.
Proof.
  intros Hlo Hhi.
  assert (Hx : (0 < x)%Q) by (pose proof (pow2_pos b); lra).
  destruct (binade_spec x Hx) as [Blo Bhi].
  assert (H1 : (2 ^ b < 2 ^ (binade x + 1))%Q) by lra.
  assert (H2 : (2 ^ binade x < 2 ^ (b + 1))%Q) by lra.
  apply Qpower_lt_compat_l_inv in H1; [ | reflexivity ].
  apply Qpower_lt_compat_l_inv in H2; [ | reflexivity ].
  lia.
Qed.

Lemma binade_ge (x : Q) (b : Z) : (2 ^ b <= x)%Q -> b <= binade x.
Proof.
  intros Hlo.
  assert (Hx : (0 < x)%Q) by (pose proof (pow2_pos b); lra).
  destruct (binade_spec x Hx) as [Blo Bhi].
  assert (H1 : (2 ^ b < 2 ^ (binade x + 1))%Q) by lra.
  apply Qpower_lt_compat_l_inv in H1; [ | reflexivity ]. lia.
Qed.

Lemma binade_lt (x : Q) (b : Z) : (0 < x)%Q -> (x < 2 ^ b)%Q -> binade x < b.
Proof.
  intros Hx Hhi.
  destruct (binade_spec x Hx) as [Blo Bhi].
  assert (H1 : (2 ^ binade x < 2 ^ b)%Q) by lra.
  apply Qpower_lt_compat_l_inv in H1; [ | reflexivity ]. lia.
Qed.

Lemma fl_value (x : Q) :
  (fl x == inject_Z (Z.sgn (Qnum x))
           * inject_Z (round_half_even
                         (Qabs x / 2 ^ Z.max (binade (Qabs x) - 52) (-1074)))
           * 2 ^ Z.max (binade (Qabs x) - 52) (-1074))%Q.
Proof.
  unfold fl. rewrite Qred_correct, inject_Z_mult. reflexivity.
Qed.

Lemma sgn_num_pos (x : Q) : (0 < x)%Q -> Z.sgn (Qnum x) = 1.
Proof.
  intros H. unfold Qlt in H. simpl in H. 
  apply Z.sgn_pos. lia.
Qed.

Lemma fl_pos_value (x : Q) :
  (0 < x)%Q ->
  (fl x == inject_Z (round_half_even (x / 2 ^ Z.max (binade x - 52) (-1074)))
           * 2 ^ Z.max (binade x - 52) (-1074))%Q.
Proof.
  intros Hx. rewrite fl_value, (sgn_num_pos x Hx).
  assert (Ha : (Qabs x == x)%Q) by (apply Qabs_pos; lra).
  assert (Hb : binade (Qabs x) = binade x).
  { destruct (binade_spec x Hx) as [Blo Bhi].
    apply binade_unique; rewrite Ha; assumption. }
  rewrite Hb.
  rewrite (round_half_even_comp (Qabs x / 2 ^ Z.max (binade x - 52) (-1074))
             (x / 2 ^ Z.max (binade x - 52) (-1074))) by (rewrite Ha; reflexivity).
  change (inject_Z 1) with 1%Q. ring.
Qed.

Lemma fl_nonneg (x : Q) : (0 <= x)%Q -> (0 <= fl x)%Q.
Proof.
  intros Hx. rewrite fl_value.
  set (e := Z.max _ _).
  pose proof (pow2_pos e) as Pe.
  assert (Hs : (0 <= inject_Z (Z.sgn (Qnum x)))%Q).
  { change 0%Q with (inject_Z 0). rewrite <- Zle_Qle.
    unfold Qle in Hx. simpl in Hx. apply Z.sgn_nonneg. lia. }
  assert (Hm : (0 <= inject_Z (round_half_even (Qabs x / 2 ^ e)))%Q).
  { change 0%Q with (inject_Z 0). rewrite <- Zle_Qle.
    apply round_half_even_ge. change (inject_Z 0) with 0%Q.
    apply Qle_shift_div_l; [ exact Pe | ]. pose proof (Qabs_nonneg x). lra. }
  apply Qmult_le_0_compat; [ apply Qmult_le_0_compat; assumption | lra ].
Qed.


(** The relative error of rounding is at most 2^-53 in the normal range. *)
Lemma fl_error (x : Q) :
  (2 ^ (-1022) <= x)%Q ->
  (x - x * unit_roundoff <= fl x <= x + x * unit_roundoff)%Q.
Proof.
  intros Hn.
  assert (Hx : (0 < x)%Q) by (pose proof (pow2_pos (-1022)); lra).
  rewrite (fl_pos_value x Hx).
  pose proof (binade_ge x (-1022) Hn) as Hb.
  rewrite Z.max_l by lia.
  set (e := binade x - 52).
  destruct (binade_spec x Hx) as [Blo _].
  pose proof (pow2_pos e) as Pe.
  assert (He : (2 ^ binade x == 2 ^ 52 * 2 ^ e)%Q).
  { replace (binade x) with (52 + e) at 1 by (unfold e; lia).
    apply Qpower_plus. intro H; discriminate H. }
  pose proof (round_half_even_error (x / 2 ^ e)) as [Rlo Rhi].
  set (m := inject_Z (round_half_even (x / 2 ^ e))) in *.
  assert (Hylo : (2 ^ 52 <= x / 2 ^ e)%Q).
  { apply Qle_shift_div_l; [ exact Pe | ]. rewrite <- He. exact Blo. }
  assert (Hy : (x == x / 2 ^ e * 2 ^ e)%Q) by (field; lra).
  revert Rlo Rhi Hylo Hy. generalize (x / 2 ^ e)%Q. intros y Rlo Rhi Hylo Hy.
  revert Pe Hy. generalize (2 ^ e)%Q. intros p Pe Hy.
  unfold unit_roundoff.
  change (2 ^ 52)%Q with 4503599627370496%Q in Hylo.
  assert (H1 : (0 <= (m - y + (1 # 2)) * p)%Q) by (apply Qmult_le_0_compat; lra).
  assert (H2 : (0 <= (y + (1 # 2) - m) * p)%Q) by (apply Qmult_le_0_compat; lra).
  assert (H3 : (0 <= (y - 4503599627370496) * p)%Q) by (apply Qmult_le_0_compat; lra).
  rewrite Hy. clear Hy.
  setoid_replace ((m - y + (1 # 2)) * p)%Q with (m * p - y * p + (1 # 2) * p)%Q in H1 by ring.
  setoid_replace ((y + (1 # 2) - m) * p)%Q with (y * p + (1 # 2) * p - m * p)%Q in H2 by ring.
  setoid_replace ((y - 4503599627370496) * p)%Q with (y * p - 4503599627370496 * p)%Q in H3 by ring.
  revert H1 H2 H3. generalize (m * p)%Q (y * p)%Q. intros mp yp H1 H2 H3.
  clear - H1 H2 H3. split; lra.
Qed.

Lemma sgn_num_comp (x y : Q) : (x == y)%Q -> Z.sgn (Qnum x) = Z.sgn (Qnum y).
Proof.
  unfold Qeq. destruct x as [a b], y as [c d]. cbn [Qnum Qden]. intros H.
  destruct a, c; cbn in *; try reflexivity; try discriminate H; lia.
Qed.

Lemma fl_zero (x : Q) : (x == 0)%Q -> fl x = 0%Q.
Proof.
  intros H. unfold fl.
  rewrite (sgn_num_comp x 0 H). cbn [Qnum Z.sgn Z.mul inject_Z].
  change 0%Q with (Qred 0). apply Qred_complete. ring.
Qed.

Lemma fl_comp (x y : Q) : (x == y)%Q -> fl x = fl y.
Proof.
  intros H.
  destruct (Qeq_dec x 0) as [ Hz | Hnz ].
  - rewrite (fl_zero x Hz), (fl_zero y); [ reflexivity | rewrite <- H; exact Hz ].
  - assert (Ha : (Qabs x == Qabs y)%Q) by (rewrite H; reflexivity).
    assert (Hpos : (0 < Qabs x)%Q).
    { pose proof (Qabs_nonneg x) as Hn.
      destruct (Qle_lt_or_eq _ _ Hn) as [ Hlt | Heq ]; [ exact Hlt | ].
      exfalso. apply Hnz. 
      pose proof (Qabs_Qle_condition x 0) as [Hc _].
      destruct Hc as [H1 H2]; [ rewrite <- Heq; apply Qle_refl | lra ]. }
    assert (Hb : binade (Qabs x) = binade (Qabs y)).
    { destruct (binade_spec (Qabs x) Hpos) as [Blo Bhi]. symmetry.
      apply binade_unique; rewrite <- Ha; assumption. }
    unfold fl. apply Qred_complete.
    rewrite <- Hb, (sgn_num_comp x y H).
    rewrite (round_half_even_comp
               (Qabs y / 2 ^ Z.max (binade (Qabs x) - 52) (-1074))
               (Qabs x / 2 ^ Z.max (binade (Qabs x) - 52) (-1074)))
      by (unfold Qdiv; apply Qmult_comp; [ symmetry; exact Ha | reflexivity ]).
    reflexivity.
Qed.

Lemma Qred_inject_Z (z : Z) : Qred (inject_Z z) = inject_Z z.
Proof.
  unfold Qred, inject_Z.
  pose proof (Z.ggcd_correct_divisors z 1) as H.
  pose proof (Z.ggcd_gcd z 1) as Hg.
  destruct (Z.ggcd z 1) as [g [a b]]. cbn [fst snd] in *.
  rewrite Z.gcd_1_r in Hg. destruct H as [Ha Hb].
  assert (Ea : a = z) by lia. assert (Eb : b = 1) by lia.
  rewrite Ea, Eb. reflexivity.
Qed.

(** A double that is a whole number: rounding leaves every integer up to
    2^53 in magnitude as it is. *)
Lemma fl_integer (z : Z) :
  Z.abs z <= 2 ^ 53 -> fl (inject_Z z) = inject_Z z.
Proof.
  intros Hz.
  destruct (Z.eq_dec z 0) as [ -> | Hnz ]; [ reflexivity | ].
  transitivity (Qred (inject_Z z)); [ | apply Qred_inject_Z ].
  unfold fl. apply Qred_complete.
  cbn [Qnum inject_Z].
  change (Qabs (inject_Z z)) with (inject_Z (Z.abs z)).
  set (a := Z.abs z) in *.
  assert (Ha : 1 <= a) by (unfold a; lia).
  assert (Hlo : (2 ^ 0 <= inject_Z a)%Q).
  { change (2 ^ 0)%Q with (inject_Z 1). rewrite <- Zle_Qle. exact Ha. }
  pose proof (binade_ge _ _ Hlo) as Hb0.
  destruct (Z.eq_dec a (2 ^ 53)) as [ E | NE ].
  - rewrite E.
    assert (Hb : Z.max (binade (inject_Z (2 ^ 53)) - 52) (-1074) = 1)
      by (vm_compute; reflexivity).
    rewrite Hb.
    assert (Hr : round_half_even (inject_Z (2 ^ 53) / 2 ^ 1) = 2 ^ 52)
      by (vm_compute; reflexivity).
    rewrite Hr, inject_Z_mult.
    assert (Hs : (inject_Z z == inject_Z (Z.sgn z) * inject_Z (2 ^ 53))%Q).
    { rewrite <- inject_Z_mult. apply inject_Z_injective. unfold a in E. lia. }
    rewrite Hs.
    change (inject_Z (2 ^ 52)) with 4503599627370496%Q.
    change (inject_Z (2 ^ 53)) with 9007199254740992%Q.
    change (2 ^ 1)%Q with 2%Q. ring.
  - assert (Hhi : (inject_Z a < 2 ^ 53)%Q).
    { change (2 ^ 53)%Q with (inject_Z (2 ^ 53)). rewrite <- Zlt_Qlt. lia. }
    assert (Hpos : (0 < inject_Z a)%Q).
    { change 0%Q with (inject_Z 0). rewrite <- Zlt_Qlt. lia. }
    pose proof (binade_lt _ _ Hpos Hhi) as Hb1.
    rewrite Z.max_l by lia.
    set (e := binade (inject_Z a) - 52).
    assert (He : (2 ^ e == / inject_Z (2 ^ (- e)))%Q).
    { rewrite (Zpower_Qpower 2 (- e)) by (unfold e; lia).
      rewrite Qpower_opp. rewrite Qinv_involutive. reflexivity. }
    pose proof (pow2_pos e) as Pe.
    rewrite (round_half_even_integer _ (a * 2 ^ (- e))).
    + rewrite !inject_Z_mult.
      assert (Hp : (0 < inject_Z (2 ^ (- e)))%Q).
      { change 0%Q with (inject_Z 0). rewrite <- Zlt_Qlt.
        apply Z.pow_pos_nonneg; [ reflexivity | unfold e; lia ]. }
      assert (Hsa : (inject_Z z == inject_Z (Z.sgn z) * inject_Z a)%Q).
      { rewrite <- inject_Z_mult. apply inject_Z_injective. unfold a. lia. }
      rewrite Hsa. revert He. generalize (2 ^ e)%Q. intros q He.
      rewrite He. field. lra.
    + rewrite inject_Z_mult. revert He. generalize (2 ^ e)%Q. intros q He.
      rewrite He. unfold Qdiv. rewrite Qinv_involutive. reflexivity.
Qed.

Lemma pow2_le_small (e : Z) (x : Q) :
  -1022 <= e -> (2 ^ e <= x)%Q -> (2 ^ (-1022) <= x)%Q.
Proof.
  intros He Hx. apply Qle_trans with (2 ^ e)%Q; [ | exact Hx ].
  apply Qpower_le_compat_l; [ exact He | discriminate ].
Qed.

(** ** Rounding *)

Lemma Math_round_frac (q : Q) (a b : Z) :
  0 < b -> (q == inject_Z a / inject_Z b)%Q ->
  Math_round q = (2 * a + b) / (2 * b).
Proof.
  intros Hb Hq. unfold Math_round.
  rewrite Zdiv_Qdiv. apply Qfloor_comp.
  rewrite Hq, !inject_Z_plus, !inject_Z_mult.
  assert (Hnz : ~ (inject_Z b == 0)%Q).
  { intro H. unfold Qeq in H. simpl in H. lia. }
  field. exact Hnz.
Qed.

Lemma Math_round_nonneg (q : Q) : (0 <= q)%Q -> 0 <= Math_round q.
Proof.
  intros Hq. unfold Math_round.
  change 0 with (Qfloor 0). apply Qfloor_resp_le. lra.
Qed.

(** ** formatBytes *)

Lemma pow1024 (i : N) : (1024 ^ i = 2 ^ (10 * i))%N.
Proof. rewrite N.pow_mul_r. reflexivity. Qed.

Lemma unit_index_spec (n : N) :
  (0 < n)%N ->
  (1024 ^ unit_index n <= n /\ n < 1024 ^ (unit_index n + 1))%N.
Proof.
  intros Hn. unfold unit_index.
  destruct (N.log2_spec n Hn) as [Hlo Hhi].
  set (L := N.log2 n) in *.
  assert (H1 : (10 * (L / 10) <= L)%N) by (apply N.Div0.mul_div_le).
  assert (H2 : (L < 10 * (L / 10 + 1))%N).
  { rewrite N.add_1_r. apply N.mul_succ_div_gt. discriminate. }
  rewrite !pow1024. split.
  - etransitivity; [ | exact Hlo ].
    apply N.pow_le_mono_r; [ discriminate | exact H1 ].
  - eapply N.lt_le_trans; [ exact Hhi | ].
    apply N.pow_le_mono_r; [ discriminate | lia ].
Qed.

Lemma tier_window_unique (n i j : N) :
  (1024 ^ i <= n < 1024 ^ (i + 1))%N ->
  (1024 ^ j <= n < 1024 ^ (j + 1))%N ->
  i = j.
Proof.
  assert (Hmono : forall a b : N, (a + 1 <= b)%N -> (1024 ^ (a + 1) <= 1024 ^ b)%N).
  { intros a b Hab. apply N.pow_le_mono_r; [ discriminate | exact Hab ]. }
  intros [Hi1 Hi2] [Hj1 Hj2].
  destruct (N.lt_trichotomy i j) as [Hlt | [Heq | Hgt]]; [ | exact Heq | ].
  - specialize (Hmono i j ltac:(lia)). lia.
  - specialize (Hmono j i ltac:(lia)). lia.
Qed.

Lemma tier_spec (n : N) :
  (0 < n < 1024 ^ 4)%N ->
  (1024 ^ tier n <= n /\ n < 1024 ^ (tier n + 1))%N.
Proof.
  intros [Hpos Hlt]. unfold tier.
  destruct (N.ltb_spec n 1024); [ simpl; lia | ].
  destruct (N.ltb_spec n (1024 ^ 2)); [ split; [ simpl; lia | exact H0 ] | ].
  destruct (N.ltb_spec n (1024 ^ 3)); [ split; [ exact H0 | exact H1 ] | ].
  split; [ exact H1 | exact Hlt ].
Qed.

Lemma unit_index_tier (n : N) :
  (0 < n < 1024 ^ 4)%N -> unit_index n = tier n.
Proof.
  intros Hn. apply (tier_window_unique n).
  - apply unit_index_spec. lia.
  - apply tier_spec. exact Hn.
Qed.

Lemma tier_le_3 (n : N) : (tier n <= 3)%N.
Proof.
  unfold tier.
  repeat match goal with |- context [ (?a <? ?b)%N ] => destruct (a <? b)%N end; lia.
Qed.

Lemma decimal_digit (b : N) : (b < 10)%N -> decimal b = [(48 + b)%N].
Proof.
  intros Hb.
  assert (H : (b = 0 \/ b = 1 \/ b = 2 \/ b = 3 \/ b = 4 \/ b = 5 \/ b = 6
               \/ b = 7 \/ b = 8 \/ b = 9)%N) by lia.
  repeat (destruct H as [-> | H]; [ reflexivity | ]). subst b. reflexivity.
Qed.

Lemma strip_dot_zero_fraction (x : JsString.t) (b : N) :
  (b < 10)%N ->
  strip_dot_zero (x ++ [dot] ++ decimal b)
  = if (b =? 0)%N then x else x ++ [dot] ++ decimal b.
Proof.
  intros Hb. rewrite (decimal_digit b Hb). unfold strip_dot_zero.
  rewrite rev_app_distr. cbn [rev app dot].
  destruct (N.eqb_spec b 0) as [-> | Hnz].
  - cbn. apply rev_involutive.
  - destruct b as [ | p ]; [ contradiction | ].
    destruct p as [ p | p | ]; try destruct p as [ p | p | ];
      try destruct p as [ p | p | ]; try destruct p as [ p | p | ];
      cbn; try reflexivity; lia.
Qed.

Lemma sizes_at_tier (i : N) :
  (i <= 3)%N -> concat_unit (sizes_at i) = nth (N.to_nat i) sizes [].
Proof.
  intros Hi.
  assert (H : (i = 0 \/ i = 1 \/ i = 2 \/ i = 3)%N) by lia.
  repeat (destruct H as [-> | H]; [ reflexivity | ]). subst i. reflexivity.
Qed.

Lemma sizes_at_out_of_range (i : N) : (4 <= i)%N -> sizes_at i = None.
Proof.
  intros Hi. unfold sizes_at. apply nth_error_None. simpl. lia.
Qed.

Lemma round_scaled_tenths (n i : N) :
  Z.to_N (Math_round (QofN n / QofN (1024 ^ i) * 10)) = scaled_tenths n i.
Proof.
  assert (Hd : (0 < 1024 ^ i)%N).
  { apply N.neq_0_lt_0, N.pow_nonzero. discriminate. }
  set (d := (1024 ^ i)%N) in *.
  rewrite (Math_round_frac _ (10 * Z.of_N n) (Z.of_N d)).
  - unfold scaled_tenths. fold d.
    replace (2 * (10 * Z.of_N n) + Z.of_N d) with (Z.of_N (20 * n + d)) by lia.
    replace (2 * Z.of_N d) with (Z.of_N (2 * d)) by lia.
    rewrite <- N2Z.inj_div. apply N2Z.id.
  - lia.
  - unfold QofN. rewrite inject_Z_mult.
    assert (Hnz : ~ (inject_Z (Z.of_N d) == 0)%Q).
    { intro H. unfold Qeq in H. simpl in H. lia. }
    change (inject_Z 10) with 10%Q. field. exact Hnz.
Qed.

Lemma round_unscaled (n : N) :
  Z.to_N (Math_round (QofN n / QofN (1024 ^ 0))) = n.
Proof.
  rewrite (Math_round_frac _ (Z.of_N n) 1).
  - replace ((2 * Z.of_N n + 1) / (2 * 1)) with (Z.of_N n).
    + apply N2Z.id.
    + apply Z.div_unique with (r := 1); lia.
  - lia.
  - reflexivity.
Qed.

Lemma formatBytes_refines_spec (n : N) :
  (n < 1024 ^ 4)%N -> formatBytes n = formatBytes_spec n.
Proof.
  intros Hlt. unfold formatBytes, formatBytes_spec.
  destruct (N.eqb_spec n 0) as [ | Hnz ]; [ reflexivity | ].
  assert (Hn : (0 < n < 1024 ^ 4)%N) by lia.
  rewrite (unit_index_tier n Hn).
  pose proof (tier_le_3 n) as Hle.
  rewrite (sizes_at_tier _ Hle).
  f_equal. unfold scaled_numeral.
  destruct (N.eqb_spec (tier n) 0) as [ Hz | Hz ].
  - rewrite Hz. unfold toFixed0. rewrite round_unscaled. reflexivity.
  - unfold toFixed1. rewrite round_scaled_tenths.
    apply strip_dot_zero_fraction.
    apply N.mod_lt. discriminate.
Qed.

Lemma tier_largest (n j : N) :
  (0 < n < 1024 ^ 4)%N -> (1024 ^ j <= n)%N -> (j <= tier n)%N.
Proof.
  intros Hn Hj. destruct (tier_spec n Hn) as [_ Hup].
  destruct (N.le_gt_cases j (tier n)) as [ Hle | Hgt ]; [ exact Hle | ].
  assert (H : (1024 ^ (tier n + 1) <= 1024 ^ j)%N).
  { apply N.pow_le_mono_r; [ discriminate | lia ]. }
  lia.
Qed.

Lemma unit_index_lower (n : N) : (1024 ^ 4 <= n)%N -> (4 <= unit_index n)%N.
Proof.
  intros Hn. unfold unit_index.
  assert (H40 : (40 <= N.log2 n)%N).
  { change 40%N with (N.log2 (1024 ^ 4)). apply N.log2_le_mono. exact Hn. }
  change 4%N with (40 / 10)%N. apply N.Div0.div_le_mono. exact H40.
Qed.

(** C8 (as amended).  Below 1024^4 bytes [formatBytes] prints what the
    specification describes: the unit is the largest of B/KB/MB/GB whose
    scaled value is at least one, the bytes tier prints the integer, the
    larger tiers print one decimal and drop a final ".0".  The three stated
    examples are instances. *)
Theorem formatBytes_below_1024_pow_4 (n : N) :
  (n < 1024 ^ 4)%N ->
  formatBytes n = formatBytes_spec n
  /\ ((0 < n)%N ->
      (1024 ^ tier n <= n)%N /\ (tier n <= 3)%N
      /\ forall j : N, (1024 ^ j <= n)%N -> (j <= tier n)%N)
  /\ formatBytes 0 = lit "0 " ++ [cyr_B]
  /\ formatBytes 1536 = lit "1.5 " ++ [cyr_K; cyr_B]
  /\ formatBytes (1024 * 1024) = lit "1 " ++ [cyr_M; cyr_B].
Proof.
  intros Hlt. split; [ apply formatBytes_refines_spec; exact Hlt | ].
  split.
  - intros Hpos. assert (Hn : (0 < n < 1024 ^ 4)%N) by lia.
    split; [ apply tier_spec; exact Hn | ].
    split; [ apply tier_le_3 | ].
    intros j Hj. apply tier_largest; assumption.
  - repeat split; vm_compute; reflexivity.
Qed.

Lemma formatBytes_below_1024_pow_4_witness :
  (1536 < 1024 ^ 4)%N /\ formatBytes 1536 = formatBytes_spec 1536.
Proof.
  split; [ reflexivity | ].
  apply (formatBytes_below_1024_pow_4 1536). reflexivity.
Defined.

(** C8, counterexample.  At 1024^4 bytes the largest of the four units is
    GB and the scaled value is 1024, but the source looks up entry 4 of the
    table and prints the text "undefined" for it. *)
Lemma formatBytes_unit_missing_at_1024_pow_4 :
  formatBytes (1024 ^ 4) = lit "1 undefined"
  /\ formatBytes_spec (1024 ^ 4) = lit "1024 " ++ [cyr_G; cyr_B]
  /\ formatBytes (1024 ^ 4) <> formatBytes_spec (1024 ^ 4).
Proof.
  split; [ vm_compute; reflexivity | ].
  split; [ vm_compute; reflexivity | ].
  vm_compute. discriminate.
Qed.

(** C10.  From 1024^4 bytes on, the unit index is at least 4, the lookup in
    the four-entry table finds nothing, and the result ends in the text
    "undefined" instead of a unit. *)
Theorem formatBytes_out_of_range (n : N) :
  (1024 ^ 4 <= n)%N ->
  (4 <= unit_index n)%N
  /\ (N.of_nat (List.length sizes) <= unit_index n)%N
  /\ sizes_at (unit_index n) = None
  /\ exists num, formatBytes n = num ++ [space] ++ lit "undefined".
Proof.
  intros Hn. pose proof (unit_index_lower n Hn) as Hi.
  split; [ exact Hi | ].
  split; [ simpl; lia | ].
  split; [ apply sizes_at_out_of_range; exact Hi | ].
  unfold formatBytes.
  destruct (N.eqb_spec n 0) as [ -> | _ ]; [ vm_compute in Hn; contradiction Hn; reflexivity | ].
  rewrite (sizes_at_out_of_range _ Hi).
  eexists. reflexivity.
Qed.

Lemma formatBytes_out_of_range_witness :
  (1024 ^ 4 <= 1024 ^ 4)%N /\ sizes_at (unit_index (1024 ^ 4)) = None.
Proof.
  split; [ reflexivity | ].
  apply (formatBytes_out_of_range (1024 ^ 4)). reflexivity.
Defined.

(** ** shortFileName *)

Lemma lastIndexOf_spec (c : code_unit) (s : JsString.t) :
  (lastIndexOf c s = -1 /\ ~ In c s)
  \/ (exists pre post,
        s = pre ++ c :: post /\ lastIndexOf c s = len pre /\ ~ In c post).
Proof.
  induction s as [ | x r IH ]; simpl.
  - left. split; [ reflexivity | intros [] ].
  - destruct (Z.leb_spec 0 (lastIndexOf c r)) as [ Hk | Hk ].
    + destruct IH as [ [E _] | (pre & post & E & K & NI) ]; [ lia | ].
      right. exists (x :: pre), post.
      split; [ rewrite E; reflexivity | ].
      split; [ rewrite K; unfold len; simpl List.length; lia | exact NI ].
    + destruct IH as [ [E NI] | (pre & post & E & K & NI) ];
        [ | unfold len in K; lia ].
      destruct (N.eqb_spec x c) as [ -> | Hne ].
      * right. exists [], r. repeat split; [ exact NI ].
      * left. split; [ reflexivity | ].
        intros [ H | H ]; [ exact (Hne H) | exact (NI H) ].
Qed.

Lemma len_app (a b : JsString.t) : len (a ++ b) = len a + len b.
Proof. unfold len. rewrite length_app. lia. Qed.

Lemma len_slice_to (k : Z) (s : JsString.t) : 0 <= k -> len (slice_to k s) <= k.
Proof.
  intros Hk. unfold len, slice_to.
  pose proof (firstn_le_length (Z.to_nat k) s) as H1.
  rewrite length_firstn. lia.
Qed.

Lemma slice_at_prefix (pre post : JsString.t) :
  slice_to (len pre) (pre ++ post) = pre
  /\ slice_from (len pre) (pre ++ post) = post.
Proof.
  unfold slice_to, slice_from, len. rewrite Nat2Z.id. split.
  - rewrite firstn_app, firstn_all, Nat.sub_diag. simpl. apply app_nil_r.
  - rewrite skipn_app, skipn_all, Nat.sub_diag. reflexivity.
Qed.

Lemma maxLen_or_default_pos (maxLen : option N) : 1 <= maxLen_or_default maxLen.
Proof. destruct maxLen as [ [ | p ] | ]; simpl; lia. Qed.

Lemma shortFileName_tail (m : Z) (stem ext : JsString.t) :
  1 <= m ->
  let keep := m - len ext - 1 in
  let out := if keep <? 8 then slice_to (m - 1) stem ++ [ellipsis]
             else slice_to keep stem ++ [ellipsis] ++ ext in
  len out <= m
  /\ (8 <= keep -> out = slice_to keep stem ++ [ellipsis] ++ ext)
  /\ (keep < 8 -> out = slice_to (m - 1) stem ++ [ellipsis]).
Proof.
  intros Hm keep out. subst out.
  destruct (Z.ltb_spec keep 8) as [ Hk | Hk ].
  - split; [ | split; [ lia | reflexivity ] ].
    rewrite len_app. pose proof (len_slice_to (m - 1) stem ltac:(lia)).
    change (len [ellipsis]) with 1. lia.
  - split; [ | split; [ reflexivity | lia ] ].
    rewrite !len_app. pose proof (len_slice_to keep stem ltac:(lia)).
    change (len [ellipsis]) with 1. unfold keep in *. lia.
Qed.




(** ** Comparisons and bounds on rationals *)


Lemma Qgtb_false (x y : Q) : Qgtb x y = false <-> (x <= y)%Q.
Proof.
  unfold Qgtb. rewrite negb_false_iff. apply Qle_bool_iff.
Qed.

Lemma QofN_nonneg (n : N) : (0 <= QofN n)%Q.
Proof.
  unfold QofN. change 0%Q with (inject_Z 0). rewrite <- Zle_Qle. lia.
Qed.

Lemma inject_Z_nonneg (z : Z) : 0 <= z -> (0 <= inject_Z z)%Q.
Proof.
  intros Hz. change 0%Q with (inject_Z 0). rewrite <- Zle_Qle. exact Hz.
Qed.

Lemma progress_tenths_nonneg (l t : N) : 0 <= progress_tenths l t.
Proof.
  unfold progress_tenths. apply Math_round_nonneg, fl_nonneg.
  apply Qmult_le_0_compat; [ | lra ].
  apply fl_nonneg.
  apply Qmult_le_0_compat; [ apply QofN_nonneg | ].
  apply Qinv_le_0_compat, QofN_nonneg.
Qed.

Lemma progress_percent_bounds (l t : N) :
  (0 <= progress_percent l t <= 99)%Q.
Proof.
  unfold progress_percent. split; [ | apply Q.le_min_l ].
  apply Q.min_glb; [ lra | ].
  apply fl_nonneg.
  pose proof (inject_Z_nonneg _ (progress_tenths_nonneg l t)) as Hr.
  apply Qle_shift_div_l; [ reflexivity | lra ].
Qed.

Lemma ratio_bounds (l t : N) :
  (0 < t)%N -> (l <= t)%N ->
  (0 <= QofN l / QofN t <= 1)%Q.
Proof.
  intros Ht Hle.
  assert (Htq : (0 < QofN t)%Q).
  { unfold QofN. change 0%Q with (inject_Z 0). rewrite <- Zlt_Qlt. lia. }
  assert (Hlq : (QofN l <= QofN t)%Q) by (unfold QofN; rewrite <- Zle_Qle; lia).
  pose proof (QofN_nonneg l) as Hl0.
  split.
  - apply Qle_shift_div_l; [ exact Htq | lra ].
  - apply Qle_shift_div_r; [ exact Htq | lra ].
Qed.

(** The double product [(loaded / total) * 1000] is within 2^-42 of the
    exact one. *)
Lemma progress_product_error (l t : N) :
  (0 < t)%N -> (l <= t)%N -> (t < 2 ^ 53)%N ->
  (QofN l / QofN t * 1000 - product_slack
   <= fl (fl (QofN l / QofN t) * 1000)
   <= QofN l / QofN t * 1000 + product_slack)%Q.
Proof.
  intros Ht Hle Hbig.
  destruct (ratio_bounds l t Ht Hle) as [Hq0 Hq1].
  destruct (N.eq_dec l 0) as [ -> | Hl ].
  - assert (Hz : (QofN 0 / QofN t == 0)%Q) by (unfold QofN, Qdiv; simpl; ring).
    rewrite (fl_zero _ Hz).
    rewrite (fl_zero (0 * 1000)) by ring.
    rewrite Hz. unfold product_slack. split; lra.
  - assert (Htq : (0 < QofN t)%Q).
    { unfold QofN. change 0%Q with (inject_Z 0). rewrite <- Zlt_Qlt. lia. }
    assert (Hthi : (QofN t < 9007199254740992)%Q).
    { unfold QofN. change 9007199254740992%Q with (inject_Z (2 ^ 53)).
      rewrite <- Zlt_Qlt. change (2 ^ 53) with (Z.of_N (2 ^ 53)). lia. }
    assert (Hl1 : (1 <= QofN l)%Q).
    { unfold QofN. change 1%Q with (inject_Z 1). rewrite <- Zle_Qle. lia. }
    assert (Hlo : ((1 # 9007199254740992) <= QofN l / QofN t)%Q).
    { apply Qle_shift_div_l; [ exact Htq | lra ]. }
    revert Hq0 Hq1 Hlo. generalize (QofN l / QofN t)%Q. intros q0 Hq0 Hq1 Hlo.
    assert (Hn0 : (2 ^ (-1022) <= q0)%Q).
    { apply (pow2_le_small (-53)); [ lia | ].
      change (2 ^ (-53))%Q with (1 # 9007199254740992)%Q. exact Hlo. }
    pose proof (fl_error q0 Hn0) as [E1 E2]. unfold unit_roundoff in E1, E2.
    assert (Hn1 : (2 ^ (-1022) <= fl q0 * 1000)%Q).
    { apply (pow2_le_small (-53)); [ lia | ].
      change (2 ^ (-53))%Q with (1 # 9007199254740992)%Q. lra. }
    pose proof (fl_error _ Hn1) as [E3 E4]. unfold unit_roundoff in E3, E4.
    clear Hn0 Hn1. unfold product_slack. split; lra.
Qed.

Lemma exact_tenths_spec (l t : N) :
  (0 < t)%N ->
  (QofN l / QofN t * 1000 + (1 # 2)
   == inject_Z (2000 * Z.of_N l + Z.of_N t) / inject_Z (2 * Z.of_N t))%Q.
Proof.
  intros Ht. unfold QofN.
  rewrite inject_Z_plus, !inject_Z_mult.
  assert (Hnz : ~ (inject_Z (Z.of_N t) == 0)%Q).
  { intro H. unfold Qeq in H. simpl in H. lia. }
  change (inject_Z 2000) with 2000%Q. change (inject_Z 2) with 2%Q.
  field. exact Hnz.
Qed.

(** The number of tenths the listener computes is the nearest integer to
    [1000 * loaded / total], ties upwards, except that at an exact tie the
    double product can lie below the exact one, and the lower integer is
    taken. *)
Lemma progress_tenths_nearest (l t : N) :
  (0 < t)%N -> (l <= t)%N -> (t < 2 ^ 41)%N ->
  progress_tenths l t = exact_tenths l t
  \/ (tie l t /\ progress_tenths l t = exact_tenths l t - 1).
Proof.
  intros Ht Hle Hbig.
  assert (Hbig' : (t < 2 ^ 53)%N).
  { eapply N.lt_trans; [ exact Hbig | reflexivity ]. }
  pose proof (progress_product_error l t Ht Hle Hbig') as [Elo Ehi].
  pose proof (exact_tenths_spec l t Ht) as Hx.
  unfold progress_tenths, Math_round, exact_tenths, tie.
  set (r := fl (fl (QofN l / QofN t) * 1000)) in *.
  set (A := 2000 * Z.of_N l + Z.of_N t) in *.
  set (B := 2 * Z.of_N t) in *.
  assert (HB : 0 < B) by (unfold B; lia).
  assert (HB42 : B < 2 ^ 42).
  { unfold B. change (2 ^ 42) with (2 * Z.of_N (2 ^ 41)). lia. }
  pose proof (Z.div_mod A B ltac:(lia)) as Hdm.
  pose proof (Z.mod_pos_bound A B HB) as Hrem.
  set (k0 := A / B) in *. set (rem := A mod B) in *.
  assert (Hbq : (0 < inject_Z B)%Q).
  { change 0%Q with (inject_Z 0). rewrite <- Zlt_Qlt. exact HB. }
  assert (Hbhi : (inject_Z B < 4398046511104)%Q).
  { change 4398046511104%Q with (inject_Z (2 ^ 42)). rewrite <- Zlt_Qlt. exact HB42. }
  assert (HA : (inject_Z A == inject_Z B * inject_Z k0 + inject_Z rem)%Q).
  { rewrite <- inject_Z_mult, <- inject_Z_plus. rewrite <- Hdm. reflexivity. }
  assert (Hrem0 : (0 <= inject_Z rem)%Q) by (apply inject_Z_nonneg; lia).
  assert (Hrem1 : (inject_Z rem + 1 <= inject_Z B)%Q).
  { change 1%Q with (inject_Z 1). rewrite <- inject_Z_plus, <- Zle_Qle. lia. }
  (* y = r + 1/2 lies within the slack of A / B *)
  assert (Hy : (inject_Z A / inject_Z B - product_slack <= r + (1 # 2)
                <= inject_Z A / inject_Z B + product_slack)%Q).
  { rewrite <- Hx. split; lra. }
  clear Elo Ehi Hx.
  assert (HAB : (inject_Z A / inject_Z B == inject_Z k0 + inject_Z rem / inject_Z B)%Q).
  { rewrite HA. field. lra. }
  rewrite HAB in Hy. clear HAB.
  assert (Hslack : (product_slack * inject_Z B < 1)%Q).
  { unfold product_slack. lra. }
  assert (Hfrac1 : (inject_Z rem / inject_Z B + product_slack < 1)%Q).
  { apply Qlt_minus_iff.
    setoid_replace (1 + - (inject_Z rem / inject_Z B + product_slack))%Q
      with ((inject_Z B - inject_Z rem - product_slack * inject_Z B) / inject_Z B)%Q
      by (field; lra).
    apply Qlt_shift_div_l; [ exact Hbq | lra ]. }
  assert (Hfrac0 : (0 <= inject_Z rem / inject_Z B)%Q).
  { apply Qle_shift_div_l; [ exact Hbq | lra ]. }
  assert (Hslack1 : (product_slack < 1)%Q) by (unfold product_slack; lra).
  destruct Hy as [Ylo Yhi].
  assert (Hup : Qfloor (r + (1 # 2)) <= k0).
  { assert (H : (inject_Z (Qfloor (r + (1 # 2))) < inject_Z (k0 + 1))%Q).
    { rewrite inject_Z_plus. change (inject_Z 1) with 1%Q.
      pose proof (Qfloor_le (r + (1 # 2))). lra. }
    rewrite <- Zlt_Qlt in H. lia. }
  assert (Hdown : k0 - 1 <= Qfloor (r + (1 # 2))).
  { rewrite <- (Qfloor_Z (k0 - 1)). apply Qfloor_resp_le.
    replace (k0 - 1) with (k0 + -1) by lia.
    rewrite inject_Z_plus. change (inject_Z (-1)) with (-1)%Q. lra. }
  destruct (Z.eq_dec rem 0) as [ Hz | Hnz ].
  - destruct (Z.eq_dec (Qfloor (r + (1 # 2))) k0) as [ E | NE ];
      [ left; exact E | right; split; [ exact Hz | lia ] ].
  - left.
    assert (Hge : k0 <= Qfloor (r + (1 # 2))).
    { rewrite <- (Qfloor_Z k0). apply Qfloor_resp_le.
      assert (Hr1 : (1 <= inject_Z rem)%Q).
      { change 1%Q with (inject_Z 1). rewrite <- Zle_Qle. lia. }
      assert (Hfrac : (product_slack <= inject_Z rem / inject_Z B)%Q).
      { apply Qle_shift_div_l; [ exact Hbq | lra ]. }
      lra. }
    lia.
Qed.

Lemma fl_99 : fl (inject_Z 990 / 10) = 99%Q.
Proof. vm_compute. reflexivity. Qed.

Lemma tenth_normal (k : Z) : 1 <= k -> (2 ^ (-1022) <= inject_Z k / 10)%Q.
Proof.
  intros Hk. apply (pow2_le_small (-4)); [ lia | ].
  change (2 ^ (-4))%Q with (1 # 16)%Q.
  assert (H1 : (1 <= inject_Z k)%Q).
  { change 1%Q with (inject_Z 1). rewrite <- Zle_Qle. exact Hk. }
  apply Qle_shift_div_l; [ reflexivity | lra ].
Qed.

(** The cap at 99 percent is a cap at 990 tenths. *)
Lemma percent_of_tenths (k : Z) :
  0 <= k ->
  (Qmin 99 (fl (inject_Z k / 10)) == fl (inject_Z (Z.min 990 k) / 10))%Q.
Proof.
  intros Hk.
  destruct (Z.eq_dec k 0) as [ -> | Hk0 ].
  { vm_compute. reflexivity. }
  destruct (Z.lt_trichotomy k 990) as [ Hlt | [ -> | Hgt ] ].
  - rewrite (Z.min_r 990 k) by lia. apply Q.min_r.
    pose proof (fl_error _ (tenth_normal k ltac:(lia))) as [_ E].
    unfold unit_roundoff in E.
    assert (H : (inject_Z k <= 989)%Q).
    { change 989%Q with (inject_Z 989). rewrite <- Zle_Qle. lia. }
    assert (H10 : (inject_Z k / 10 <= 989 / 10)%Q).
    { apply Qle_shift_div_r; [ reflexivity | ].
      setoid_replace (989 / 10 * 10)%Q with 989%Q by field. exact H. }
    change (989 / 10)%Q with (989 # 10)%Q in H10.
    revert E H10. generalize (fl (inject_Z k / 10)) (inject_Z k / 10)%Q.
    intros a b E H10. lra.
  - rewrite fl_99. reflexivity.
  - rewrite (Z.min_l 990 k) by lia. rewrite fl_99. apply Q.min_l.
    pose proof (fl_error _ (tenth_normal k ltac:(lia))) as [E _].
    unfold unit_roundoff in E.
    assert (H : (991 <= inject_Z k)%Q).
    { change 991%Q with (inject_Z 991). rewrite <- Zle_Qle. lia. }
    assert (H10 : (991 / 10 <= inject_Z k / 10)%Q).
    { apply Qle_shift_div_l; [ reflexivity | ].
      setoid_replace (991 / 10 * 10)%Q with 991%Q by field. exact H. }
    change (991 / 10)%Q with (991 # 10)%Q in H10.
    revert E H10. generalize (fl (inject_Z k / 10)) (inject_Z k / 10)%Q.
    intros a b E H10. lra.
Qed.

(** ** Invariants of a transfer in flight *)

Lemma states_after_invariant (P : UploadState -> Prop) :
  (forall s c ev, P s -> P (fst (in_flight (s, c) ev))) ->
  forall evs sc, P (fst sc) -> Forall P (states_after sc evs).
Proof.
  intros Hstep evs. induction evs as [ | ev r IH ]; intros [s c] H; simpl.
  - constructor.
  - constructor; [ apply Hstep; exact H | ].
    apply IH. apply Hstep. exact H.
Qed.

Lemma fold_in_flight_invariant (P : UploadState -> Prop) :
  (forall s c ev, P s -> P (fst (in_flight (s, c) ev))) ->
  forall evs sc, P (fst sc) -> P (fst (fold_left in_flight evs sc)).
Proof.
  intros Hstep evs. induction evs as [ | ev r IH ]; intros [s c] H; simpl.
  - exact H.
  - apply IH. apply Hstep. exact H.
Qed.

Lemma begin_in_flight_range (file : File) (v : bool) (t0 : Z) :
  in_flight_range (fst (begin file v t0)).
Proof. unfold in_flight_range. simpl. lra. Qed.

Lemma on_progress_displayed (e : ProgressEvent) (sc : UploadState * Closure) :
  displayedPercent (fst (on_progress e sc)) = displayedPercent (fst sc)
  /\ displayedLoaded (fst (on_progress e sc)) = displayedLoaded (fst sc)
  /\ active (fst (on_progress e sc)) = active (fst sc).
Proof.
  destruct sc as [s c]. unfold on_progress.
  destruct (lengthComputable e && (0 <? ev_total e)%N); repeat split.
Qed.

Lemma on_progress_realPercent (e : ProgressEvent) (sc : UploadState * Closure) :
  realPercent (fst (on_progress e sc))
  = if lengthComputable e && (0 <? ev_total e)%N
    then progress_percent (loaded e) (ev_total e)
    else realPercent (fst sc).
Proof.
  destruct sc as [s c]. unfold on_progress.
  destruct (lengthComputable e && (0 <? ev_total e)%N); reflexivity.
Qed.

Lemma animate_realPercent (s : UploadState) :
  realPercent (frame_state (animateUploadProgress s)) = realPercent s.
Proof.
  unfold animateUploadProgress.
  destruct (active s); [ | reflexivity ].
  destruct (indeterminate s); reflexivity.
Qed.

Lemma animate_displayedPercent (s : UploadState) :
  displayedPercent (frame_state (animateUploadProgress s))
  = if negb (active s) || indeterminate s then displayedPercent s
    else if Qgtb (filter_percent s) (995 # 10) then realPercent s
         else filter_percent s.
Proof.
  unfold animateUploadProgress.
  destruct (active s); [ | reflexivity ].
  destruct (indeterminate s); reflexivity.
Qed.

Lemma in_flight_keeps_range (s : UploadState) (c : Closure) (ev : InFlight) :
  in_flight_range s -> in_flight_range (fst (in_flight (s, c) ev)).
Proof.
  unfold in_flight_range. intros [Hd Hr]. destruct ev as [ e | ]; unfold in_flight.
  - destruct (on_progress_displayed e (s, c)) as (-> & _ & _).
    rewrite on_progress_realPercent. cbn [fst].
    split; [ exact Hd | ].
    destruct (lengthComputable e && (0 <? ev_total e)%N);
      [ apply progress_percent_bounds | exact Hr ].
  - cbn [fst]. rewrite animate_realPercent, animate_displayedPercent.
    split; [ | exact Hr ].
    destruct (negb (active s) || indeterminate s); [ exact Hd | ].
    destruct (Qgtb (filter_percent s) (995 # 10)); [ exact Hr | ].
    unfold filter_percent, step. split; lra.
Qed.

Lemma trajectory_in_range (file : File) (v : bool) (t0 : Z) (evs : list InFlight) :
  Forall in_flight_range (trajectory (begin file v t0) evs).
Proof.
  unfold trajectory. constructor; [ apply begin_in_flight_range | ].
  apply states_after_invariant;
    [ apply in_flight_keeps_range | apply begin_in_flight_range ].
Qed.

Lemma last_in_flight_in_range (file : File) (v : bool) (t0 : Z)
  (evs : list InFlight) :
  in_flight_range (fst (fold_left in_flight evs (begin file v t0))).
Proof.
  apply fold_in_flight_invariant;
    [ apply in_flight_keeps_range | apply begin_in_flight_range ].
Qed.

Lemma trajectory_below_100 (file : File) (v : bool) (t0 : Z) (evs : list InFlight) :
  Forall (fun st => (realPercent st < 100)%Q) (trajectory (begin file v t0) evs).
Proof.
  eapply Forall_impl; [ | apply trajectory_in_range ].
  intros st [_ [_ Hr]]. lra.
Qed.

(** C3.  A progress event with a known, positive total sets the raw
    percentage to [Math.min(99, Math.round((loaded / total) * 1000) / 10)],
    each operation being the one on doubles: the double nearest to a number
    of tenths of a percent, at most 99.  Below 2^53 bytes that number of
    tenths is within a half and 2^-42 of [1000 * loaded / total]; below 2^41
    bytes it is the nearest integer to it, ties upwards, unless
    [1000 * loaded / total] is exactly half way between two integers, where
    it can also be the lower one.  One million of two million bytes gives 50.
    The raw percentage stays below 100 from the reset through every event in
    flight and through a transport error; only the completion writes of
    [xhr.onload] set it to 100. *)
Theorem rawPercent_on_progress (e : ProgressEvent) (s : UploadState) (c : Closure) :
  lengthComputable e = true ->
  (0 < ev_total e)%N ->
  (loaded e <= ev_total e)%N ->
  let s' := fst (on_progress e (s, c)) in
  let k := Math_round (fl (fl (QofN (loaded e) / QofN (ev_total e)) * 1000)) in
  realPercent s' = Qmin 99 (fl (inject_Z k / 10))
  /\ (realPercent s' == fl (inject_Z (Z.min 990 k) / 10))%Q
  /\ ((ev_total e < 2 ^ 53)%N ->
      (Qabs (inject_Z k - QofN (loaded e) / QofN (ev_total e) * 1000)
       <= (1 # 2) + product_slack)%Q)
  /\ ((ev_total e < 2 ^ 41)%N ->
      Z.min 990 k = rawPercent_tenths (loaded e) (ev_total e)
      \/ (tie (loaded e) (ev_total e)
          /\ Z.min 990 k = Z.min 990 (exact_tenths (loaded e) (ev_total e) - 1)))
  /\ (0 <= realPercent s' <= 99)%Q
  /\ (forall t,
        realPercent (fst (on_progress (mkProgressEvent 1000000 2000000 true t) (s, c)))
        == 50)%Q
  /\ (forall file v t0 evs,
        Forall (fun st => (realPercent st < 100)%Q)
               (transfer_states (begin file v t0) evs NetworkError))
  /\ (forall file v t0 evs status parses,
        Forall (fun st => (realPercent st < 100)%Q)
               (trajectory (begin file v t0) evs)
        /\ realPercent (finish (Load status parses)
                          (fold_left in_flight evs (begin file v t0))) = 100%Q).
Proof.
  intros Hlc Ht Hle s' k.
  assert (Hs' : realPercent s' = progress_percent (loaded e) (ev_total e)).
  { unfold s'. rewrite on_progress_realPercent, Hlc.
    apply N.ltb_lt in Ht. rewrite Ht. reflexivity. }
  assert (Hk : k = progress_tenths (loaded e) (ev_total e)) by reflexivity.
  clearbody k. subst k.
  split; [ rewrite Hs'; reflexivity | ].
  split.
  { rewrite Hs'. unfold progress_percent.
    apply percent_of_tenths, progress_tenths_nonneg. }
  split.
  { intros Hbig.
    pose proof (progress_product_error _ _ Ht Hle Hbig) as [Elo Ehi].
    unfold progress_tenths, Math_round.
    destruct (Qfloor_bounds (fl (fl (QofN (loaded e) / QofN (ev_total e)) * 1000)
                             + (1 # 2))) as [Flo Fhi].
    apply Qabs_Qle_condition. unfold product_slack in *. split; lra. }
  split.
  { intros Hbig. unfold rawPercent_tenths.
    destruct (progress_tenths_nearest _ _ Ht Hle Hbig) as [ -> | [Htie ->] ];
      [ left; reflexivity | right; split; [ exact Htie | reflexivity ] ]. }
  split; [ rewrite Hs'; apply progress_percent_bounds | ].
  split; [ intros t; vm_compute; reflexivity | ].
  split.
  - intros file v t0 evs. unfold transfer_states.
    apply Forall_app. split; [ apply trajectory_below_100 | ].
    constructor; [ | constructor ].
    cbn [finish xhr_onerror realPercent].
    destruct (last_in_flight_in_range file v t0 evs) as [_ [_ Hr]]. lra.
  - intros file v t0 evs status parses.
    split; [ apply trajectory_below_100 | reflexivity ].
Qed.

Lemma rawPercent_on_progress_witness :
  (realPercent
     (fst (on_progress (mkProgressEvent 1000000 2000000 true 100)
             (begin (mkFile (lit "a.png") 2000000) false 0)))
   == fl (inject_Z
            (Z.min 990
               (Math_round (fl (fl (QofN 1000000 / QofN 2000000) * 1000))))
          / 10))%Q.
Proof.
  apply (rawPercent_on_progress (mkProgressEvent 1000000 2000000 true 100));
    [ reflexivity | reflexivity | vm_compute; discriminate ].
Defined.

(** At 201 of 400 bytes, [1000 * loaded / total] is 502.5 exactly; the double
    product is just below it, and the raw percentage is the double nearest to
    50.2, where exact arithmetic would round to 50.3. *)
Example progress_percent_at_tie :
  tie 201 400
  /\ exact_tenths 201 400 = 503
  /\ progress_tenths 201 400 = 502
  /\ progress_percent 201 400 = fl (502 # 10).
Proof. vm_compute. repeat split; reflexivity. Qed.

(** ** The speed estimate *)









(** Seven bytes in 560 ms: the double quotient is just below 12.5 and the
    speed shown is 12 bytes per second, where the exact quotient 12.5 would
    round to 13. *)
Example speed_below_tie :
  let sc0 := begin (mkFile (lit "a.png") 10000) false 0 in
  let e := mkProgressEvent 7 10000 true 560 in
  (progress_speed (snd sc0) e < 125 # 10)%Q
  /\ realSpeedStr (fst (on_progress e sc0)) = lit "12 " ++ [cyr_B] ++ lit "/" ++ [cyr_s].
Proof. vm_compute. split; reflexivity. Qed.


(** ** The end of a request *)

(** C5 (as amended).  A transport error clears [active] and leaves every
    other field, the percentages among them, as they were.  A response with
    a status outside 200..299 also clears [active], but only after the
    completion writes of [xhr.onload]: both percentages are 100 and both
    byte counts are the file size.  In both cases the [onError] argument is
    what runs next, and the state has no field for a reason. *)
Theorem failure_state (tr : Transport) (file : File) (v : bool)
  (cb onError : Callback) (w : World) :
  let sc := fold_left in_flight (inflight (tr v)) (begin file v (started (tr v))) in
  let s := fst sc in
  (outcome (tr v) = NetworkError ->
   exists s',
     uploadProductFile tr file v cb onError w
     = onError (mkWorld s' (log w ++ [Dispatch v]))
     /\ active s' = false
     /\ realPercent s' = realPercent s
     /\ displayedPercent s' = displayedPercent s
     /\ realLoaded s' = realLoaded s
     /\ displayedLoaded s' = displayedLoaded s
     /\ realTotal s' = realTotal s
     /\ realSpeedStr s' = realSpeedStr s
     /\ label s' = label s
     /\ total s' = total s
     /\ indeterminate s' = indeterminate s)
  /\ (forall status parses,
        outcome (tr v) = Load status parses ->
        is_success status = false ->
        exists s',
          uploadProductFile tr file v cb onError w
          = onError (mkWorld s' (log w ++ [Dispatch v]))
          /\ active s' = false
          /\ realPercent s' = 100%Q
          /\ displayedPercent s' = 100%Q
          /\ realLoaded s' = size file
          /\ displayedLoaded s' = QofN (size file)).
Proof.
  intros sc s.
  assert (Hsize : fileSize (snd sc) = size file).
  { unfold sc. generalize (inflight (tr v)).
    assert (H0 : fileSize (snd (begin file v (started (tr v)))) = size file)
      by reflexivity.
    revert H0. generalize (begin file v (started (tr v))).
    intros p H0 l. revert p H0.
    induction l as [ | ev r IH ]; intros p H0; simpl; [ exact H0 | ].
    apply IH. destruct ev as [ e | ]; [ | exact H0 ].
    destruct p as [s0 c0]. unfold in_flight, on_progress.
    destruct (lengthComputable e && (0 <? ev_total e)%N); exact H0. }
  split.
  - intros Ho. exists (xhr_onerror s).
    unfold uploadProductFile. rewrite Ho. fold sc. fold s.
    repeat split.
  - intros status parses Ho Hs. exists (xhr_onload (snd sc) s).
    unfold uploadProductFile. rewrite Ho, Hs. fold sc. fold s.
    cbn [xhr_onload active realPercent displayedPercent realLoaded displayedLoaded].
    rewrite Hsize. repeat split.
Qed.

Lemma failure_state_witness :
  exists s',
    uploadProductFile (failing_transport 500) (mkFile (lit "a.png") 1000) false
      (emit OnSuccess) (emit OnError) idle
    = emit OnError (mkWorld s' ([] ++ [Dispatch false]))
    /\ active s' = false
    /\ realPercent s' = 100%Q
    /\ displayedPercent s' = 100%Q
    /\ realLoaded s' = 1000%N
    /\ displayedLoaded s' = QofN 1000.
Proof.
  refine (proj2 (failure_state (failing_transport 500) (mkFile (lit "a.png") 1000)
                   false (emit OnSuccess) (emit OnError) idle) 500 false _ _);
    reflexivity.
Defined.

(** C5, counterexample.  An image upload answered with status 500 after one
    progress event and one animation frame: the job fails ([onError] runs,
    [done] does not), yet the raw percentage goes from 50 to 100 and the
    displayed percentage from 4 to 100. *)
Lemma failed_status_mutates_percent :
  let tr := failing_transport 500 in
  let file := mkFile (lit "a.png") 1000 in
  let before := fst (fold_left in_flight (inflight (tr false))
                       (begin file false (started (tr false)))) in
  let after := uploadProductFile tr file false (emit OnSuccess) (emit OnError)
                 idle in
  log after = [Dispatch false; OnError]
  /\ (realPercent before == 50)%Q
  /\ (displayedPercent before == 4)%Q
  /\ (realPercent (uploadState after) == 100)%Q
  /\ (displayedPercent (uploadState after) == 100)%Q
  /\ ~ (realPercent (uploadState after) == realPercent before)%Q
  /\ ~ (displayedPercent (uploadState after) == displayedPercent before)%Q.
Proof.
  vm_compute. repeat split; try reflexivity; discriminate.
Qed.

(** ** The display step *)




(** ** The displayed percentage over a transfer *)

Lemma transfer_states_nil (sc : UploadState * Closure) (o : Outcome) :
  transfer_states sc [] o = [fst sc; finish o sc].
Proof. reflexivity. Qed.

Lemma transfer_states_cons (sc : UploadState * Closure) (ev : InFlight)
  (evs : list InFlight) (o : Outcome) :
  transfer_states sc (ev :: evs) o
  = fst sc :: transfer_states (in_flight sc ev) evs o.
Proof. reflexivity. Qed.

Lemma transfer_states_head (sc : UploadState * Closure) (evs : list InFlight)
  (o : Outcome) :
  exists tl, transfer_states sc evs o = fst sc :: tl.
Proof. eexists. reflexivity. Qed.

Lemma nondecreasing_cons (a b : Q) (l : list Q) :
  nondecreasing (a :: b :: l) <-> (a <= b)%Q /\ nondecreasing (b :: l).
Proof. reflexivity. Qed.

Lemma in_flight_keeps_lag (sc : UploadState * Closure) (ev : InFlight) :
  lags (fst sc) ->
  (realPercent (fst sc) <= realPercent (fst (in_flight sc ev)))%Q ->
  lags (fst (in_flight sc ev))
  /\ (displayedPercent (fst sc) <= displayedPercent (fst (in_flight sc ev)))%Q.
Proof.
  destruct sc as [s c]. cbn [fst]. unfold lags.
  intros (H0 & Hlag & H100) Hmono.
  destruct ev as [ e | ]; unfold in_flight in *.
  - destruct (on_progress_displayed e (s, c)) as (Hd & _ & _).
    cbn [fst] in Hd. rewrite Hd.
    split; [ | apply Qle_refl ].
    split; [ exact H0 | ]. split; [ lra | ].
    rewrite on_progress_realPercent. cbn [fst].
    destruct (lengthComputable e && (0 <? ev_total e)%N); [ | exact H100 ].
    pose proof (progress_percent_bounds (loaded e) (ev_total e)). lra.
  - cbn [fst] in *. rewrite animate_realPercent, animate_displayedPercent.
    destruct (negb (active s) || indeterminate s).
    + repeat split; try assumption. apply Qle_refl.
    + destruct (Qgtb (filter_percent s) (995 # 10)).
      * repeat split; try assumption; lra.
      * unfold filter_percent, step. repeat split; try assumption; lra.
Qed.

Lemma lag_over_transfer (o : Outcome) (evs : list InFlight) :
  forall sc,
    lags (fst sc) ->
    nondecreasing (map realPercent (transfer_states sc evs o)) ->
    nondecreasing (map displayedPercent (transfer_states sc evs o))
    /\ Forall (fun s => (displayedPercent s <= realPercent s)%Q)
              (transfer_states sc evs o).
Proof.
  induction evs as [ | ev r IH ]; intros sc Hl Hmono.
  - rewrite transfer_states_nil in *. destruct Hl as (H0 & Hlag & H100).
    destruct o as [ status parses | ]; cbn; repeat split;
      repeat constructor; cbn; lra.
  - rewrite transfer_states_cons in *.
    destruct (transfer_states_head (in_flight sc ev) r o) as [tl Htl].
    rewrite Htl in Hmono. cbn [map] in Hmono.
    apply nondecreasing_cons in Hmono. destruct Hmono as [Hstep Hrest].
    destruct (in_flight_keeps_lag sc ev Hl Hstep) as [Hl' Hd].
    change (nondecreasing (map realPercent (fst (in_flight sc ev) :: tl))) in Hrest.
    rewrite <- Htl in Hrest.
    destruct (IH (in_flight sc ev) Hl' Hrest) as [IHmono IHlag].
    split.
    + rewrite Htl in *. cbn [map]. apply nondecreasing_cons. split; assumption.
    + constructor; [ | exact IHlag ]. destruct Hl as (_ & Hlag & _). exact Hlag.
Qed.

(** C7.  From the reset of a transfer through every progress event and
    animation frame to the end of the request, the displayed percentage stays
    within 0..100.  When the raw percentage never decreases along the
    transfer, the displayed percentage never decreases either and never
    exceeds the raw one. *)
Theorem displayedPercent_over_transfer (file : File) (v : bool) (t0 : Z)
  (evs : list InFlight) (o : Outcome) :
  let states := transfer_states (begin file v t0) evs o in
  Forall (fun s => (0 <= displayedPercent s <= 100)%Q) states
  /\ (nondecreasing (map realPercent states) ->
      nondecreasing (map displayedPercent states)
      /\ Forall (fun s => (displayedPercent s <= realPercent s)%Q) states).
Proof.
  intros states. split.
  - unfold states, transfer_states. apply Forall_app. split.
    + eapply Forall_impl; [ | apply trajectory_in_range ].
      intros st [[Hd0 Hd1] _]. split; lra.
    + constructor; [ | constructor ].
      destruct (last_in_flight_in_range file v t0 evs) as [[Hd0 Hd1] _].
      destruct o as [ status parses | ]; cbn [finish xhr_onload xhr_onerror displayedPercent];
        split; lra.
  - apply lag_over_transfer. unfold lags. simpl. repeat split; lra.
Qed.

Lemma displayedPercent_over_transfer_witness :
  nondecreasing
    (map displayedPercent
       (transfer_states (begin (mkFile (lit "a.png") 1000) false 0)
          sample_events (Load 200 true))).
Proof.
  refine (proj1 (proj2 (displayedPercent_over_transfer
                          (mkFile (lit "a.png") 1000) false 0
                          sample_events (Load 200 true)) _)).
  vm_compute. repeat split; discriminate.
Defined.

(** ** The upload chain *)

Lemma log_emit (e : Event) (w : World) : log (emit e w) = log w ++ [e].
Proof. reflexivity. Qed.

Lemma uploadProductFile_terminal (tr : Transport) (file : File) (v : bool)
  (w : World) :
  parseable_on_success tr ->
  log (uploadProductFile tr file v (emit OnSuccess) (emit OnError) w)
  = log w ++ Dispatch v :: (if accepted (tr v) then [OnSuccess] else [OnError]).
Proof.
  intros Hp. unfold uploadProductFile, accepted.
  destruct (outcome (tr v)) as [ status parses | ] eqn:Ho.
  - destruct (is_success status) eqn:Hs.
    + destruct parses.
      * rewrite log_emit. cbn [log andb]. rewrite <- app_assoc. reflexivity.
      * rewrite (Hp v status Ho) in Hs. discriminate.
    + rewrite log_emit. cbn [log andb]. rewrite <- app_assoc. reflexivity.
  - rewrite log_emit. cbn [log]. rewrite <- app_assoc. reflexivity.
Qed.

(** With responses that parse whenever the status is a success, a job runs
    the events the specification describes, and exactly one of [onSuccess]
    and [onError] fires, once. *)
Lemma saveProduct_job_events (tr : Transport) (image video : option File)
  (w : World) :
  parseable_on_success tr ->
  log (saveProduct tr image video w) = log w ++ job_events tr image video
  /\ (occurrences OnSuccess (job_events tr image video)
      + occurrences OnError (job_events tr image video) = 1)%nat.
Proof.
  intros Hp. split.
  - unfold saveProduct, job_events.
    destruct image as [ img | ].
    + unfold uploadProductFile at 1. unfold accepted at 1.
      destruct (outcome (tr false)) as [ status parses | ] eqn:Ho.
      * destruct (is_success status) eqn:Hs.
        -- destruct parses; [ | rewrite (Hp false status Ho) in Hs; discriminate ].
           cbn [andb]. destruct video as [ vid | ].
           ++ rewrite uploadProductFile_terminal by exact Hp.
              cbn [log]. rewrite <- app_assoc. reflexivity.
           ++ rewrite log_emit. cbn [log]. rewrite <- app_assoc. reflexivity.
        -- rewrite log_emit. cbn [log andb]. rewrite <- app_assoc. reflexivity.
      * rewrite log_emit. cbn [log]. rewrite <- app_assoc. reflexivity.
    + destruct video as [ vid | ].
      * apply uploadProductFile_terminal. exact Hp.
      * apply log_emit.
  - unfold job_events.
    destruct image, video; destruct (accepted (tr false));
      destruct (accepted (tr true)); reflexivity.
Qed.

(** C1, at the failing input.  An image upload answered with status 200 and
    a response text that does not parse: the [catch] branch calls [onError]
    and then [cb], so the job fires [onError] and then [onSuccess]. *)
Theorem malformed_response_fires_both :
  let out := saveProduct garbled_image_transport (Some sample_image) None idle in
  log out = [Dispatch false; OnError; OnSuccess]
  /\ occurrences OnError (log out) = 1%nat
  /\ occurrences OnSuccess (log out) = 1%nat.
Proof. repeat split. Qed.

(** C2, at the failing input.  With both files present and the image
    request answered with status 200 and a response text that does not
    parse, [onError] is called for the image and the video request is sent
    all the same. *)
Theorem malformed_response_continues_chain :
  let out := saveProduct garbled_image_transport
               (Some sample_image) (Some sample_video) idle in
  log out = [Dispatch false; OnError; Dispatch true; OnSuccess].
Proof. reflexivity. Qed.

(** The sequencing the specification describes, where no response is
    garbled: nothing is sent without a file; two accepted transfers are sent
    in order and followed by one [onSuccess]; after a failed image transfer
    the video is not sent. *)
Lemma saveProduct_sequencing (tr : Transport) (img vid : File) (w : World) :
  parseable_on_success tr ->
  log (saveProduct tr None None w) = log w ++ [OnSuccess]
  /\ (accepted (tr false) = true -> accepted (tr true) = true ->
      log (saveProduct tr (Some img) (Some vid) w)
      = log w ++ [Dispatch false; Dispatch true; OnSuccess])
  /\ (accepted (tr false) = false ->
      log (saveProduct tr (Some img) (Some vid) w)
      = log w ++ [Dispatch false; OnError]).
Proof.
  intros Hp. split; [ reflexivity | ]. split.
  - intros H1 H2.
    rewrite (proj1 (saveProduct_job_events tr (Some img) (Some vid) w Hp)).
    unfold job_events. rewrite H1, H2. reflexivity.
  - intros H1.
    rewrite (proj1 (saveProduct_job_events tr (Some img) (Some vid) w Hp)).
    unfold job_events. rewrite H1. reflexivity.
Qed.

(** * Further properties of the upload code *)

(** ** shortFileName: length and idempotence *)

Lemma shortFileName_short (name : JsString.t) (maxLen : option N) :
  len name <= maxLen_or_default maxLen -> shortFileName name maxLen = name.
Proof.
  intros Hle. unfold shortFileName.
  destruct (len name =? 0); [ reflexivity | ].
  destruct (Z.leb_spec (len name) (maxLen_or_default maxLen)); [ reflexivity | lia ].
Qed.

Lemma shortFileName_split (name : JsString.t) (maxLen : option N) :
  let m := maxLen_or_default maxLen in
  m < len name ->
  exists stem ext,
    name = stem ++ ext
    /\ len ext <= 5
    /\ shortFileName name maxLen
       = if m - len ext - 1 <? 8 then slice_to (m - 1) stem ++ [ellipsis]
         else slice_to (m - len ext - 1) stem ++ [ellipsis] ++ ext.
Proof.
  intros m Hgt. pose proof (maxLen_or_default_pos maxLen) as Hm. fold m in Hm.
  unfold shortFileName. fold m.
  destruct (Z.eqb_spec (len name) 0) as [ H0 | _ ]; [ lia | ].
  destruct (Z.leb_spec (len name) m) as [ Hle | _ ]; [ lia | ].
  cbn [orb].
  assert (Hnone : exists stem ext,
             name = stem ++ ext /\ len ext <= 5
             /\ (let '(ext0, name0) := ([], name) in
                 if m - len ext0 - 1 <? 8 then slice_to (m - 1) name0 ++ [ellipsis]
                 else slice_to (m - len ext0 - 1) name0 ++ [ellipsis] ++ ext0)
                = (if m - len ext - 1 <? 8 then slice_to (m - 1) stem ++ [ellipsis]
                   else slice_to (m - len ext - 1) stem ++ [ellipsis] ++ ext)).
  { exists name, []. split; [ symmetry; apply app_nil_r | ].
    split; [ unfold len; simpl; lia | reflexivity ]. }
  destruct (lastIndexOf_spec dot name) as [ [E NI] | (pre & post & E & K & NI) ].
  - rewrite E. cbn [Z.ltb Z.compare andb]. exact Hnone.
  - rewrite K.
    destruct ((0 <? len pre) && (len name - 6 <? len pre)) eqn:Hc; [ | exact Hnone ].
    apply andb_prop in Hc. destruct Hc as [Hc1 Hc2]. apply Z.ltb_lt in Hc2.
    destruct (slice_at_prefix pre (dot :: post)) as [Hto Hfrom].
    rewrite E, Hto, Hfrom.
    exists pre, (dot :: post). split; [ reflexivity | ].
    split; [ | reflexivity ].
    rewrite E, len_app in Hc2. lia.
Qed.

Lemma shortFileName_bounded (name : JsString.t) (maxLen : option N) :
  maxLen_or_default maxLen < len name ->
  len (shortFileName name maxLen) <= maxLen_or_default maxLen.
Proof.
  intros Hgt. pose proof (maxLen_or_default_pos maxLen) as Hm.
  destruct (shortFileName_split name maxLen Hgt) as (stem & ext & _ & _ & ->).
  apply (shortFileName_tail _ stem ext Hm).
Qed.

(** X1.  [shortFileName] never returns more code units than the limit allows
    or than the name has, and shortening a shortened name changes nothing. *)
Theorem shortFileName_idempotent (name : JsString.t) (maxLen : option N) :
  len (shortFileName name maxLen) <= Z.min (len name) (maxLen_or_default maxLen)
  /\ shortFileName (shortFileName name maxLen) maxLen = shortFileName name maxLen.
Proof.
  destruct (Z.le_gt_cases (len name) (maxLen_or_default maxLen)) as [ Hle | Hgt ].
  - rewrite (shortFileName_short name maxLen Hle). split; [ lia | ].
    apply shortFileName_short. exact Hle.
  - pose proof (shortFileName_bounded name maxLen ltac:(lia)) as Hb.
    split; [ lia | ]. apply shortFileName_short. exact Hb.
Qed.




(** ** What a transfer keeps fixed *)

Lemma in_flight_other_fields (s : UploadState) (c : Closure) (ev : InFlight) :
  label (fst (in_flight (s, c) ev)) = label s
  /\ total (fst (in_flight (s, c) ev)) = total s
  /\ active (fst (in_flight (s, c) ev)) = active s.
Proof.
  destruct ev as [ e | ]; unfold in_flight.
  - unfold on_progress.
    destruct (lengthComputable e && (0 <? ev_total e)%N);
      split; [ | split | | split ]; reflexivity.
  - cbn [fst]. unfold animateUploadProgress.
    destruct (active s) eqn:Ha; [ | cbn; rewrite ?Ha; auto ].
    destruct (indeterminate s); cbn; rewrite ?Ha; auto.
Qed.

Lemma finish_other_fields (o : Outcome) (sc : UploadState * Closure) :
  label (finish o sc) = label (fst sc)
  /\ total (finish o sc) = total (fst sc)
  /\ active (finish o sc) = false.
Proof. destruct o; repeat split. Qed.

Lemma transfer_states_invariant (P : UploadState -> Prop) :
  (forall s c ev, P s -> P (fst (in_flight (s, c) ev))) ->
  (forall o sc, P (fst sc) -> P (finish o sc)) ->
  forall sc evs o, P (fst sc) -> Forall P (transfer_states sc evs o).
Proof.
  intros Hstep Hend sc evs o H0. unfold transfer_states, trajectory.
  apply Forall_app. split.
  - constructor; [ exact H0 | ].
    apply states_after_invariant; assumption.
  - constructor; [ | constructor ].
    apply Hend. apply fold_in_flight_invariant; assumption.
Qed.

Lemma kind_name_length (v : bool) : len (kind_name v) <= 5.
Proof. destruct v; vm_compute; discriminate. Qed.

Lemma shortFileName_default_length (n : JsString.t) :
  len n <= 42 \/ len (shortFileName n None) <= 42.
Proof.
  destruct (Z.le_gt_cases (len n) 42) as [ Hle | Hgt ]; [ left; exact Hle | ].
  right. apply (shortFileName_bounded n None). simpl. lia.
Qed.

(** X3.  The label is fixed by the reset and stays the same through every
    event of the transfer: the kind, a colon and a space, and the shortened
    file name (the stand-in name when the file has none), 49 code units at
    most.  The [total] field stays the file size. *)
Theorem label_over_transfer (file : File) (v : bool) (t0 : Z)
  (evs : list InFlight) (o : Outcome) :
  let shown := match name file with [] => default_file_name | n => n end in
  Forall (fun s =>
            label s = kind_name v ++ lit ": " ++ shortFileName shown None
            /\ len (label s) <= 49
            /\ total s = size file)
         (transfer_states (begin file v t0) evs o).
Proof.
  intros shown.
  assert (Hlen : len (kind_name v ++ lit ": " ++ shortFileName shown None) <= 49).
  { rewrite !len_app. pose proof (kind_name_length v) as Hk.
    change (len (lit ": ")) with 2.
    destruct (shortFileName_default_length shown) as [ H | H ]; [ | lia ].
    rewrite (shortFileName_short shown None) by (simpl; lia). lia. }
  apply (transfer_states_invariant
           (fun s => label s = kind_name v ++ lit ": " ++ shortFileName shown None
                     /\ len (label s) <= 49 /\ total s = size file)).
  - intros s c ev (Hl & Hn & Ht).
    destruct (in_flight_other_fields s c ev) as (-> & -> & _). auto.
  - intros o' sc (Hl & Hn & Ht).
    destruct (finish_other_fields o' sc) as (-> & -> & _). auto.
  - cbn [begin fst label total]. fold shown.
    split; [ reflexivity | ]. split; [ exact Hlen | reflexivity ].
Qed.

(** ** The animation loop *)

Lemma Math_round_integer (z : Z) : Math_round (inject_Z z) = z.
Proof.
  rewrite (Math_round_frac _ z 1).
  - symmetry. apply Z.div_unique with (r := 1); lia.
  - lia.
  - unfold Qdiv. change (/ inject_Z 1)%Q with 1%Q. ring.
Qed.

Lemma Math_round_le (x : Q) (z : Z) : (x <= inject_Z z)%Q -> Math_round x <= z.
Proof.
  intros H. rewrite <- (Math_round_integer z). unfold Math_round.
  apply Qfloor_resp_le. lra.
Qed.

Lemma shown_percent_bounds (d : Q) :
  (0 <= d <= 99)%Q ->
  (0 <= Qmin (999 # 10) (inject_Z (Math_round (d * 10)) / 10) <= 99)%Q.
Proof.
  intros [H0 H99].
  assert (Hlo : 0 <= Math_round (d * 10)) by (apply Math_round_nonneg; lra).
  assert (Hhi : Math_round (d * 10) <= 990).
  { apply Math_round_le. change (inject_Z 990) with 990%Q. lra. }
  apply inject_Z_nonneg in Hlo.
  rewrite Zle_Qle in Hhi. change (inject_Z 990) with 990%Q in Hhi.
  set (r := inject_Z (Math_round (d * 10))) in *.
  assert (Hr : (0 <= r / 10 <= 99)%Q).
  { split; [ apply Qle_shift_div_l | apply Qle_shift_div_r ];
      try reflexivity; lra. }
  split.
  - apply Q.min_glb; [ lra | apply Hr ].
  - eapply Qle_trans; [ apply Q.le_min_r | apply Hr ].
Qed.

Lemma trajectory_active (file : File) (v : bool) (t0 : Z) (evs : list InFlight) :
  Forall (fun s => active s = true) (trajectory (begin file v t0) evs).
Proof.
  unfold trajectory. constructor; [ reflexivity | ].
  apply states_after_invariant; [ | reflexivity ].
  intros s c ev H. destruct (in_flight_other_fields s c ev) as (_ & _ & ->).
  exact H.
Qed.

(** X4.  While a request is in flight every animation frame asks for the
    next one, and a frame that writes the bar writes a width between 0 and 99
    percent: the loop's own stop test never fires before the request ends.
    Once the request has ended, a frame writes nothing, changes nothing and
    asks for no further frame. *)
Theorem animation_runs_while_in_flight (file : File) (v : bool) (t0 : Z)
  (evs : list InFlight) (o : Outcome) :
  Forall (fun s =>
            rescheduled (animateUploadProgress s) = true
            /\ forall p, pctShow (animateUploadProgress s) = Some p ->
                         (0 <= p <= 99)%Q)
         (trajectory (begin file v t0) evs)
  /\ (let s := finish o (fold_left in_flight evs (begin file v t0)) in
      animateUploadProgress s = mkFrame s None false).
Proof.
  split.
  - pose proof (trajectory_active file v t0 evs) as Ha.
    pose proof (trajectory_in_range file v t0 evs) as Hr.
    rewrite Forall_forall in *. intros s Hin.
    specialize (Ha s Hin). specialize (Hr s Hin).
    pose proof (in_flight_keeps_range s (mkClosure v 0 0 0) AnimationFrame Hr) as Hn.
    cbn [in_flight fst] in Hn. destruct Hn as [Hd' _].
    destruct Hr as [_ [_ Hr99]].
    revert Hd'. unfold animateUploadProgress. rewrite Ha. cbn [negb].
    destruct (indeterminate s).
    + intros _. split; [ reflexivity | ]. intros p Hp. discriminate Hp.
    + cbn [frame_state displayedPercent rescheduled pctShow]. intros Hd'.
      split.
      * apply negb_true_iff, andb_false_iff. right.
        apply not_true_iff_false. unfold Qgeb. rewrite Qle_bool_iff. lra.
      * intros p Hp. injection Hp as <-. apply shown_percent_bounds. exact Hd'.
  - intros s. unfold animateUploadProgress.
    destruct (finish_other_fields o (fold_left in_flight evs (begin file v t0)))
      as (_ & _ & Hact).
    fold s in Hact. rewrite Hact. reflexivity.
Qed.

(** ** Indeterminate mode *)

Lemma in_flight_indeterminate (size0 : N) (s : UploadState) (c : Closure)
  (ev : InFlight) :
  (indeterminate s = true ->
   displayedPercent s = 0%Q /\ displayedLoaded s = 0%Q
   /\ realPercent s = 0%Q /\ size0 = 0%N) ->
  (indeterminate (fst (in_flight (s, c) ev)) = true ->
   displayedPercent (fst (in_flight (s, c) ev)) = 0%Q
   /\ displayedLoaded (fst (in_flight (s, c) ev)) = 0%Q
   /\ realPercent (fst (in_flight (s, c) ev)) = 0%Q /\ size0 = 0%N).
Proof.
  intros H. destruct ev as [ e | ]; unfold in_flight.
  - unfold on_progress.
    destruct (lengthComputable e && (0 <? ev_total e)%N); cbn; [ discriminate | exact H ].
  - cbn [fst]. unfold animateUploadProgress.
    destruct (active s); [ | exact H ].
    destruct (indeterminate s) eqn:Hi; cbn;
      [ intros _; apply H; reflexivity | discriminate ].
Qed.

Lemma in_flight_determinate (s : UploadState) (c : Closure) (ev : InFlight) :
  indeterminate s = false -> indeterminate (fst (in_flight (s, c) ev)) = false.
Proof.
  intros H. destruct ev as [ e | ]; unfold in_flight.
  - unfold on_progress.
    destruct (lengthComputable e && (0 <? ev_total e)%N); [ reflexivity | exact H ].
  - cbn [fst]. unfold animateUploadProgress.
    destruct (active s); [ | exact H ].
    rewrite H. reflexivity.
Qed.

(** X7.  A transfer is indeterminate only for a file of size 0 and only
    until the first progress event with a known positive total; as long as it
    is, the three percent and byte figures it shows are still those of the
    reset (all 0), and an animation frame writes nothing and asks for the
    next frame.  Once determinate, the transfer stays determinate. *)
Theorem indeterminate_mode (file : File) (v : bool) (t0 : Z)
  (evs : list InFlight) :
  Forall (fun s =>
            indeterminate s = true ->
            displayedPercent s = 0%Q /\ displayedLoaded s = 0%Q
            /\ realPercent s = 0%Q /\ size file = 0%N
            /\ animateUploadProgress s = mkFrame s None true)
         (trajectory (begin file v t0) evs)
  /\ (forall e more c s,
        lengthComputable e = true -> (0 < ev_total e)%N ->
        Forall (fun st => indeterminate st = false)
               (states_after (s, c) (Progress e :: more))).
Proof.
  split.
  - assert (H : Forall (fun s => indeterminate s = true ->
                          displayedPercent s = 0%Q /\ displayedLoaded s = 0%Q
                          /\ realPercent s = 0%Q /\ size file = 0%N)
                  (trajectory (begin file v t0) evs)).
    { unfold trajectory. constructor.
      - cbn. intros H. apply N.eqb_eq in H. auto.
      - apply states_after_invariant.
        + intros s c ev. apply in_flight_indeterminate.
        + cbn. intros H. apply N.eqb_eq in H. auto. }
    pose proof (trajectory_active file v t0 evs) as Ha.
    rewrite Forall_forall in *. intros s Hin Hi.
    destruct (H s Hin Hi) as (H1 & H2 & H3 & H4).
    repeat (split; [ assumption | ]).
    unfold animateUploadProgress. rewrite (Ha s Hin), Hi. reflexivity.
  - intros e more c s Hlc Ht. cbn [states_after].
    assert (H0 : indeterminate (fst (in_flight (s, c) (Progress e))) = false).
    { unfold in_flight, on_progress. rewrite Hlc.
      apply N.ltb_lt in Ht. rewrite Ht. reflexivity. }
    constructor; [ exact H0 | ].
    apply states_after_invariant; [ | exact H0 ].
    intros s1 c1 ev. apply in_flight_determinate.
Qed.

Lemma indeterminate_mode_witness :
  Forall (fun st => indeterminate st = false)
         (states_after (begin (mkFile (lit "a.bin") 0) false 0)
            [Progress (mkProgressEvent 10 200 true 100); AnimationFrame]).
Proof.
  refine (proj2 (indeterminate_mode (mkFile (lit "a.bin") 0) false 0 [])
            (mkProgressEvent 10 200 true 100) [AnimationFrame] _ _ _ _);
    reflexivity.
Defined.

(** ** Convergence of the displayed percentage *)

Lemma frames_succ (n : nat) (s : UploadState) :
  frames (S n) s = frame_state (animateUploadProgress (frames n s)).
Proof. reflexivity. Qed.

Lemma Qpower_succ_nat (q : Q) (n : nat) :
  ~ (q == 0)%Q -> (q ^ Z.of_nat (S n) == q ^ Z.of_nat n * q)%Q.
Proof.
  intros Hq. rewrite Nat2Z.inj_succ, <- Z.add_1_r.
  rewrite (Qpower_plus q (Z.of_nat n) 1 Hq). reflexivity.
Qed.

(** X5.  On an active, determinate state whose raw and displayed percentages
    are at most 99.5 (every state of a request in flight), [n] animation
    frames without a progress event leave the raw percentage alone and move
    the displayed percentage to [raw - (raw - displayed) * 0.92^n]: each
    frame closes 8 percent of the remaining gap. *)
Theorem frames_closed_form (n : nat) (s : UploadState) :
  active s = true ->
  indeterminate s = false ->
  (realPercent s <= 995 # 10)%Q ->
  (displayedPercent s <= 995 # 10)%Q ->
  (displayedPercent (frames n s)
   == realPercent s
      - (realPercent s - displayedPercent s) * (92 # 100) ^ Z.of_nat n)%Q
  /\ realPercent (frames n s) = realPercent s
  /\ active (frames n s) = true.
Proof.
  intros Ha Hi Hr Hd.
  assert (H : (displayedPercent (frames n s)
               == realPercent s
                  - (realPercent s - displayedPercent s) * (92 # 100) ^ Z.of_nat n)%Q
              /\ realPercent (frames n s) = realPercent s
              /\ active (frames n s) = true
              /\ indeterminate (frames n s) = false
              /\ (displayedPercent (frames n s) <= 995 # 10)%Q).
  { induction n as [ | n IH ].
    - change (frames 0 s) with s. change ((92 # 100) ^ Z.of_nat 0)%Q with 1%Q.
      split; [ ring | auto ].
    - destruct IH as (IHd & IHr & IHa & IHi & IHb).
      rewrite frames_succ. set (t := frames n s) in *.
      assert (Hflt : (filter_percent t <= 995 # 10)%Q).
      { unfold filter_percent, step. rewrite IHr. lra. }
      assert (Hdp : displayedPercent (frame_state (animateUploadProgress t))
                    = filter_percent t).
      { rewrite animate_displayedPercent, IHa, IHi. cbn [negb orb].
        rewrite (proj2 (Qgtb_false _ _) Hflt). reflexivity. }
      rewrite Hdp, animate_realPercent.
      destruct (in_flight_other_fields t (mkClosure false 0 0 0) AnimationFrame)
        as (_ & _ & Hact).
      cbn [in_flight fst] in Hact.
      pose proof (in_flight_determinate t (mkClosure false 0 0 0) AnimationFrame IHi)
        as Hdet.
      cbn [in_flight fst] in Hdet.
      split; [ | split; [ exact IHr | split; [ rewrite Hact; exact IHa
                                              | split; [ exact Hdet | exact Hflt ] ] ] ].
      unfold filter_percent, step. rewrite IHr, IHd.
      rewrite (Qpower_succ_nat (92 # 100) n) by discriminate. ring. }
  destruct H as (H1 & H2 & H3 & _). auto.
Qed.

Lemma frames_closed_form_witness :
  (displayedPercent (frames 2 half_way_state)
   == realPercent half_way_state
      - (realPercent half_way_state - displayedPercent half_way_state)
        * (92 # 100) ^ Z.of_nat 2)%Q.
Proof.
  refine (proj1 (frames_closed_form 2 half_way_state _ _ _ _));
    try reflexivity; vm_compute; discriminate.
Defined.

(** ** The displayed byte count over a transfer *)

Lemma on_progress_realLoaded (e : ProgressEvent) (sc : UploadState * Closure) :
  realLoaded (fst (on_progress e sc)) = loaded e.
Proof.
  destruct sc as [s c]. unfold on_progress.
  destruct (lengthComputable e && (0 <? ev_total e)%N); reflexivity.
Qed.

Lemma animate_realLoaded (s : UploadState) :
  realLoaded (frame_state (animateUploadProgress s)) = realLoaded s.
Proof.
  unfold animateUploadProgress.
  destruct (active s); [ | reflexivity ].
  destruct (indeterminate s); reflexivity.
Qed.

Lemma animate_displayedLoaded (s : UploadState) :
  displayedLoaded (frame_state (animateUploadProgress s))
  = if negb (active s) || indeterminate s then displayedLoaded s
    else if Qgtb (filter_loaded s) (QofN (realTotal s) - 100)
         then QofN (realLoaded s)
         else filter_loaded s.
Proof.
  unfold animateUploadProgress.
  destruct (active s); [ | reflexivity ].
  destruct (indeterminate s); reflexivity.
Qed.

Lemma in_flight_keeps_byte_lag (sc : UploadState * Closure) (ev : InFlight) :
  lags_bytes (fst sc) ->
  (rawBytes (fst sc) <= rawBytes (fst (in_flight sc ev)))%Q ->
  lags_bytes (fst (in_flight sc ev))
  /\ (displayedLoaded (fst sc) <= displayedLoaded (fst (in_flight sc ev)))%Q.
Proof.
  destruct sc as [s c]. cbn [fst]. unfold lags_bytes, rawBytes.
  intros (H0 & Hlag) Hmono.
  destruct ev as [ e | ]; unfold in_flight in *.
  - destruct (on_progress_displayed e (s, c)) as (_ & Hd & _).
    cbn [fst] in Hd. rewrite Hd.
    split; [ | apply Qle_refl ].
    split; [ exact H0 | lra ].
  - cbn [fst] in *. rewrite animate_realLoaded, animate_displayedLoaded.
    destruct (negb (active s) || indeterminate s).
    + repeat split; try assumption. apply Qle_refl.
    + destruct (Qgtb (filter_loaded s) (QofN (realTotal s) - 100)).
      * repeat split; try assumption; lra.
      * unfold filter_loaded, step. repeat split; try assumption; lra.
Qed.

Lemma byte_lag_over_transfer (o : Outcome) (evs : list InFlight) :
  forall sc,
    lags_bytes (fst sc) ->
    nondecreasing (map rawBytes (transfer_states sc evs o)) ->
    nondecreasing (map displayedLoaded (transfer_states sc evs o))
    /\ Forall lags_bytes (transfer_states sc evs o).
Proof.
  induction evs as [ | ev r IH ]; intros sc Hl Hmono.
  - rewrite transfer_states_nil in *. pose proof Hl as (H0 & Hlag).
    destruct o as [ status parses | ].
    + cbn [map] in *. apply nondecreasing_cons in Hmono.
      destruct Hmono as [Hstep _].
      unfold rawBytes in Hstep. cbn [finish xhr_onload realLoaded] in Hstep.
      split.
      * apply nondecreasing_cons. split; [ | exact I ].
        cbn [finish xhr_onload displayedLoaded]. lra.
      * constructor; [ exact Hl | ]. constructor; [ | constructor ].
        unfold lags_bytes. cbn [finish xhr_onload displayedLoaded realLoaded].
        split; [ apply QofN_nonneg | apply Qle_refl ].
    + split.
      * cbn [map]. apply nondecreasing_cons. split; [ apply Qle_refl | exact I ].
      * constructor; [ exact Hl | ]. constructor; [ exact Hl | constructor ].
  - rewrite transfer_states_cons in *.
    destruct (transfer_states_head (in_flight sc ev) r o) as [tl Htl].
    rewrite Htl in Hmono. cbn [map] in Hmono.
    apply nondecreasing_cons in Hmono. destruct Hmono as [Hstep Hrest].
    destruct (in_flight_keeps_byte_lag sc ev Hl Hstep) as [Hl' Hd].
    change (nondecreasing (map rawBytes (fst (in_flight sc ev) :: tl))) in Hrest.
    rewrite <- Htl in Hrest.
    destruct (IH (in_flight sc ev) Hl' Hrest) as [IHmono IHlag].
    split.
    + rewrite Htl in *. cbn [map]. apply nondecreasing_cons. split; assumption.
    + constructor; [ exact Hl | exact IHlag ].
Qed.

(** X6.  When the raw byte count never decreases along a transfer (reset,
    progress events and animation frames, then load or error), the displayed
    byte count never decreases either, is never negative and never exceeds
    the raw count. *)
Theorem displayedLoaded_over_transfer (file : File) (v : bool) (t0 : Z)
  (evs : list InFlight) (o : Outcome) :
  let states := transfer_states (begin file v t0) evs o in
  nondecreasing (map rawBytes states) ->
  nondecreasing (map displayedLoaded states)
  /\ Forall (fun s => (0 <= displayedLoaded s <= QofN (realLoaded s))%Q) states.
Proof.
  intros states Hmono.
  destruct (byte_lag_over_transfer o evs (begin file v t0)) as [H1 H2].
  - unfold lags_bytes. cbn [begin fst displayedLoaded realLoaded].
    split; [ apply Qle_refl | apply QofN_nonneg ].
  - exact Hmono.
  - split; [ exact H1 | ].
    eapply Forall_impl; [ | exact H2 ]. intros s Hs. exact Hs.
Qed.

Lemma displayedLoaded_over_transfer_witness :
  nondecreasing
    (map displayedLoaded
       (transfer_states (begin sample_image false 0) sample_events (Load 200 true))).
Proof.
  refine (proj1 (displayedLoaded_over_transfer sample_image false 0
                   sample_events (Load 200 true) _)).
  vm_compute. repeat split; discriminate.
Defined.

(** ** Every job, whatever the transport answers *)

Lemma uploadProductFile_log (tr : Transport) (file : File) (v : bool)
  (cb : Callback) (next : list Event) (w : World) :
  (forall w0, log (cb w0) = log w0 ++ next) ->
  log (uploadProductFile tr file v cb (emit OnError) w)
  = log w ++ Dispatch v :: exchange_trace (tr v) next.
Proof.
  intros Hcb. unfold uploadProductFile, exchange_trace.
  destruct (outcome (tr v)) as [ status parses | ].
  - destruct (is_success status).
    + destruct parses; rewrite Hcb.
      * cbn [log]. rewrite <- app_assoc. reflexivity.
      * rewrite log_emit. cbn [log]. rewrite <- !app_assoc. reflexivity.
    + rewrite log_emit. cbn [log]. rewrite <- app_assoc. reflexivity.
  - rewrite log_emit. cbn [log]. rewrite <- app_assoc. reflexivity.
Qed.

Lemma saveProduct_log (tr : Transport) (image video : option File) (w : World) :
  log (saveProduct tr image video w) = log w ++ job_trace tr image video.
Proof.
  unfold saveProduct, job_trace.
  destruct image as [ img | ]; destruct video as [ vid | ].
  - apply uploadProductFile_log. intros w0.
    apply uploadProductFile_log. intros w1. apply log_emit.
  - apply uploadProductFile_log. intros w0. apply log_emit.
  - apply uploadProductFile_log. intros w0. apply log_emit.
  - apply log_emit.
Qed.

Ltac job_cases tr image video :=
  unfold job_trace, exchange_trace;
  destruct image as [ ? | ]; destruct video as [ ? | ];
  destruct (outcome (tr false)) as [ ? [ | ] | ];
  destruct (outcome (tr true)) as [ ? [ | ] | ];
  repeat match goal with
         | |- context [ is_success ?s ] => destruct (is_success s)
         end.

(** X8.  Whatever files are present and however the requests end, a job
    sends at most the image request and then the video request, each only
    for a file that is present; it always ends with [done] or with the
    [onError] argument, so the save button is always released; [done] runs
    at most once and nothing runs after it; [onError] runs at most twice. *)
Theorem job_always_resolves (tr : Transport) (image video : option File)
  (w : World) :
  exists pre e,
    log (saveProduct tr image video w) = log w ++ pre ++ [e]
    /\ (e = OnSuccess \/ e = OnError)
    /\ occurrences OnSuccess pre = 0%nat
    /\ (occurrences OnError (pre ++ [e]) <= 2)%nat
    /\ In (sent_flags (pre ++ [e])) [[]; [false]; [true]; [false; true]]
    /\ (In false (sent_flags (pre ++ [e])) -> image <> None)
    /\ (In true (sent_flags (pre ++ [e])) -> video <> None).
Proof.
  rewrite saveProduct_log.
  exists (removelast (job_trace tr image video)), (last (job_trace tr image video) OnError).
  assert (Hne : job_trace tr image video <> []).
  { job_cases tr image video; discriminate. }
  rewrite <- (app_removelast_last OnError Hne).
  split; [ reflexivity | ].
  clear Hne.
  job_cases tr image video; cbn;
    (split; [ auto | ]); (split; [ reflexivity | ]); (split; [ lia | ]);
    (split; [ tauto | ]); split; intros H; try discriminate;
    repeat destruct H as [ H | H ]; try discriminate; try contradiction.
Qed.

(** X9.  The video request is sent exactly when a video file is present and
    either no image file is present or the image request ended with a
    response whose status is in 200..299, whether or not its text parsed;
    the image request is sent exactly when an image file is present. *)
Theorem video_request_gate (tr : Transport) (image video : option File)
  (w : World) :
  exists trace,
    log (saveProduct tr image video w) = log w ++ trace
    /\ (In (Dispatch false) trace <-> image <> None)
    /\ (In (Dispatch true) trace <->
        video <> None
        /\ (image = None
            \/ exists status parses,
                 outcome (tr false) = Load status parses
                 /\ is_success status = true)).
Proof.
  exists (job_trace tr image video). split; [ apply saveProduct_log | ].
  unfold job_trace, exchange_trace.
  destruct image as [ img | ]; destruct video as [ vid | ];
    destruct (outcome (tr false)) as [ s1 [ | ] | ] eqn:Ho1;
    destruct (outcome (tr true)) as [ s2 [ | ] | ];
    try destruct (is_success s1) eqn:Hs1; try destruct (is_success s2);
    cbn; split; split;
    try (intros H; repeat destruct H as [ H | H ]; try discriminate;
         try contradiction; fail);
    try (intros _; auto; fail);
    try (intros [Hv _]; contradiction Hv; reflexivity);
    try (intros _; split; [ discriminate | ]; auto; right; eauto; fail);
    try (intros [_ [ Hi | (st & ps & Hl & Hs) ]];
         [ discriminate | injection Hl as <- _; congruence ]);
    try (intros [_ [ Hi | (st & ps & Hl & Hs) ]]; discriminate).
Qed.

Lemma in_flight_fileSize (sc : UploadState * Closure) (ev : InFlight) :
  fileSize (snd (in_flight sc ev)) = fileSize (snd sc).
Proof.
  destruct sc as [s c]. destruct ev as [ e | ]; [ | reflexivity ].
  unfold in_flight, on_progress.
  destruct (lengthComputable e && (0 <? ev_total e)%N); reflexivity.
Qed.

Lemma fold_in_flight_fileSize (evs : list InFlight) (sc : UploadState * Closure) :
  fileSize (snd (fold_left in_flight evs sc)) = fileSize (snd sc).
Proof.
  revert sc. induction evs as [ | ev r IH ]; intros sc; [ reflexivity | ].
  cbn [fold_left]. rewrite IH. apply in_flight_fileSize.
Qed.

Lemma last_after (l trace : list Event) (d : Event) :
  trace <> [] -> last (l ++ trace) d = last trace d.
Proof.
  intros Hne. destruct (exists_last Hne) as (pre & e & ->).
  rewrite app_assoc, !last_last. reflexivity.
Qed.

Lemma loaded_state (file : File) (v : bool) (ex : Exchange) :
  let s := xhr_onload (snd (fold_left in_flight (inflight ex) (begin file v (started ex))))
             (fst (fold_left in_flight (inflight ex) (begin file v (started ex)))) in
  active s = false
  /\ realPercent s = 100%Q /\ displayedPercent s = 100%Q
  /\ realLoaded s = size file /\ displayedLoaded s = QofN (size file).
Proof.
  cbn [xhr_onload active realPercent displayedPercent realLoaded displayedLoaded].
  rewrite fold_in_flight_fileSize. repeat split.
Qed.

(** X10.  A job without files leaves the upload state alone.  A job with a
    file always ends with the state inactive; when it ends with [done], the
    state is that of a completed transfer of the last file sent (the video if
    there is one, else the image): both percentages 100 and both byte counts
    the size of that file. *)
Theorem job_final_state (tr : Transport) (image video : option File) (w : World) :
  let out := saveProduct tr image video w in
  (image = None -> video = None -> uploadState out = uploadState w)
  /\ (image <> None \/ video <> None -> active (uploadState out) = false)
  /\ (forall f,
        last_file image video = Some f ->
        last (log out) OnError = OnSuccess ->
        realPercent (uploadState out) = 100%Q
        /\ displayedPercent (uploadState out) = 100%Q
        /\ realLoaded (uploadState out) = size f
        /\ displayedLoaded (uploadState out) = QofN (size f)).
Proof.
  intros out. split; [ intros -> ->; reflexivity | ].
  split.
  - intros Hsome. unfold out, saveProduct, uploadProductFile, emit.
    destruct image as [ img | ]; destruct video as [ vid | ];
      try (destruct Hsome as [ H | H ]; contradiction H; reflexivity);
      destruct (outcome (tr false)) as [ s1 [ | ] | ];
      destruct (outcome (tr true)) as [ s2 [ | ] | ];
      try destruct (is_success s1); try destruct (is_success s2);
      reflexivity.
  - intros f Hf Hlast.
    assert (Hne : job_trace tr image video <> []).
    { job_cases tr image video; discriminate. }
    unfold out in Hlast. rewrite saveProduct_log, (last_after _ _ _ Hne) in Hlast.
    clear Hne. revert Hlast. unfold out, saveProduct, uploadProductFile, emit.
    unfold job_trace, exchange_trace.
    destruct image as [ img | ]; destruct video as [ vid | ];
      cbn [last_file] in Hf; try discriminate Hf; injection Hf as <-;
      destruct (outcome (tr false)) as [ s1 [ | ] | ];
      destruct (outcome (tr true)) as [ s2 [ | ] | ];
      try destruct (is_success s1); try destruct (is_success s2);
      cbn [last]; intros Hlast; try discriminate Hlast;
      cbn [uploadState];
      match goal with
      | |- context [ begin ?file ?v (started ?ex) ] =>
          destruct (loaded_state file v ex) as (_ & H1 & H2 & H3 & H4);
          auto
      end.
Qed.

Lemma job_final_state_witness :
  realPercent
    (uploadState (saveProduct garbled_image_transport
                    (Some sample_image) (Some sample_video) idle)) = 100%Q.
Proof.
  refine (proj1 (proj2 (proj2 (job_final_state garbled_image_transport
                                 (Some sample_image) (Some sample_video) idle))
                   sample_video _ _));
    reflexivity.
Defined.

(** ** formatBytes: the number shown *)

Lemma scaled_tenths_range (n i : N) :
  (1024 ^ i <= n < 1024 ^ (i + 1))%N ->
  (10 <= scaled_tenths n i <= 10240)%N.
Proof.
  intros [Hlo Hhi]. unfold scaled_tenths.
  rewrite N.add_1_r, N.pow_succ_r' in Hhi.
  assert (Hd : (0 < 1024 ^ i)%N).
  { apply N.neq_0_lt_0, N.pow_nonzero. discriminate. }
  set (d := (1024 ^ i)%N) in *.
  split.
  - apply N.div_le_lower_bound; lia.
  - apply N.lt_succ_r. apply N.Div0.div_lt_upper_bound; lia.
Qed.

Lemma scaled_tenths_monotone (n n' i : N) :
  (n <= n')%N -> (scaled_tenths n i <= scaled_tenths n' i)%N.
Proof.
  intros H. unfold scaled_tenths. apply N.Div0.div_le_mono. lia.
Qed.

(** X11.  Below 1024 bytes [formatBytes] prints the byte count itself.
    From 1024 bytes up to (not including) 1024^4 it prints a number between 1
    and 1024 inclusive, in tenths, followed by a space and the KB, MB or GB
    unit; within one unit a larger byte count never prints a smaller
    number. *)
Theorem formatBytes_number_shown (n : N) :
  (0 < n < 1024 ^ 4)%N ->
  ((n < 1024)%N -> formatBytes n = decimal n ++ [space; cyr_B])
  /\ ((1024 <= n)%N ->
      exists t,
        t = scaled_tenths n (tier n)
        /\ (10 <= t <= 10240)%N
        /\ (1 <= tier n <= 3)%N
        /\ formatBytes n
           = (if (t mod 10 =? 0)%N then decimal (t / 10)%N
              else decimal (t / 10)%N ++ [dot] ++ decimal (t mod 10)%N)
             ++ [space] ++ nth (N.to_nat (tier n)) sizes []
        /\ forall n', (n <= n')%N -> tier n' = tier n ->
                      (t <= scaled_tenths n' (tier n'))%N).
Proof.
  intros Hn.
  assert (Hspec : formatBytes n = formatBytes_spec n)
    by (apply formatBytes_refines_spec; lia).
  assert (Hnz : (n =? 0)%N = false) by (apply N.eqb_neq; lia).
  split.
  - intros Hlt. rewrite Hspec. unfold formatBytes_spec, scaled_numeral, tier.
    rewrite Hnz. apply N.ltb_lt in Hlt. rewrite Hlt. reflexivity.
  - intros Hge. exists (scaled_tenths n (tier n)).
    pose proof (tier_spec n Hn) as Hw.
    pose proof (tier_le_3 n) as H3.
    assert (H1 : (1 <= tier n)%N).
    { unfold tier. destruct (N.ltb_spec n 1024); [ lia | ].
      repeat match goal with |- context [ (?a <? ?b)%N ] => destruct (a <? b)%N end;
        lia. }
    split; [ reflexivity | ].
    split; [ apply scaled_tenths_range; exact Hw | ].
    split; [ lia | ].
    split.
    + rewrite Hspec. unfold formatBytes_spec, scaled_numeral. rewrite Hnz.
      assert (Ht : (tier n =? 0)%N = false) by (apply N.eqb_neq; lia).
      rewrite Ht. reflexivity.
    + intros n' Hle ->. apply scaled_tenths_monotone. exact Hle.
Qed.

Lemma formatBytes_number_shown_witness :
  formatBytes 1000 = decimal 1000 ++ [space; cyr_B].
Proof.
  refine (proj1 (formatBytes_number_shown 1000 _) _);
    [ split; reflexivity | reflexivity ].
Defined.

(** * The session, api and the settings forms *)

(** ** The session *)

Lemma jsstring_eqb_eq (a b : JsString.t) : jsstring_eqb a b = true <-> a = b.
Proof.
  revert b. induction a as [ | x a IH ]; intros [ | y b ]; cbn.
  - tauto.
  - split; discriminate.
  - split; discriminate.
  - rewrite andb_true_iff, N.eqb_eq, IH. split.
    + intros [-> ->]. reflexivity.
    + intros H. injection H as -> ->. auto.
Qed.

Lemma jsstring_eqb_refl (a : JsString.t) : jsstring_eqb a a = true.
Proof. apply jsstring_eqb_eq. reflexivity. Qed.

Lemma jsstring_eqb_neq (a b : JsString.t) : jsstring_eqb a b = false <-> a <> b.
Proof.
  rewrite <- not_true_iff_false, jsstring_eqb_eq. tauto.
Qed.

(** X12.  The token and the user name are stored independently and read
    back as written; [logout] empties both; the request headers carry
    [X-Admin-Token] exactly when the stored token is not empty, with the
    stored token as its value, so after [logout] no header carries a
    token. *)
Theorem session_round_trip (st : Storage) (t u : JsString.t) (omit : bool) :
  getToken (setToken t st) = t
  /\ getUsername (setUsername u st) = u
  /\ getToken (setUsername u st) = getToken st
  /\ getUsername (setToken t st) = getUsername st
  /\ getToken (logout st) = []
  /\ getUsername (logout st) = []
  /\ (forall v, In (lit "X-Admin-Token", v) (headers omit st)
                <-> v = getToken st /\ v <> [])
  /\ headers omit (logout st)
     = if omit then [] else [(lit "Content-Type", lit "application/json")].
Proof.
  repeat (split; [ reflexivity | ]).
  split; [ | destruct omit; reflexivity ].
  intros v. unfold headers.
  destruct (getToken st) as [ | x r ] eqn:Ht; cbn [is_empty].
  - split.
    + destruct omit; cbn; [ tauto | ].
      intros [ H | [] ]. discriminate H.
    + intros [-> H]. contradiction H. reflexivity.
  - rewrite in_app_iff. split.
    + intros [ H | [ H | [] ] ].
      * destruct omit; [ destruct H | ].
        destruct H as [ H | [] ]. discriminate H.
      * injection H as <-. split; [ reflexivity | discriminate ].
    + intros [-> _]. right. left. reflexivity.
Qed.

(** ** api *)

Section ApiProperties.

Context {Json : Type}.
Variable JSON_parse : JsString.t -> option Json.
Variable JSON_error : Json -> option JsString.t.

Let call := api Json JSON_parse JSON_error.

(** X13.  A response with status 403 always makes [api] throw "Forbidden"
    and clear the stored token and user name, whatever else the response
    holds; any other response leaves the storage alone.  [api] throws exactly
    for status 403 and for a response that is neither a redirect with a URL
    nor in 200..299.  A 2xx response that is not a redirect never throws: it
    yields the parsed JSON, or the raw text when the text does not parse. *)
Theorem api_outcomes (st : Storage) (res : Response) :
  (res_status res = 403 ->
   snd (call st res) = Thrown (lit "Forbidden")
   /\ getToken (fst (call st res)) = []
   /\ getUsername (fst (call st res)) = []
   /\ forall v, ~ In (lit "X-Admin-Token", v) (headers false (fst (call st res))))
  /\ (res_status res <> 403 -> fst (call st res) = st)
  /\ ((exists m, snd (call st res) = Thrown m)
      <-> res_status res = 403
          \/ ((res_redirected res = false \/ res_url res = [])
              /\ is_success (res_status res) = false))
  /\ (is_success (res_status res) = true ->
      res_redirected res = false \/ res_url res = [] ->
      snd (call st res)
      = match JSON_parse (res_text res) with
        | Some j => Parsed j
        | None => Raw (res_text res)
        end).
Proof.
  unfold call, api.
  destruct (Z.eqb_spec (res_status res) 403) as [ E | NE ].
  - split; [ intros _ | split; [ intros H; contradiction | split ] ].
    + cbn [fst snd]. repeat split. intros v [ H | [] ]. discriminate H.
    + cbn [snd]. split; [ intros _; left; exact E | intros _; eauto ].
    + rewrite E. intros H. discriminate H.
  - split; [ intros H; contradiction | ].
    assert (Hred : res_redirected res && negb (is_empty (res_url res)) = false
                   <-> res_redirected res = false \/ res_url res = []).
    { destruct (res_redirected res); destruct (res_url res); cbn; split; auto;
        intros [ H | H ]; discriminate. }
    destruct (res_redirected res && negb (is_empty (res_url res))) eqn:Hr.
    + split; [ reflexivity | ]. cbn [snd]. split.
      * split; [ intros [m H]; discriminate H | ].
        intros [ H | [ H _ ] ]; [ contradiction | ].
        apply Hred in H. discriminate H.
      * intros _ H. apply Hred in H. discriminate H.
    + destruct (is_success (res_status res)) eqn:Hs; cbn [negb].
      * destruct (JSON_parse (res_text res)) as [ j | ]; cbn [fst snd].
        -- split; [ reflexivity | ]. split; [ | reflexivity ].
           split; [ intros [m H]; discriminate H | ].
           intros [ H | [ _ H ] ]; [ contradiction | discriminate H ].
        -- split; [ reflexivity | ]. split; [ | reflexivity ].
           split; [ intros [m H]; discriminate H | ].
           intros [ H | [ _ H ] ]; [ contradiction | discriminate H ].
      * cbn [fst snd]. split; [ reflexivity | ]. split.
        -- split; [ intros _; right; split; [ apply Hred | ]; reflexivity
                  | intros _; eauto ].
        -- intros H. discriminate H.
Qed.

End ApiProperties.

Lemma api_outcomes_witness :
  getToken
    (fst (api unit (fun _ => None) (fun _ => None)
            (setToken (lit "secret") (fun _ => None))
            (mkResponse 403 false [] (lit "denied")))) = [].
Proof.
  refine (proj1 (proj2 (proj1 (api_outcomes (fun _ => None) (fun _ => None)
                                 (setToken (lit "secret") (fun _ => None))
                                 (mkResponse 403 false [] (lit "denied"))) _))).
  reflexivity.
Defined.

(** ** Escaping *)

Lemma replace_all_app (c : code_unit) (b x y : JsString.t) :
  replace_all c b (x ++ y) = replace_all c b x ++ replace_all c b y.
Proof.
  induction x as [ | a x IH ]; [ reflexivity | ].
  cbn [replace_all app]. rewrite IH, app_assoc. reflexivity.
Qed.

Lemma replace_all_in (c : code_unit) (b s : JsString.t) (x : code_unit) :
  In x (replace_all c b s) -> In x b \/ (x <> c /\ In x s).
Proof.
  induction s as [ | a s IH ]; cbn [replace_all]; [ intros [] | ].
  rewrite in_app_iff. intros [ H | H ].
  - destruct (N.eqb_spec a c) as [ -> | Hne ]; [ left; exact H | ].
    destruct H as [ <- | [] ]. right. split; [ exact Hne | left; reflexivity ].
  - destruct (IH H) as [ Hb | [Hne Hin] ]; [ left; exact Hb | ].
    right. split; [ exact Hne | right; exact Hin ].
Qed.

Lemma replace_all_absent (c : code_unit) (b s : JsString.t) :
  ~ In c s -> replace_all c b s = s.
Proof.
  induction s as [ | a s IH ]; [ reflexivity | ].
  intros Hni. cbn [replace_all].
  destruct (N.eqb_spec a c) as [ -> | Hne ].
  - contradiction Hni. left. reflexivity.
  - rewrite IH; [ reflexivity | ]. intros H. apply Hni. right. exact H.
Qed.

Lemma count_app (d : code_unit) (x y : JsString.t) :
  count d (x ++ y) = (count d x + count d y)%nat.
Proof. unfold count. rewrite filter_app, length_app. reflexivity. Qed.

Lemma replace_all_count (c d : code_unit) (b s : JsString.t) :
  d <> c -> count d b = 0%nat -> count d (replace_all c b s) = count d s.
Proof.
  intros Hne Hb. induction s as [ | a s IH ]; [ reflexivity | ].
  cbn [replace_all]. rewrite count_app, IH.
  change (a :: s) with ([a] ++ s). rewrite (count_app d [a] s).
  destruct (N.eqb_spec a c) as [ -> | Hac ]; [ | reflexivity ].
  rewrite Hb. unfold count. cbn [filter].
  destruct (N.eqb_spec d c) as [ E | _ ]; [ contradiction | reflexivity ].
Qed.

Lemma replace_all_length (c : code_unit) (b s : JsString.t) :
  (1 <= List.length b)%nat ->
  (List.length s <= List.length (replace_all c b s))%nat.
Proof.
  intros Hb. induction s as [ | a s IH ]; [ cbn; lia | ].
  cbn [replace_all]. rewrite length_app. cbn [List.length].
  destruct (N.eqb a c); cbn [List.length]; lia.
Qed.

(** X14.  The escaped order address contains neither [<] nor [>], and is the
    address itself when the address has neither; it is never shorter than
    the address.  Double quotes are left as they are (as many come out as go
    in), although the result is also written into a [title="..."]
    attribute. *)
Theorem escape_address_safe (address : JsString.t) :
  ~ In lt_sign (escape_address address)
  /\ ~ In gt_sign (escape_address address)
  /\ count dquote (escape_address address) = count dquote address
  /\ (List.length address <= List.length (escape_address address))%nat
  /\ (~ In lt_sign address -> ~ In gt_sign address ->
      escape_address address = address).
Proof.
  unfold escape_address. split; [ | split; [ | split; [ | split ] ] ].
  - intros H. apply replace_all_in in H. destruct H as [ H | [_ H] ].
    + cbn in H. repeat destruct H as [ H | H ]; try discriminate H; exact H.
    + apply replace_all_in in H. destruct H as [ H | [Hne _] ].
      * cbn in H. repeat destruct H as [ H | H ]; try discriminate H; exact H.
      * apply Hne. reflexivity.
  - intros H. apply replace_all_in in H. destruct H as [ H | [Hne _] ].
    + cbn in H. repeat destruct H as [ H | H ]; try discriminate H; exact H.
    + apply Hne. reflexivity.
  - rewrite !replace_all_count; try reflexivity; discriminate.
  - etransitivity; [ apply (replace_all_length lt_sign (lit "&lt;")); cbn; lia | ].
    apply replace_all_length. cbn. lia.
  - intros Hlt Hgt. rewrite (replace_all_absent lt_sign _ address Hlt).
    apply replace_all_absent. exact Hgt.
Qed.

Lemma escape_address_safe_witness :
  escape_address (lit "12 Main st.") = lit "12 Main st.".
Proof.
  refine (proj2 (proj2 (proj2 (proj2
           (escape_address_safe (lit "12 Main st."))))) _ _);
    cbn; intros H; repeat destruct H as [ H | H ]; try discriminate H; exact H.
Defined.

Lemma replace_all_commute (c d : code_unit) (bc bd s : JsString.t) :
  c <> d -> ~ In d bc -> ~ In c bd ->
  replace_all d bd (replace_all c bc s) = replace_all c bc (replace_all d bd s).
Proof.
  intros Hcd Hdc Hcb. induction s as [ | a s IH ]; [ reflexivity | ].
  cbn [replace_all]. rewrite !replace_all_app, IH. f_equal.
  destruct (N.eqb_spec a c) as [ -> | Hac ].
  - destruct (N.eqb_spec c d) as [ E | _ ]; [ contradiction | ].
    rewrite (replace_all_absent d bd bc Hdc).
    cbn [replace_all]. rewrite N.eqb_refl, app_nil_r. reflexivity.
  - destruct (N.eqb_spec a d) as [ -> | Had ].
    + cbn [replace_all]. rewrite N.eqb_refl, app_nil_r.
      symmetry. apply replace_all_absent. exact Hcb.
    + cbn [replace_all].
      destruct (N.eqb_spec a d) as [ E | _ ]; [ contradiction | ].
      destruct (N.eqb_spec a c) as [ E | _ ]; [ contradiction | ].
      reflexivity.
Qed.

(** X15.  The escaped value of a settings field and the escaped bot texts
    contain neither a double quote nor [<], so they cannot end the attribute
    or open a tag; the two functions, which replace in opposite orders, give
    the same result; a value without those two characters is unchanged.  The
    ampersand is not escaped, so different values can come out the same. *)
Theorem escape_env_value_safe (value : JsString.t) :
  ~ In dquote (escape_env_value value)
  /\ ~ In lt_sign (escape_env_value value)
  /\ escape_bot_text value = escape_env_value value
  /\ (~ In dquote value -> ~ In lt_sign value -> escape_env_value value = value)
  /\ escape_env_value (lit "&lt;") = escape_env_value [lt_sign].
Proof.
  unfold escape_env_value, escape_bot_text.
  split; [ | split; [ | split; [ | split ] ] ].
  - intros H. apply replace_all_in in H. destruct H as [ H | [_ H] ].
    + cbn in H. repeat destruct H as [ H | H ]; try discriminate H; exact H.
    + apply replace_all_in in H. destruct H as [ H | [Hne _] ].
      * cbn in H. repeat destruct H as [ H | H ]; try discriminate H; exact H.
      * apply Hne. reflexivity.
  - intros H. apply replace_all_in in H. destruct H as [ H | [Hne _] ].
    + cbn in H. repeat destruct H as [ H | H ]; try discriminate H; exact H.
    + apply Hne. reflexivity.
  - apply replace_all_commute; [ discriminate | | ];
      cbn; intros H; repeat destruct H as [ H | H ]; try discriminate H; exact H.
  - intros Hq Hlt. rewrite (replace_all_absent dquote _ value Hq).
    apply replace_all_absent. exact Hlt.
  - reflexivity.
Qed.

Lemma escape_env_value_safe_witness :
  escape_env_value (lit "abc") = lit "abc".
Proof.
  refine (proj1 (proj2 (proj2 (proj2
           (escape_env_value_safe (lit "abc"))))) _ _);
    cbn; intros H; repeat destruct H as [ H | H ]; try discriminate H; exact H.
Defined.

(** ** trim *)

Lemma trim_start_suffix (s : JsString.t) :
  exists pre, s = pre ++ trim_start s /\ forallb is_whitespace pre = true.
Proof.
  induction s as [ | x r IH ].
  - exists []. split; reflexivity.
  - cbn [trim_start]. destruct (is_whitespace x) eqn:Hx.
    + destruct IH as (pre & E & Hp). exists (x :: pre). split.
      * cbn [app]. rewrite <- E. reflexivity.
      * cbn [forallb]. rewrite Hx, Hp. reflexivity.
    + exists []. split; reflexivity.
Qed.

Lemma trim_start_head (s : JsString.t) :
  trim_start s = []
  \/ exists x r, trim_start s = x :: r /\ is_whitespace x = false.
Proof.
  induction s as [ | x r IH ]; [ left; reflexivity | ].
  cbn [trim_start]. destruct (is_whitespace x) eqn:Hx; [ exact IH | ].
  right. exists x, r. split; [ reflexivity | exact Hx ].
Qed.

Lemma trim_start_keeps (a b : JsString.t) (y : code_unit) :
  is_whitespace y = false ->
  exists a', trim_start (a ++ y :: b) = a' ++ y :: b.
Proof.
  intros Hy. induction a as [ | x a IH ].
  - exists []. cbn [app trim_start]. rewrite Hy. reflexivity.
  - cbn [app trim_start]. destruct (is_whitespace x).
    + exact IH.
    + exists (x :: a). reflexivity.
Qed.

Lemma trim_start_fixed (x : code_unit) (r : JsString.t) :
  is_whitespace x = false -> trim_start (x :: r) = x :: r.
Proof. intros H. cbn [trim_start]. rewrite H. reflexivity. Qed.

(** The result of [trim] is empty or begins and ends with a character that
    is not white space. *)
Lemma trim_ends (s : JsString.t) :
  trim s = []
  \/ exists x mid y,
       (trim s = [x] /\ y = x /\ mid = [] \/ trim s = x :: mid ++ [y])
       /\ is_whitespace x = false /\ is_whitespace y = false.
Proof.
  unfold trim.
  destruct (trim_start_head s) as [ E | (x & r & E & Hx) ].
  - rewrite E. left. reflexivity.
  - rewrite E.
    assert (Hrev : rev (x :: r) = rev r ++ [x]) by reflexivity.
    destruct (trim_start_keeps (rev r) [] x Hx) as (a' & Ea).
    rewrite Hrev, Ea, rev_app_distr. cbn [rev app].
    destruct (trim_start_head (rev r ++ [x])) as [ E0 | (y & r' & E' & Hy) ].
    + rewrite Ea in E0. destruct a'; discriminate E0.
    + right. rewrite Ea in E'.
      destruct a' as [ | z a' ].
      * exists x, [], x. split; [ left; auto | auto ].
      * injection E' as -> _. exists x, (rev a'), y.
        split; [ right | auto ].
        reflexivity.
Qed.

Lemma trim_idempotent (s : JsString.t) : trim (trim s) = trim s.
Proof.
  destruct (trim_ends s) as [ E | (x & mid & y & [ (E & -> & ->) | E ] & Hx & Hy) ];
    rewrite E.
  - reflexivity.
  - unfold trim. rewrite (trim_start_fixed x [] Hx). cbn [rev app].
    rewrite (trim_start_fixed x [] Hx). reflexivity.
  - unfold trim. rewrite (trim_start_fixed x _ Hx).
    assert (Hrev : rev (x :: mid ++ [y]) = y :: rev mid ++ [x]).
    { cbn [rev]. rewrite rev_app_distr. reflexivity. }
    rewrite Hrev, (trim_start_fixed y _ Hy), <- Hrev. apply rev_involutive.
Qed.

Lemma is_masked_prefix (x : JsString.t) : is_masked (mask_prefix ++ x) = true.
Proof. reflexivity. Qed.

Lemma trim_masked (x : JsString.t) : is_masked (trim (mask_prefix ++ x)) = true.
Proof.
  unfold trim.
  change (mask_prefix ++ x) with (bullet :: repeat bullet 7 ++ x).
  rewrite (trim_start_fixed bullet _ eq_refl).
  change (bullet :: repeat bullet 7 ++ x) with (mask_prefix ++ x).
  rewrite rev_app_distr.
  change (rev mask_prefix) with (repeat bullet 7 ++ [bullet]).
  change (rev x ++ repeat bullet 7 ++ [bullet])
    with (rev x ++ bullet :: repeat bullet 6 ++ [bullet]).
  destruct (trim_start_keeps (rev x) (repeat bullet 6 ++ [bullet]) bullet eq_refl)
    as (a' & ->).
  rewrite rev_app_distr. reflexivity.
Qed.

(** ** The settings form *)

Lemma object_put_nonempty (k v : JsString.t) (o : JsObject) : object_put k v o <> [].
Proof.
  destruct o as [ | [k0 v0] r ]; cbn [object_put]; [ discriminate | ].
  destruct (jsstring_eqb k0 k); discriminate.
Qed.

Lemma object_get_put (k v k' : JsString.t) (o : JsObject) :
  object_get (object_put k v o) k'
  = if jsstring_eqb k k' then Some v else object_get o k'.
Proof.
  induction o as [ | [k0 v0] r IH ]; cbn [object_put object_get].
  - destruct (jsstring_eqb k k'); reflexivity.
  - destruct (jsstring_eqb k0 k) eqn:E0; cbn [object_get].
    + apply jsstring_eqb_eq in E0. subst k0.
      destruct (jsstring_eqb k k'); reflexivity.
    + destruct (jsstring_eqb k0 k') eqn:E1; [ | exact IH ].
      apply jsstring_eqb_eq in E1. subst k0.
      assert (E2 : jsstring_eqb k k' = false).
      { apply jsstring_eqb_neq. apply jsstring_eqb_neq in E0. congruence. }
      rewrite E2. reflexivity.
Qed.

Lemma env_body_fold (inputs : list Input) :
  env_body inputs = fold_left env_step inputs [].
Proof. reflexivity. Qed.

Lemma is_empty_true (s : JsString.t) : is_empty s = true <-> s = [].
Proof. destruct s; cbn; split; congruence. Qed.

Lemma env_step_entries (all : list Input) (body : JsObject) (input : Input) :
  In input all ->
  (forall k v, object_get body k = Some v -> env_entry_of all k v) ->
  forall k v, object_get (env_step body input) k = Some v -> env_entry_of all k v.
Proof.
  intros Hin Hbody k v. unfold env_step.
  destruct (is_empty (trim (input_value input))) eqn:He; [ apply Hbody | ].
  destruct (is_masked (trim (input_value input))) eqn:Hm; [ apply Hbody | ].
  unfold object_set.
  destruct (jsstring_eqb (strip_env_prefix (input_id input)) (lit "__proto__"));
    [ apply Hbody | ].
  rewrite object_get_put.
  destruct (jsstring_eqb (strip_env_prefix (input_id input)) k) eqn:Ek;
    [ | apply Hbody ].
  apply jsstring_eqb_eq in Ek. intros H. injection H as <-.
  split.
  - intros E. apply is_empty_true in E. congruence.
  - split; [ exact Hm | ]. split; [ apply trim_idempotent | ].
    exists input. auto.
Qed.

Lemma env_fold_entries (all l : list Input) :
  forall body,
    incl l all ->
    (forall k v, object_get body k = Some v -> env_entry_of all k v) ->
    forall k v, object_get (fold_left env_step l body) k = Some v ->
                env_entry_of all k v.
Proof.
  induction l as [ | input l IH ]; intros body Hincl Hbody; [ exact Hbody | ].
  cbn [fold_left]. apply IH.
  - intros x Hx. apply Hincl. right. exact Hx.
  - apply env_step_entries; [ apply Hincl; left; reflexivity | exact Hbody ].
Qed.

Lemma env_fold_empty (l : list Input) :
  forall body,
    fold_left env_step l body = [] ->
    body = [] /\ forall input, In input l -> env_skipped input.
Proof.
  induction l as [ | input l IH ]; intros body H.
  - split; [ exact H | intros input [] ].
  - cbn [fold_left] in H. destruct (IH _ H) as [Hstep Hrest].
    unfold env_step in Hstep.
    assert (Hcase : body = [] /\ env_skipped input).
    { unfold env_skipped.
      destruct (is_empty (trim (input_value input))) eqn:He.
      - apply is_empty_true in He. auto.
      - destruct (is_masked (trim (input_value input))) eqn:Hm; [ auto | ].
        unfold object_set in Hstep.
        destruct (jsstring_eqb (strip_env_prefix (input_id input)) (lit "__proto__"))
          eqn:Ep.
        + apply jsstring_eqb_eq in Ep. auto.
        + exfalso. exact (object_put_nonempty _ _ _ Hstep). }
    destruct Hcase as [Hb Hs]. split; [ exact Hb | ].
    intros x [ <- | Hx ]; [ exact Hs | apply Hrest; exact Hx ].
Qed.

(** X16.  When [saveEnvSettings] sends nothing, every field of the form was
    blank, masked, or keyed [__proto__].  When it sends a body, the body is
    not empty and each of its entries is the trimmed value of a field of the
    form, not empty and not masked, under that field's id without the [env_]
    prefix; a later field with the same key replaces an earlier one.  The id
    that [renderEnvField] builds for a key gives the key back. *)
Theorem saveEnvSettings_sends_only_new_values (inputs : list Input) :
  match saveEnvSettings inputs with
  | None => forall input, In input inputs -> env_skipped input
  | Some body =>
      body <> []
      /\ forall key val, object_get body key = Some val ->
                         env_entry_of inputs key val
  end
  /\ (forall input,
        ~ env_skipped input ->
        object_get (env_body (inputs ++ [input])) (strip_env_prefix (input_id input))
        = Some (trim (input_value input)))
  /\ (forall key, strip_env_prefix (env_field_id key) = key).
Proof.
  split; [ | split ].
  - unfold saveEnvSettings. rewrite env_body_fold.
    destruct (fold_left env_step inputs []) as [ | entry body ] eqn:E.
    + apply (env_fold_empty inputs [] E).
    + split; [ discriminate | ]. rewrite <- E.
      apply env_fold_entries; [ apply incl_refl | ].
      intros k v H. discriminate H.
  - intros input Hns. rewrite env_body_fold, fold_left_app. cbn [fold_left].
    unfold env_skipped in Hns. unfold env_step.
    destruct (is_empty (trim (input_value input))) eqn:He.
    { apply is_empty_true in He. tauto. }
    destruct (is_masked (trim (input_value input))) eqn:Hm; [ tauto | ].
    unfold object_set.
    destruct (jsstring_eqb (strip_env_prefix (input_id input)) (lit "__proto__"))
      eqn:Ep.
    { apply jsstring_eqb_eq in Ep. tauto. }
    rewrite object_get_put, jsstring_eqb_refl. reflexivity.
  - intros key. reflexivity.
Qed.

Lemma saveEnvSettings_sends_only_new_values_witness :
  object_get
    (env_body ([mkInput (lit "env_PORT") (lit "80") false]
               ++ [mkInput (lit "env_PORT") (lit " 8080 ") false]))
    (lit "PORT")
  = Some (lit "8080").
Proof.
  refine (proj1 (proj2 (saveEnvSettings_sends_only_new_values
                          [mkInput (lit "env_PORT") (lit "80") false]))
            (mkInput (lit "env_PORT") (lit " 8080 ") false) _).
  unfold env_skipped. vm_compute.
  intros [ H | [ H | H ] ]; discriminate H.
Defined.

Lemma slice_last4_length (v : JsString.t) :
  4 < len v -> len (slice_last4 v) = 4.
Proof.
  unfold len, slice_last4. intros H. rewrite length_skipn. lia.
Qed.

(** X17.  Hiding a field whose trimmed value has more than four characters
    replaces the value by eight bullets and the last four characters (twelve
    in all).  Such a field contributes nothing to what [saveEnvSettings]
    sends, wherever it stands in the form, and showing it again asks the
    server for the raw value under the field's key.  Hiding a field with four
    characters or fewer leaves its value as it is. *)
Theorem hide_discards_value (input : Input) (before after : list Input) :
  input_is_password input = false ->
  let v := trim (input_value input) in
  let hidden := fst (toggle_visibility input) in
  snd (toggle_visibility input) = None
  /\ input_is_password hidden = true
  /\ input_id hidden = input_id input
  /\ (len v <= 4 -> input_value hidden = input_value input)
  /\ (4 < len v ->
      input_value hidden = mask_prefix ++ slice_last4 v
      /\ len (input_value hidden) = 12
      /\ env_body (before ++ hidden :: after) = env_body (before ++ after)
      /\ (strip_env_prefix (input_id input) <> [] ->
          toggle_visibility hidden
          = (hidden, Some (strip_env_prefix (input_id input))))).
Proof.
  intros Hp v hidden. unfold hidden, toggle_visibility. rewrite Hp. fold v.
  cbn [fst snd input_is_password input_id input_value].
  repeat (split; [ reflexivity | ]).
  split.
  - intros Hle. destruct (Z.ltb_spec 4 (len v)); [ lia | reflexivity ].
  - intros Hgt. destruct (Z.ltb_spec 4 (len v)) as [ _ | Hle ]; [ | lia ].
    split; [ reflexivity | ].
    split.
    { rewrite len_app, (slice_last4_length v Hgt). reflexivity. }
    split.
    + rewrite !env_body_fold, !fold_left_app. cbn [fold_left]. f_equal.
      unfold env_step at 1. cbn [input_value].
      rewrite (trim_masked (slice_last4 v)).
      destruct (is_empty (trim (mask_prefix ++ slice_last4 v))); reflexivity.
    + intros Hkey. unfold toggle_visibility.
      cbn [input_is_password input_id input_value].
      rewrite (trim_masked (slice_last4 v)).
      destruct (strip_env_prefix (input_id input)); [ contradiction | reflexivity ].
Qed.

Lemma hide_discards_value_witness :
  input_is_password
    (fst (toggle_visibility (mkInput (lit "env_KEY") (lit "abcdefgh") false)))
  = true.
Proof.
  refine (proj1 (proj2 (hide_discards_value
                          (mkInput (lit "env_KEY") (lit "abcdefgh") false)
                          [] [] _))).
  reflexivity.
Defined.

(** ** The products view mode *)

(** X18.  [toggleProductsView] always leaves the mode 'table' or 'grid' and
    stores it, so a reload starts in the mode last chosen; between 'table'
    and 'grid' two toggles restore the mode.  From a stored mode that is
    neither, the table is shown before and after the first toggle. *)
Theorem view_mode_toggle (mode : JsString.t) (st : Storage) :
  let mode' := fst (toggleProductsView mode st) in
  let st' := snd (toggleProductsView mode st) in
  (mode' = lit "table" \/ mode' = lit "grid")
  /\ initial_view_mode st' = mode'
  /\ (mode = lit "table" \/ mode = lit "grid" ->
      fst (toggleProductsView mode' st') = mode
      /\ renders_grid mode' = negb (renders_grid mode))
  /\ (mode <> lit "table" -> mode <> lit "grid" ->
      renders_grid mode = false /\ renders_grid mode' = false)
  /\ (getItem st VIEW_KEY = None -> initial_view_mode st = lit "table").
Proof.
  intros mode' st'. unfold mode', st', toggleProductsView. cbn [fst snd].
  destruct (jsstring_eqb mode (lit "table")) eqn:Et.
  - apply jsstring_eqb_eq in Et. subst mode.
    split; [ right; reflexivity | ].
    split; [ reflexivity | ].
    split; [ intros _; split; reflexivity | ].
    split; [ intros H; contradiction H; reflexivity | ].
    intros H. unfold initial_view_mode. rewrite H. reflexivity.
  - split; [ left; reflexivity | ].
    split; [ reflexivity | ].
    split.
    + intros [ -> | -> ]; [ discriminate Et | split; reflexivity ].
    + split.
      * intros _ Hg. split; [ | reflexivity ].
        apply jsstring_eqb_neq. exact Hg.
      * intros H. unfold initial_view_mode. rewrite H. reflexivity.
Qed.

Lemma view_mode_toggle_witness :
  fst (toggleProductsView
         (fst (toggleProductsView (lit "grid") (fun _ => None)))
         (snd (toggleProductsView (lit "grid") (fun _ => None))))
  = lit "grid".
Proof.
  refine (proj1 (proj1 (proj2 (proj2
           (view_mode_toggle (lit "grid") (fun _ => None)))) _)).
  right. reflexivity.
Defined.

(** ** parseInt and the product form *)

Lemma of_lu_rev_cons (u : Decimal.uint) (k : N) (d : Decimal.uint -> Decimal.uint) :
  (forall r, Unsigned.of_lu (d r) = k + 10 * Unsigned.of_lu r)%N ->
  (forall r r', Decimal.revapp (d r) r' = Decimal.revapp r (d r')) ->
  (Unsigned.of_lu (Decimal.rev (d u))
   = Unsigned.of_lu (Decimal.rev u) + k * 10 ^ Unsigned.usize u)%N.
Proof.
  intros Hd Hr. unfold Decimal.rev. rewrite Hr, Unsigned.of_lu_revapp.
  rewrite Hd. cbn [Unsigned.of_lu]. unfold Decimal.rev. lia.
Qed.

Ltac numeral_case IH a u k D :=
  cbn [digits app parse_digits];
  match goal with
  | |- context [ is_decimal_digit ?c ] => change (is_decimal_digit c) with true
  end;
  cbv iota;
  match goal with
  | |- context [ parse_digits _ ?acc true ] =>
      replace acc with (Z.of_N (10 * a + k)) by lia
  end;
  rewrite IH, (of_lu_rev_cons u k D); try reflexivity;
  rewrite orb_true_r; cbn [orb Unsigned.usize]; rewrite N.pow_succ_r';
  do 2 f_equal; lia.

Lemma parse_digits_numeral (u : Decimal.uint) (tail : JsString.t) :
  (match tail with [] => True | x :: _ => is_decimal_digit x = false end) ->
  forall (a : N) (seen : bool),
    parse_digits (digits u ++ tail) (Z.of_N a) seen
    = if seen || negb (match u with Decimal.Nil => true | _ => false end)
      then Some (Z.of_N (a * 10 ^ Unsigned.usize u
                         + Unsigned.of_lu (Decimal.rev u)))
      else None.
Proof.
  intros Htail.
  induction u as [ | u IH | u IH | u IH | u IH | u IH | u IH | u IH | u IH | u IH | u IH ];
    intros a seen.
  - cbn [digits app Unsigned.usize negb].
    replace (a * 10 ^ 0 + Unsigned.of_lu (Decimal.rev Decimal.Nil))%N with a
      by (cbn; lia).
    rewrite orb_false_r.
    destruct tail as [ | x r ]; [ reflexivity | ].
    cbn [parse_digits]. rewrite Htail. reflexivity.
  - numeral_case IH a u 0%N Decimal.D0.
  - numeral_case IH a u 1%N Decimal.D1.
  - numeral_case IH a u 2%N Decimal.D2.
  - numeral_case IH a u 3%N Decimal.D3.
  - numeral_case IH a u 4%N Decimal.D4.
  - numeral_case IH a u 5%N Decimal.D5.
  - numeral_case IH a u 6%N Decimal.D6.
  - numeral_case IH a u 7%N Decimal.D7.
  - numeral_case IH a u 8%N Decimal.D8.
  - numeral_case IH a u 9%N Decimal.D9.
Qed.

Lemma to_uint_not_nil (n : N) : N.to_uint n <> Decimal.Nil.
Proof.
  destruct n as [ | p ]; [ discriminate | ].
  apply DecimalPos.Unsigned.to_uint_nonnil.
Qed.

Lemma numeral_value (n : N) :
  DecimalPos.Unsigned.of_lu (Decimal.rev (N.to_uint n)) = n.
Proof.
  rewrite <- DecimalPos.Unsigned.of_uint_alt.
  change (Pos.of_uint (N.to_uint n)) with (N.of_uint (N.to_uint n)).
  apply DecimalN.Unsigned.of_to.
Qed.

Ltac parse_numeral_case n E Htail tail :=
  cbn [digits app trim_start];
  match goal with
  | |- context [ is_whitespace ?c ] => change (is_whitespace c) with false
  end;
  cbv iota;
  match goal with
  | |- parse_digits ?l 0 false = _ =>
      match type of E with
      | _ = ?u => change l with (digits u ++ tail); change 0 with (Z.of_N 0)
      end
  end;
  rewrite (parse_digits_numeral _ _ Htail); cbn [orb negb];
  rewrite <- E, numeral_value; f_equal; lia.

(** A decimal numeral parses to its number; what follows the digits is
    ignored. *)
Lemma parseInt_integer_decimal (n : N) (tail : JsString.t) :
  (match tail with [] => True | x :: _ => is_decimal_digit x = false end) ->
  parseInt_integer (decimal n ++ tail) = Some (Z.of_N n).
Proof.
  intros Htail. unfold parseInt_integer, decimal.
  pose proof (to_uint_not_nil n) as Hnn.
  destruct (N.to_uint n) as [ | u | u | u | u | u | u | u | u | u | u ] eqn:E;
    [ contradiction Hnn; reflexivity | .. ];
    parse_numeral_case n E Htail tail.
Qed.

Lemma trim_start_skips (ws s : JsString.t) :
  forallb is_whitespace ws = true -> trim_start (ws ++ s) = trim_start s.
Proof.
  induction ws as [ | x ws IH ]; [ reflexivity | ].
  cbn [forallb app trim_start]. intros H. apply andb_prop in H.
  destruct H as [Hx Hws]. rewrite Hx. apply IH. exact Hws.
Qed.

Lemma parseInt_skips (ws s : JsString.t) :
  forallb is_whitespace ws = true -> parseInt (ws ++ s) = parseInt s.
Proof.
  intros H. unfold parseInt, parseInt_integer. rewrite (trim_start_skips ws s H).
  reflexivity.
Qed.

Lemma parse_digits_decimal (n : N) (tail : JsString.t) :
  (match tail with [] => True | x :: _ => is_decimal_digit x = false end) ->
  parse_digits (decimal n ++ tail) 0 false = Some (Z.of_N n).
Proof.
  intros Htail. unfold decimal. change 0 with (Z.of_N 0).
  rewrite (parse_digits_numeral _ _ Htail), numeral_value.
  pose proof (to_uint_not_nil n) as Hnn.
  destruct (N.to_uint n); [ contradiction Hnn; reflexivity | .. ];
    cbn [orb negb]; f_equal; lia.
Qed.

Lemma parseInt_integer_minus (s : JsString.t) :
  parseInt_integer (45%N :: s) = option_map Z.opp (parse_digits s 0 false).
Proof.
  unfold parseInt_integer. cbn [trim_start].
  change (is_whitespace 45%N) with false. reflexivity.
Qed.

(** ** Numbers that need not be finite *)

Lemma pow2_1024_large : (9007199254740992 < 2 ^ 1024)%Q.
Proof.
  change 9007199254740992%Q with (2 ^ 53)%Q.
  apply Qpower_lt_compat_l; [ lia | reflexivity ].
Qed.

Lemma to_Number_integer (z : Z) :
  Z.abs z <= 2 ^ 53 -> to_Number (inject_Z z) = Finite (inject_Z z).
Proof.
  intros Hz. unfold to_Number. rewrite (fl_integer z Hz).
  assert (Hlo : (- 9007199254740992 <= inject_Z z)%Q).
  { change (- 9007199254740992)%Q with (inject_Z (- 2 ^ 53)). rewrite <- Zle_Qle. lia. }
  assert (Hhi : (inject_Z z <= 9007199254740992)%Q).
  { change 9007199254740992%Q with (inject_Z (2 ^ 53)). rewrite <- Zle_Qle. lia. }
  pose proof pow2_1024_large as Hbig. revert Hbig.
  generalize (2 ^ 1024)%Q. intros big Hbig.
  assert (H1 : Qle_bool big (inject_Z z) = false).
  { apply not_true_iff_false. rewrite Qle_bool_iff. lra. }
  assert (H2 : Qle_bool (inject_Z z) (- big) = false).
  { apply not_true_iff_false. rewrite Qle_bool_iff. lra. }
  rewrite H1, H2. reflexivity.
Qed.

Lemma not_negative_guard (v : Number) :
  not_negative v <-> Number_isNaN v || Number_negative v = false.
Proof.
  unfold not_negative. destruct v as [ x | | | ]; cbn.
  - rewrite negb_false_iff, Qle_bool_iff. split.
    + intros [ H | (y & E & Hy) ]; [ discriminate H | ]. injection E as ->. exact Hy.
    + intros H. right. exists x. split; [ reflexivity | exact H ].
  - split; [ reflexivity | intros _; left; reflexivity ].
  - split; [ | discriminate ]. intros [ H | (y & E & _) ]; discriminate.
  - split; [ | discriminate ]. intros [ H | (y & E & _) ]; discriminate.
Qed.

Lemma to_Number_not_negative (x : Q) : (0 <= x)%Q -> not_negative (to_Number x).
Proof.
  intros Hx. unfold not_negative, to_Number.
  pose proof (fl_nonneg x Hx) as Hy.
  destruct (Qle_bool (2 ^ 1024) (fl x)); [ left; reflexivity | ].
  pose proof (pow2_pos 1024) as Hbig. revert Hbig.
  generalize (2 ^ 1024)%Q. intros big Hbig.
  assert (H2 : Qle_bool (fl x) (- big) = false).
  { apply not_true_iff_false. rewrite Qle_bool_iff. lra. }
  rewrite H2. right. exists (fl x). split; [ reflexivity | exact Hy ].
Qed.

Lemma fl_opp (x : Q) : fl (- x) = (- fl x)%Q.
Proof.
  unfold fl. rewrite <- Qred_opp. apply Qred_complete.
  destruct x as [n d]. cbn [Qopp Qnum Qden Qabs].
  rewrite Z.abs_opp, Z.sgn_opp.
  rewrite Z.mul_opp_l, inject_Z_opp. ring.
Qed.

Lemma to_Number_negative (x : Q) :
  (x <= - (1))%Q -> Number_negative (to_Number x) = true.
Proof.
  intros Hx. unfold to_Number.
  assert (Hy : (fl x < 0)%Q).
  { assert (Hxx : (x == - - x)%Q) by ring.
    rewrite (fl_comp _ _ Hxx), fl_opp.
    assert (Hn : (2 ^ (-1022) <= - x)%Q).
    { apply (pow2_le_small 0); [ lia | ]. change (2 ^ 0)%Q with 1%Q. lra. }
    pose proof (fl_error _ Hn) as [E _]. unfold unit_roundoff in E.
    revert E. generalize (fl (- x)). intros y E. lra. }
  revert Hy. generalize (fl x). intros y Hy.
  pose proof (pow2_pos 1024) as Hbig. revert Hbig.
  generalize (2 ^ 1024)%Q. intros big Hbig.
  assert (H1 : Qle_bool big y = false).
  { apply not_true_iff_false. rewrite Qle_bool_iff. lra. }
  rewrite H1. destruct (Qle_bool y (- big)); [ reflexivity | ].
  cbn [Number_negative]. apply negb_true_iff, not_true_iff_false.
  rewrite Qle_bool_iff. lra.
Qed.

(** Past 2^53 [parseInt] no longer returns the integer it read, and a
    numeral of 309 digits reads as [Infinity], which passes the guards of
    [saveProduct] and is sent as [null]. *)
Example parseInt_beyond_2_53 :
  parseInt (lit "9007199254740993") = Finite 9007199254740992.
Proof. vm_compute. reflexivity. Qed.

Example saveProduct_infinite_price :
  exists r,
    saveProduct_request huge_price_form = Some r
    /\ body_price (req_body r) = PosInfinity
    /\ JSON_number (body_price (req_body r)) = None.
Proof. eexists. vm_compute. repeat split. Qed.

(** X19.  Whenever [saveProduct] makes a request, the title sent is the
    trimmed title and is not empty; the price is the Number [parseInt] reads
    from the price field and is neither [NaN] nor negative: a finite double
    that is not below zero, or [Infinity], which alone is written as [null];
    the stock is the Number read from the stock field when that is neither
    [NaN] nor negative, and 0 otherwise or when the page has no stock field.
    The request is a POST to /api/products for an empty id and a PUT to
    /api/products/<id> otherwise.  No request is made exactly when the title
    is blank or the price is [NaN] or negative. *)
Theorem saveProduct_request_valid (f : ProductForm) :
  match saveProduct_request f with
  | Some r =>
      body_title (req_body r) = trim (form_title f)
      /\ body_title (req_body r) <> []
      /\ body_price (req_body r) = parseInt (form_price f)
      /\ not_negative (body_price (req_body r))
      /\ (JSON_number (body_price (req_body r)) = None
          <-> body_price (req_body r) = PosInfinity)
      /\ not_negative (body_stock (req_body r))
      /\ (form_stock f = None -> body_stock (req_body r) = Finite 0)
      /\ (forall v, form_stock f = Some v ->
            (not_negative (parseInt v) -> body_stock (req_body r) = parseInt v)
            /\ (~ not_negative (parseInt v) -> body_stock (req_body r) = Finite 0))
      /\ (form_id f = [] ->
          req_method r = lit "POST" /\ req_path r = lit "/api/products")
      /\ (form_id f <> [] ->
          req_method r = lit "PUT"
          /\ req_path r = lit "/api/products/" ++ form_id f)
  | None =>
      trim (form_title f) = [] \/ ~ not_negative (parseInt (form_price f))
  end.
Proof.
  unfold saveProduct_request.
  destruct (is_empty (trim (form_title f))) eqn:He; cbn [orb].
  { apply is_empty_true in He. auto. }
  destruct (Number_isNaN (parseInt (form_price f))
            || Number_negative (parseInt (form_price f))) eqn:Hg.
  { right. rewrite not_negative_guard. congruence. }
  apply not_negative_guard in Hg.
  cbn [req_body req_method req_path body_title body_price body_stock].
  split; [ reflexivity | ].
  split; [ intros E; apply is_empty_true in E; congruence | ].
  split; [ reflexivity | ]. split; [ exact Hg | ].
  split.
  { destruct Hg as [ -> | (x & -> & _) ]; cbn; split; congruence. }
  assert (Hzero : not_negative (Finite 0)).
  { right. exists 0%Q. split; [ reflexivity | lra ]. }
  split.
  { destruct (form_stock f) as [ v | ]; [ | exact Hzero ].
    destruct (Number_isNaN (parseInt v) || Number_negative (parseInt v)) eqn:Hs;
      [ exact Hzero | apply not_negative_guard; exact Hs ]. }
  split; [ intros ->; reflexivity | ].
  split.
  { intros v ->. split; intros Hv.
    - apply not_negative_guard in Hv. rewrite Hv. reflexivity.
    - destruct (Number_isNaN (parseInt v) || Number_negative (parseInt v)) eqn:Hs;
        [ reflexivity | ].
      contradiction Hv. apply not_negative_guard. exact Hs. }
  split.
  - intros ->. split; reflexivity.
  - intros Hid. destruct (form_id f); [ contradiction | split; reflexivity ].
Qed.

(** X21.  The price field is read up to the first character that is not a
    digit, after any leading white space: with a title that is not blank, a
    field holding a decimal numeral followed by anything that does not start
    with a digit (a fraction, a unit) sends the Number for that numeral as
    the price, which is the number itself up to 2^53; the same field with a
    minus sign in front makes no request when the number is not 0. *)
Theorem price_field_reading (f : ProductForm) (ws tail : JsString.t) (n : N) :
  forallb is_whitespace ws = true ->
  (match tail with [] => True | x :: _ => is_decimal_digit x = false end) ->
  trim (form_title f) <> [] ->
  (form_price f = ws ++ decimal n ++ tail ->
   exists r, saveProduct_request f = Some r
             /\ body_price (req_body r) = to_Number (QofN n)
             /\ ((n <= 2 ^ 53)%N -> body_price (req_body r) = Finite (QofN n)))
  /\ (form_price f = ws ++ lit "-" ++ decimal n ++ tail -> n <> 0%N ->
      saveProduct_request f = None).
Proof.
  intros Hws Htail Ht.
  assert (He : is_empty (trim (form_title f)) = false).
  { apply not_true_iff_false. rewrite is_empty_true. exact Ht. }
  split.
  - intros Hp.
    assert (Hparse : parseInt (form_price f) = to_Number (QofN n)).
    { rewrite Hp, (parseInt_skips ws _ Hws). unfold parseInt.
      rewrite (parseInt_integer_decimal n tail Htail). reflexivity. }
    assert (Hg : Number_isNaN (parseInt (form_price f))
                 || Number_negative (parseInt (form_price f)) = false).
    { apply not_negative_guard. rewrite Hparse.
      apply to_Number_not_negative, QofN_nonneg. }
    unfold saveProduct_request. rewrite He. cbn [orb]. rewrite Hg.
    eexists. split; [ reflexivity | ].
    cbn [req_body body_price]. split; [ exact Hparse | ].
    intros Hn. rewrite Hparse. unfold QofN. apply to_Number_integer.
    change (2 ^ 53) with (Z.of_N (2 ^ 53)). lia.
  - intros Hp Hn.
    assert (Hparse : parseInt (form_price f) = to_Number (inject_Z (- Z.of_N n))).
    { rewrite Hp, (parseInt_skips ws _ Hws). unfold parseInt.
      change (lit "-" ++ decimal n ++ tail) with (45%N :: decimal n ++ tail).
      rewrite parseInt_integer_minus, (parse_digits_decimal n tail Htail).
      reflexivity. }
    assert (Hneg : Number_negative (parseInt (form_price f)) = true).
    { rewrite Hparse. apply to_Number_negative.
      change (- (1))%Q with (inject_Z (- 1)). rewrite <- Zle_Qle. lia. }
    unfold saveProduct_request. rewrite He, Hneg.
    rewrite orb_true_r. reflexivity.
Qed.

Lemma price_field_reading_witness :
  exists r,
    saveProduct_request
      (mkProductForm [] (lit "Laptop") [] (lit " 12.50") (lit "work") None)
    = Some r
    /\ body_price (req_body r) = to_Number (QofN 12)
    /\ ((12 <= 2 ^ 53)%N -> body_price (req_body r) = Finite (QofN 12)).
Proof.
  refine (proj1 (price_field_reading
                   (mkProductForm [] (lit "Laptop") [] (lit " 12.50") (lit "work") None)
                   (lit " ") (lit ".50") 12 _ _ _) _);
    try reflexivity.
  vm_compute. discriminate.
Defined.

(** ** Number to string *)

Lemma pow10_pos (e : Z) : (0 < 10 ^ e)%Q.
Proof. apply Qpower_0_lt. reflexivity. Qed.

Lemma pow10_of_Z (n : Z) : 0 <= n -> (10 ^ n == inject_Z (10 ^ n))%Q.
Proof. intros H. rewrite (Zpower_Qpower 10 n H). reflexivity. Qed.

Lemma pow10_succ (e : Z) : (10 ^ (e + 1) == 10 * 10 ^ e)%Q.
Proof.
  rewrite Qpower_plus by (intro H; discriminate H).
  rewrite Qpower_1_r. ring.
Qed.

Lemma decimal_exponent_from_spec (x : Q) (fuel : nat) :
  forall n : Z,
    (10 ^ (n - 1) <= x)%Q -> (x < 10 ^ (n + Z.of_nat fuel))%Q ->
    let r := decimal_exponent_from x n fuel in
    (10 ^ (r - 1) <= x)%Q /\ (x < 10 ^ r)%Q.
Proof.
  induction fuel as [ | fuel IH ]; intros n Hlo Hhi; cbn [decimal_exponent_from].
  - replace (n + Z.of_nat 0) with n in Hhi by lia. split; assumption.
  - destruct (Qle_bool (10 ^ n) x) eqn:E.
    + apply Qle_bool_iff in E. apply IH.
      * replace (n + 1 - 1) with n by lia. exact E.
      * replace (n + 1 + Z.of_nat fuel) with (n + Z.of_nat (S fuel)) by lia. exact Hhi.
    + split; [ exact Hlo | ].
      apply Qnot_le_lt. intro H. apply Qle_bool_iff in H. congruence.
Qed.

Lemma pow2_le_pow10 (m : Z) : 0 <= m -> (2 ^ m <= 10 ^ m)%Q.
Proof.
  intros Hm. rewrite pow10_of_Z by exact Hm.
  rewrite <- (Zpower_Qpower 2 m Hm). rewrite <- Zle_Qle.
  apply Z.pow_le_mono_l. lia.
Qed.

(** [decimal_exponent x] is the integer part of the decimal logarithm of
    [x], plus one. *)
Lemma decimal_exponent_spec (x : Q) :
  (0 < x)%Q ->
  (10 ^ (decimal_exponent x - 1) <= x)%Q /\ (x < 10 ^ decimal_exponent x)%Q.
Proof.
  intros Hx. unfold decimal_exponent.
  destruct x as [a b]. cbn [Qnum Qden].
  assert (Ha : 0 < a) by (unfold Qlt in Hx; simpl in Hx; lia).
  set (la := Z.log2 a). set (lb := Z.log2 (Z.pos b)).
  assert (Hla0 : 0 <= la) by apply Z.log2_nonneg.
  assert (Hlb0 : 0 <= lb) by apply Z.log2_nonneg.
  assert (Hla : a < 2 ^ (la + 1)).
  { pose proof (Z.log2_spec a Ha) as H. unfold la.
    replace (Z.log2 a + 1) with (Z.succ (Z.log2 a)) by lia. apply H. }
  assert (Hlb : Z.pos b < 2 ^ (lb + 1)).
  { pose proof (Z.log2_spec (Z.pos b) (Pos2Z.is_pos b)) as H. unfold lb.
    replace (Z.log2 (Z.pos b) + 1) with (Z.succ (Z.log2 (Z.pos b))) by lia. apply H. }
  assert (Hq : (a # b == inject_Z a / inject_Z (Z.pos b))%Q) by apply Qmake_Qdiv.
  assert (Hbq : (1 <= inject_Z (Z.pos b))%Q).
  { change 1%Q with (inject_Z 1). rewrite <- Zle_Qle. lia. }
  assert (Haq : (1 <= inject_Z a)%Q).
  { change 1%Q with (inject_Z 1). rewrite <- Zle_Qle. lia. }
  assert (Hahi : (inject_Z a < 10 ^ (la + 1))%Q).
  { apply Qlt_le_trans with (2 ^ (la + 1))%Q; [ | apply pow2_le_pow10; lia ].
    rewrite <- (Zpower_Qpower 2 (la + 1)) by lia. rewrite <- Zlt_Qlt. exact Hla. }
  assert (Hbhi : (inject_Z (Z.pos b) < 10 ^ (lb + 1))%Q).
  { apply Qlt_le_trans with (2 ^ (lb + 1))%Q; [ | apply pow2_le_pow10; lia ].
    rewrite <- (Zpower_Qpower 2 (lb + 1)) by lia. rewrite <- Zlt_Qlt. exact Hlb. }
  apply decimal_exponent_from_spec.
  - (* 10^(low - 1) <= x *)
    apply Qle_trans with (10 ^ (- (lb + 1)))%Q.
    + apply Qpower_le_compat_l; [ lia | discriminate ].
    + rewrite Qpower_opp, Hq.
      pose proof (pow10_pos (lb + 1)) as P.
      revert Hbhi P. generalize (10 ^ (lb + 1))%Q. intros t Hbhi P.
      apply Qle_shift_div_l; [ lra | ].
      apply Qle_trans with 1%Q; [ | exact Haq ].
      setoid_replace (/ t * inject_Z (Z.pos b))%Q with (inject_Z (Z.pos b) / t)%Q
        by (field; lra).
      apply Qle_shift_div_r; lra.
  - (* x < 10^high *)
    rewrite Z2Nat.id by lia.
    replace (- (lb + 1) + (la + 1 - - (lb + 1))) with (la + 1) by lia.
    rewrite Hq. apply Qlt_shift_div_r; [ lra | ].
    pose proof (pow10_pos (la + 1)) as P.
    revert Hahi P. generalize (10 ^ (la + 1))%Q. intros t Hahi P. nra.
Qed.

Lemma decimal_exponent_whole (N : Z) :
  1 <= N < 2 ^ 53 ->
  forall x : Q, (x == inject_Z N)%Q -> 1 <= decimal_exponent x <= 16.
Proof.
  intros HN x Hx.
  assert (Hpos : (0 < x)%Q).
  { rewrite Hx. change 0%Q with (inject_Z 0). rewrite <- Zlt_Qlt. lia. }
  destruct (decimal_exponent_spec x Hpos) as [Hlo Hhi].
  remember (decimal_exponent x) as d eqn:Hd. clear Hd.
  rewrite Hx in Hlo, Hhi.
  split.
  - assert (H : (10 ^ 0 < 10 ^ d)%Q).
    { apply Qle_lt_trans with (inject_Z N); [ | exact Hhi ].
      change (10 ^ 0)%Q with (inject_Z 1). rewrite <- Zle_Qle. lia. }
    apply (Qpower_lt_compat_l_inv 10 0 d) in H; [ lia | reflexivity ].
  - assert (H : (10 ^ (d - 1) < 10 ^ 16)%Q).
    { apply Qle_lt_trans with (inject_Z N); [ exact Hlo | ].
      change (10 ^ 16)%Q with (inject_Z (10 ^ 16)). rewrite <- Zlt_Qlt. lia. }
    apply (Qpower_lt_compat_l_inv 10 (d - 1) 16) in H; [ lia | reflexivity ].
Qed.

(** Among the whole numbers, only [N] itself rounds to a whole [N] below
    2^53. *)
Lemma whole_reads_back (N s p : Z) :
  0 <= N < 2 ^ 53 -> 0 <= s -> 0 <= p ->
  Qeq_bool (fl (inject_Z s * 10 ^ p)) (inject_Z N) = true ->
  s * 10 ^ p = N.
Proof.
  intros HN Hs Hp H. apply Qeq_bool_iff in H.
  assert (Hy : (inject_Z s * 10 ^ p == inject_Z (s * 10 ^ p))%Q).
  { rewrite inject_Z_mult, pow10_of_Z by exact Hp. reflexivity. }
  rewrite (fl_comp _ _ Hy) in H.
  assert (Hy0 : 0 <= s * 10 ^ p) by (apply Z.mul_nonneg_nonneg; [ exact Hs | apply Z.pow_nonneg; lia ]).
  revert H Hy0. generalize (s * 10 ^ p). intros y H Hy0.
  destruct (Z.le_gt_cases y (2 ^ 53)) as [ Hle | Hgt ].
  - rewrite fl_integer in H by lia.
    apply (proj1 (inject_Z_injective _ _)) in H. exact H.
  - exfalso.
    assert (Hn : (2 ^ (-1022) <= inject_Z y)%Q).
    { apply (pow2_le_small 0); [ lia | ]. change (2 ^ 0)%Q with (inject_Z 1).
      rewrite <- Zle_Qle. lia. }
    pose proof (fl_error _ Hn) as [E _]. unfold unit_roundoff in E.
    rewrite H in E.
    assert (H1 : (9007199254740993 <= inject_Z y)%Q).
    { change 9007199254740993%Q with (inject_Z (2 ^ 53 + 1)). rewrite <- Zle_Qle. lia. }
    assert (H2 : (inject_Z N <= 9007199254740991)%Q).
    { change 9007199254740991%Q with (inject_Z (2 ^ 53 - 1)). rewrite <- Zle_Qle. lia. }
    clear Hn. lra.
Qed.

Lemma shortest_from_whole (N n : Z) :
  1 <= N < 2 ^ 53 ->
  forall (fuel : nat) (k : Z),
    1 <= k <= n -> n - k < Z.of_nat fuel ->
    let r := shortest_from (inject_Z N) n k fuel in
    0 <= fst r /\ 0 <= snd r /\ fst r * 10 ^ snd r = N.
Proof.
  intros HN. induction fuel as [ | fuel IH ]; intros k Hk Hfuel; [ lia | ].
  cbn [shortest_from].
  set (p := n - k). assert (Hp : 0 <= p) by (unfold p; lia).
  set (lo := Qfloor (inject_Z N / 10 ^ p)).
  assert (Hlo : 0 <= lo).
  { unfold lo. rewrite <- (Qfloor_Z 0). apply Qfloor_resp_le.
    change (inject_Z 0) with 0%Q.
    apply Qle_shift_div_l; [ apply pow10_pos | ].
    rewrite Qmult_0_l. change 0%Q with (inject_Z 0). rewrite <- Zle_Qle. lia. }
  assert (HN' : 0 <= N < 2 ^ 53) by lia.
  destruct (Qeq_bool (fl (inject_Z lo * 10 ^ p)) (inject_Z N)) eqn:E1;
    destruct (Qeq_bool (fl (inject_Z (lo + 1) * 10 ^ p)) (inject_Z N)) eqn:E2;
    cbn [fst snd].
  - destruct (round_half_even_cases (inject_Z N / 10 ^ p)) as [ -> | -> ]; fold lo.
    + split; [ exact Hlo | ]. split; [ exact Hp | ].
      apply (whole_reads_back N lo p HN' Hlo Hp E1).
    + split; [ lia | ]. split; [ exact Hp | ].
      apply (whole_reads_back N (lo + 1) p HN'); [ lia | exact Hp | exact E2 ].
  - split; [ exact Hlo | ]. split; [ exact Hp | ].
    apply (whole_reads_back N lo p HN' Hlo Hp E1).
  - split; [ lia | ]. split; [ exact Hp | ].
    apply (whole_reads_back N (lo + 1) p HN'); [ lia | exact Hp | exact E2 ].
  - destruct (Z.eq_dec k n) as [ -> | Hne ].
    + exfalso. unfold p in *. replace (n - n) with 0 in * by lia.
      assert (Hl : lo = N).
      { unfold lo. replace (n - n) with 0 by lia. change (10 ^ 0)%Q with 1%Q.
        assert (Hd : (inject_Z N / 1 == inject_Z N)%Q) by (field).
        rewrite (Qfloor_comp _ _ Hd). apply Qfloor_Z. }
      rewrite Hl in E1. change (10 ^ 0)%Q with 1%Q in E1.
      assert (Hm : (inject_Z N * 1 == inject_Z N)%Q) by ring.
      rewrite (fl_comp _ _ Hm), fl_integer in E1 by lia.
      rewrite Qeq_bool_refl in E1. discriminate E1.
    + apply IH; lia.
Qed.

Lemma strip_final_zeros_value (fuel : nat) :
  forall s p : Z,
    0 <= s -> 0 <= p ->
    let r := strip_final_zeros s p fuel in
    0 <= fst r /\ 0 <= snd r /\ fst r * 10 ^ snd r = s * 10 ^ p.
Proof.
  induction fuel as [ | fuel IH ]; intros s p Hs Hp; cbn [strip_final_zeros].
  - cbn [fst snd]. auto.
  - destruct ((s mod 10 =? 0) && negb (s =? 0)) eqn:E.
    + apply andb_prop in E. destruct E as [Em _]. apply Z.eqb_eq in Em.
      assert (Hdiv : 0 <= s / 10) by (apply Z.div_pos; lia).
      destruct (IH (s / 10) (p + 1) Hdiv ltac:(lia)) as (H1 & H2 & H3).
      split; [ exact H1 | ]. split; [ exact H2 | ].
      rewrite H3, Z.pow_add_r by lia.
      pose proof (Z.div_mod s 10 ltac:(lia)) as Hdm. rewrite Em in Hdm.
      rewrite Hdm at 2. ring.
    + cbn [fst snd]. auto.
Qed.

Lemma positive_toString_whole (N : Z) :
  1 <= N < 2 ^ 53 -> positive_toString (inject_Z N) = decimal (Z.to_N N).
Proof.
  intros HN. unfold positive_toString, shortest_digits.
  pose proof (decimal_exponent_whole N HN (inject_Z N) ltac:(reflexivity)) as Hn.
  pose proof (shortest_from_whole N (decimal_exponent (inject_Z N)) HN 17 1
                ltac:(lia) ltac:(cbn; lia)) as Hs.
  destruct (shortest_from (inject_Z N) (decimal_exponent (inject_Z N)) 1 17)
    as [s p].
  cbn [fst snd] in Hs. destruct Hs as (Hs0 & Hp0 & Hv).
  pose proof (strip_final_zeros_value 17 s p Hs0 Hp0) as Hz.
  destruct (strip_final_zeros s p 17) as [s' p'].
  cbn [fst snd] in Hz. destruct Hz as (Hs' & Hp' & Hv').
  rewrite Hv in Hv'.
  assert (Hx : (inject_Z s' * 10 ^ p' == inject_Z N)%Q).
  { rewrite pow10_of_Z by exact Hp'. rewrite <- inject_Z_mult, Hv'. reflexivity. }
  pose proof (decimal_exponent_whole N HN _ Hx) as Hn'.
  assert (E1 : (0 <=? p') = true) by (apply Z.leb_le; exact Hp').
  assert (E2 : (decimal_exponent (inject_Z s' * 10 ^ p') <=? 21) = true)
    by (apply Z.leb_le; lia).
  rewrite E1, E2. cbn [andb]. rewrite Hv'. reflexivity.
Qed.

(** A whole number from 0 to 2^53 - 1 is written as its decimal numeral. *)
Lemma Number_toString_whole (n : N) :
  (n < 2 ^ 53)%N -> Number_toString (Finite (QofN n)) = decimal n.
Proof.
  intros Hn. unfold Number_toString, QofN.
  destruct (N.eq_dec n 0) as [ -> | Hnz ]; [ reflexivity | ].
  assert (HN : 1 <= Z.of_N n < 2 ^ 53).
  { change (2 ^ 53) with (Z.of_N (2 ^ 53)). lia. }
  assert (E0 : Qeq_bool (inject_Z (Z.of_N n)) 0 = false).
  { apply not_true_iff_false. rewrite Qeq_bool_iff. intro H.
    change 0%Q with (inject_Z 0) in H.
    apply (proj1 (inject_Z_injective _ _)) in H. lia. }
  assert (E1 : Qle_bool 0 (inject_Z (Z.of_N n)) = true).
  { apply Qle_bool_iff. change 0%Q with (inject_Z 0). rewrite <- Zle_Qle. lia. }
  rewrite E0, E1. cbn [app].
  assert (Ha : Qabs (inject_Z (Z.of_N n)) = inject_Z (Z.of_N n)).
  { unfold inject_Z. cbn [Qabs]. rewrite Z.abs_eq by lia. reflexivity. }
  rewrite Ha, (positive_toString_whole _ HN), N2Z.id. reflexivity.
Qed.

(** A price with a fraction loses it, a price from 10^21 on is written with
    an exponent and only its first digit is read back, and a negative price
    makes no request. *)
Example edit_then_save_other_prices :
  (exists r,
     saveProduct_request
       (openProductModal plain_fields true (lit "7") (sample_product (125 # 10)))
     = Some r
     /\ form_price (openProductModal plain_fields true (lit "7")
                      (sample_product (125 # 10))) = lit "12.5"
     /\ body_price (req_body r) = Finite 12)
  /\ (exists r,
        saveProduct_request
          (openProductModal plain_fields true (lit "7")
             (sample_product 1000000000000000000000))
        = Some r
        /\ form_price (openProductModal plain_fields true (lit "7")
                         (sample_product 1000000000000000000000)) = lit "1e+21"
        /\ body_price (req_body r) = Finite 1)
  /\ saveProduct_request
       (openProductModal plain_fields true (lit "7") (sample_product (- (5))))
     = None.
Proof.
  split; [ | split ].
  - eexists. vm_compute. repeat split.
  - eexists. vm_compute. repeat split.
  - vm_compute. reflexivity.
Qed.

(** X20.  Saving an existing product straight after [openProductModal]
    filled the form from it, the id and an empty price being held by their
    elements as assigned.  A product without a price, or with a price of 0 or
    [NaN], leaves the price field empty and no request is made.  For a price
    that is a whole number from 1 to 2^53 - 1 and a stock that is missing or
    a whole number below 2^53, both held by their elements as written, and a
    title that is not blank, the request is a PUT to /api/products/<id> with
    the product's own price and stock (a missing stock, or a page without a
    stock element, as 0) and the trimmed title, description and category the
    elements hold.  The blank form of a new product makes no request. *)
Theorem edit_then_save (assigned : Field -> JsString.t -> JsString.t)
  (stock_present : bool) (id : JsString.t) (p : Product) :
  id <> [] ->
  assigned IdField id = id ->
  assigned PriceField [] = [] ->
  let form := openProductModal assigned stock_present id p in
  ((product_price p = None
    \/ exists v, product_price p = Some v /\ Number_falsy v = true) ->
   saveProduct_request form = None)
  /\ (forall n stock : N,
        (0 < n < 2 ^ 53)%N ->
        product_price p = Some (Finite (QofN n)) ->
        (stock < 2 ^ 53)%N ->
        (product_stock p = None /\ stock = 0%N)
        \/ product_stock p = Some (Finite (QofN stock)) ->
        assigned PriceField (decimal n) = decimal n ->
        assigned StockField (decimal stock) = decimal stock ->
        trim (assigned TitleField (product_title p)) <> [] ->
        saveProduct_request form
        = Some {| req_method := lit "PUT";
                  req_path := lit "/api/products/" ++ id;
                  req_body :=
                    {| body_title := trim (assigned TitleField (product_title p));
                       body_description :=
                         trim (assigned DescriptionField (product_description p));
                       body_price := Finite (QofN n);
                       body_category :=
                         assigned CategoryField
                           match product_category p with
                           | [] => lit "work"
                           | c => c
                           end;
                       body_stock := if stock_present then Finite (QofN stock)
                                     else Finite 0 |} |})
  /\ saveProduct_request (openProductModal assigned stock_present [] p) = None.
Proof.
  intros Hid Hkeep Hblank form.
  assert (Hnan : forall f, form_price f = [] -> saveProduct_request f = None).
  { intros f Hf. unfold saveProduct_request. rewrite Hf.
    change (parseInt []) with NaN. cbn [Number_isNaN]. 
    rewrite orb_true_r. reflexivity. }
  assert (Hopen : form_price form
                  = assigned PriceField
                      match product_price p with
                      | Some v => if Number_falsy v then [] else Number_toString v
                      | None => []
                      end).
  { unfold form, openProductModal.
    destruct id; [ contradiction | reflexivity ]. }
  split; [ | split ].
  - intros Hp. apply Hnan. rewrite Hopen.
    destruct Hp as [ -> | (v & -> & ->) ]; exact Hblank.
  - intros n stock Hn Hp Hstock Hs Hpk Hsk Ht.
    assert (Hfalsy : Number_falsy (Finite (QofN n)) = false).
    { cbn [Number_falsy]. apply not_true_iff_false. rewrite Qeq_bool_iff.
      intro H. unfold QofN in H. change 0%Q with (inject_Z 0) in H.
      apply (proj1 (inject_Z_injective _ _)) in H. lia. }
    assert (Hprice : parseInt (form_price form) = Finite (QofN n)).
    { rewrite Hopen, Hp, Hfalsy, Number_toString_whole by lia.
      rewrite Hpk, <- (app_nil_r (decimal n)). unfold parseInt.
      rewrite (parseInt_integer_decimal n [] I).
      apply to_Number_integer. change (2 ^ 53) with (Z.of_N (2 ^ 53)). lia. }
    assert (Hstockfield :
              form_stock form
              = if stock_present then Some (decimal stock) else None).
    { unfold form, openProductModal.
      destruct id; [ contradiction | ]. cbn [is_empty form_stock].
      destruct stock_present; [ | reflexivity ]. f_equal.
      destruct Hs as [ [-> ->] | -> ]; [ exact Hsk | ].
      rewrite Number_toString_whole by exact Hstock. exact Hsk. }
    assert (Hsparse : parseInt (decimal stock) = Finite (QofN stock)).
    { rewrite <- (app_nil_r (decimal stock)). unfold parseInt.
      rewrite (parseInt_integer_decimal stock [] I).
      apply to_Number_integer. change (2 ^ 53) with (Z.of_N (2 ^ 53)). lia. }
    assert (Hnn : forall k : N,
               Number_isNaN (Finite (QofN k)) || Number_negative (Finite (QofN k))
               = false).
    { intros k. apply not_negative_guard. right. exists (QofN k).
      split; [ reflexivity | apply QofN_nonneg ]. }
    assert (He : is_empty (trim (form_title form)) = false).
    { apply not_true_iff_false. rewrite is_empty_true.
      unfold form, openProductModal. destruct id; [ contradiction | exact Ht ]. }
    unfold saveProduct_request.
    rewrite Hprice, Hstockfield, He. cbn [orb]. rewrite (Hnn n).
    unfold form, openProductModal.
    destruct id as [ | c id' ]; [ contradiction | ].
    cbn [is_empty form_id form_title form_description form_category].
    rewrite Hkeep. cbn [is_empty].
    destruct stock_present.
    + rewrite Hsparse, (Hnn stock). reflexivity.
    + reflexivity.
  - apply Hnan. unfold openProductModal. cbn [is_empty form_price]. exact Hblank.
Qed.

Lemma edit_then_save_witness :
  saveProduct_request
    (openProductModal plain_fields true (lit "7")
       (mkProduct (lit "Laptop") [] (Some (Finite (QofN 1500))) (lit "work")
          (Some (Finite (QofN 3)))))
  = Some {| req_method := lit "PUT";
            req_path := lit "/api/products/" ++ lit "7";
            req_body :=
              {| body_title := trim (lit "Laptop");
                 body_description := trim [];
                 body_price := Finite (QofN 1500);
                 body_category := lit "work";
                 body_stock := Finite (QofN 3) |} |}.
Proof.
  refine (proj1 (proj2 (edit_then_save plain_fields true (lit "7")
                          (mkProduct (lit "Laptop") [] (Some (Finite (QofN 1500)))
                             (lit "work") (Some (Finite (QofN 3))))
                          _ _ _))
            1500%N 3%N _ _ _ _ _ _ _);
    try reflexivity.
  - discriminate.
  - split; reflexivity.
  - right. reflexivity.
  - vm_compute. discriminate.
Defined.

(** ** The status select *)

Lemma last_cons_default (a d : JsString.t) (l : list JsString.t) :
  last (a :: l) d = last l a.
Proof.
  revert a d. induction l as [ | b l IH ]; intros a d; [ reflexivity | ].
  change (last (a :: b :: l) d) with (last (b :: l) d).
  rewrite (IH b d), (IH b a). reflexivity.
Qed.

Lemma last_In (a d : JsString.t) (l : list JsString.t) :
  In (last (a :: l) d) (a :: l).
Proof.
  revert a. induction l as [ | b l IH ]; intros a; [ left; reflexivity | ].
  change (last (a :: b :: l) d) with (last (b :: l) d). right. apply IH.
Qed.

Lemma is_option_cases (v : JsString.t) :
  is_option v = true ->
  v = lit "new" \/ v = lit "awaiting_payment" \/ v = lit "receipt_received"
  \/ v = lit "paid".
Proof.
  unfold is_option, status_options. cbn [existsb].
  rewrite !orb_true_iff, !jsstring_eqb_eq. intuition discriminate.
Qed.

Lemma needConfirm_option (v : JsString.t) :
  is_option v = true -> needConfirm v = true -> v = lit "paid".
Proof.
  intros Ho Hn. destruct (is_option_cases v Ho) as [ -> | [ -> | [ -> | -> ] ] ];
    try reflexivity; discriminate Hn.
Qed.

Lemma shown_after_change_option (v : JsString.t) :
  is_option v = true -> shown_after_change v = v.
Proof. intros H. unfold shown_after_change. rewrite H. reflexivity. Qed.

Lemma on_status_change_step (confirmed : bool) (status : JsString.t)
  (sel : StatusSelect) :
  is_option status = true ->
  let r := on_status_change confirmed (pick status sel) in
  sel_value (fst r) = shown_after_change (sel_prev (fst r))
  /\ match snd r with
     | Some s =>
         s = status /\ sel_prev (fst r) = status
         /\ (needConfirm status = true -> confirmed = true)
     | None =>
         status = lit "paid" /\ confirmed = false
         /\ sel_prev (fst r) = sel_prev sel
     end.
Proof.
  intros Ho r. unfold r, on_status_change, pick.
  cbn [sel_value sel_prev].
  destruct (needConfirm status) eqn:Hn; destruct confirmed; cbn [andb negb fst snd sel_value sel_prev].
  - split; [ symmetry; apply shown_after_change_option; exact Ho | auto ].
  - rewrite (needConfirm_option status Ho Hn).
    split; [ | auto ].
    unfold set_value, shown_after_change. cbn [sel_value sel_prev].
    destruct (sel_prev sel) as [ | x p ]; [ reflexivity | ].
    cbn [is_empty]. destruct (is_option (x :: p)); reflexivity.
  - split; [ symmetry; apply shown_after_change_option; exact Ho | ].
    split; [ reflexivity | ]. split; [ reflexivity | ]. intros H. discriminate H.
  - split; [ symmetry; apply shown_after_change_option; exact Ho | ].
    split; [ reflexivity | ]. split; [ reflexivity | ]. intros H. discriminate H.
Qed.

Lemma status_changes_invariant (picks : list (JsString.t * bool)) :
  Forall (fun p => is_option (fst p) = true) picks ->
  forall sel : StatusSelect,
    let sel' := fst (status_changes picks sel) in
    let sent := snd (status_changes picks sel) in
    sel_prev sel' = last sent (sel_prev sel)
    /\ (picks <> [] -> sel_value sel' = shown_after_change (sel_prev sel'))
    /\ Forall (fun s => is_option s = true) sent
    /\ incl sent (map fst (filter (fun p => negb (needConfirm (fst p)) || snd p) picks))
    /\ (Forall (fun p => needConfirm (fst p) = true /\ snd p = false) picks ->
        sent = []).
Proof.
  induction picks as [ | [status confirmed] r IH ]; intros Hpicks sel.
  - cbn. repeat split.
    + intros H. contradiction H. reflexivity.
    + constructor.
    + intros x [].
  - inversion Hpicks as [ | p l Hs Hr ]; subst. cbn [fst] in Hs.
    cbn [status_changes].
    pose proof (on_status_change_step confirmed status sel Hs) as Hstep.
    destruct (on_status_change confirmed (pick status sel)) as [sel1 out] eqn:E1.
    cbn [fst snd] in Hstep. destruct Hstep as (Hv1 & Hout).
    specialize (IH Hr sel1).
    destruct (status_changes r sel1) as [sel2 more] eqn:E2.
    cbn [fst snd] in *. destruct IH as (IHl & IHv & IHo & IHi & IHn).
    split; [ | split; [ | split; [ | split ] ] ].
    + rewrite IHl. destruct out as [ s | ].
      * destruct Hout as (-> & -> & _). symmetry. apply last_cons_default.
      * destruct Hout as (_ & _ & ->). reflexivity.
    + intros _. destruct r as [ | q r ]; [ | apply IHv; discriminate ].
      cbn in E2. injection E2 as <- <-. exact Hv1.
    + destruct out as [ s | ]; [ | exact IHo ].
      destruct Hout as (-> & _ & _). constructor; assumption.
    + cbn [filter fst snd]. destruct out as [ s | ].
      * destruct Hout as (-> & _ & Hconf).
        assert (Hkeep : (negb (needConfirm status) || confirmed) = true).
        { destruct (needConfirm status); [ rewrite Hconf; reflexivity | reflexivity ]. }
        rewrite Hkeep. cbn [map fst].
        intros x [ <- | Hx ]; [ left; reflexivity | right; apply IHi; exact Hx ].
      * destruct Hout as (-> & -> & _). cbn. exact IHi.
    + intros Hall. inversion Hall as [ | p l [Hn Hc] Hrest ]; subst.
      cbn [fst snd] in *. destruct out as [ s | ].
      * destruct Hout as (_ & _ & Hconf). specialize (Hconf Hn). congruence.
      * apply IHn. exact Hrest.
Qed.

(** X22.  For the select of a row rendered for an order status, over any
    run of picks among its four options: [data-prev] is the last status sent,
    or the order status when nothing was sent; every status sent was picked
    and, when it is 'paid', confirmed; when every pick was refused nothing is
    sent.  After a change the select shows its [data-prev] whenever that is
    one of the four options, which is so when the order status is one of them
    or something was sent.  For an order status that is none of the options
    (a shipped order), the select first shows 'new' beside that [data-prev],
    and while nothing has been sent a refused confirmation leaves it with no
    option selected, or, for an empty status, showing 'paid'. *)
Theorem status_select_invariant (status : JsString.t)
  (picks : list (JsString.t * bool)) :
  Forall (fun p => is_option (fst p) = true) picks ->
  let sel0 := render_select status in
  let sel' := fst (status_changes picks sel0) in
  let sent := snd (status_changes picks sel0) in
  sel_prev sel' = last sent status
  /\ incl sent (map fst (filter (fun p => negb (needConfirm (fst p)) || snd p) picks))
  /\ (Forall (fun p => needConfirm (fst p) = true /\ snd p = false) picks ->
      sent = [] /\ sel_prev sel' = status)
  /\ (is_option status = true \/ sent <> [] -> sel_value sel' = sel_prev sel')
  /\ (is_option status = false ->
      sel_value sel0 = lit "new"
      /\ sel_prev sel0 = status
      /\ (picks <> [] -> sent = [] ->
          sel_value sel' = if is_empty status then lit "paid" else [])).
Proof.
  intros Hpicks sel0 sel' sent.
  destruct (status_changes_invariant picks Hpicks sel0) as (Hl & Hv & Ho & Hi & Hn).
  fold sel' in Hl, Hv. fold sent in Hl, Ho, Hi, Hn.
  change (sel_prev sel0) with status in Hl.
  split; [ exact Hl | ]. split; [ exact Hi | ].
  split.
  { intros Hall. specialize (Hn Hall). split; [ exact Hn | ].
    rewrite Hl, Hn. reflexivity. }
  split.
  { intros Hcase.
    assert (Hprev : is_option (sel_prev sel') = true).
    { rewrite Hl. destruct sent as [ | a l ] eqn:Es.
      - cbn. destruct Hcase as [ H | H ]; [ exact H | contradiction H; reflexivity ].
      - rewrite Forall_forall in Ho. apply Ho, last_In. }
    destruct picks as [ | p r ].
    - cbn in *. unfold sel', sel0, render_select. cbn.
      unfold sel', sel0, render_select in Hprev. cbn in Hprev. rewrite Hprev.
      reflexivity.
    - rewrite Hv by discriminate. apply shown_after_change_option. exact Hprev. }
  intros Hno. unfold sel0, render_select. rewrite Hno. cbn [sel_value sel_prev].
  split; [ reflexivity | ]. split; [ reflexivity | ].
  intros Hne Hs. rewrite (Hv Hne), Hl, Hs. cbn [last].
  unfold shown_after_change. rewrite Hno. reflexivity.
Qed.

Lemma status_select_invariant_witness :
  sel_value
    (fst (status_changes [(lit "paid", false)] (render_select (lit "shipped"))))
  = [].
Proof.
  refine (proj2 (proj2 (proj2 (proj2 (proj2 (proj2
            (status_select_invariant (lit "shipped") [(lit "paid", false)] _))))
            _)) _ _).
  - repeat constructor.
  - reflexivity.
  - discriminate.
  - reflexivity.
Defined.
